(** * uplinkng [cp]: range parsing, destination naming and the copy engines

    A shallow embedding of [cmd/uplinkng/cmd_cp.go].  Go values are modelled
    as the code has them: [int64] as [Z] with the wrap-around written out,
    strings as byte strings ([string] of [ascii]), [error] as an inductive
    type with [None] for [nil], and the calls into collaborators (filesystem,
    multipart handles, limiter) as an environment of outcomes together with
    the trace of calls that the code performs. *)

From Stdlib Require Import ZArith Lia Bool List Ascii String Permutation.
Import ListNotations.

Local Open Scope string_scope.
Local Open Scope Z_scope.

(** ** Machine integers *)

Module Int64.

Definition min_int : Z := - 2 ^ 63.
Definition max_int : Z := 2 ^ 63 - 1.
Definition max_uint : Z := 2 ^ 64 - 1.

Definition in_range (z : Z) : Prop := min_int <= z <= max_int.

(** Two's complement reduction of a mathematical result to [int64]. *)
Definition wrap (z : Z) : Z := (z + 2 ^ 63) mod 2 ^ 64 - 2 ^ 63.

Definition add (a b : Z) : Z := wrap (a + b).
Definition sub (a b : Z) : Z := wrap (a - b).
Definition neg (a : Z) : Z := wrap (- a).

End Int64.

(** ** Go's [error] values

    [fmt.Errorf] yields a [wrapError] when the format has a [%w] operand and
    an [errorString] otherwise; [errs.New] and [errs.Wrap] put an [errorT]
    (class nil, stack trace) around an error; [errs.Group.Err] yields a
    [combinedError] for two or more members. *)

Inductive fmt_arg : Type :=
| ArgInt (z : Z)
| ArgString (s : string).

Inductive NumErrKind : Type := ErrSyntax | ErrRange.

#[local] Set Warnings "-register-all".

Inductive error : Type :=
| EOF                                                   (* io.EOF *)
| NumError (Func Num : string) (Err : NumErrKind)       (* strconv.NumError *)
| External (what : string)                              (* a collaborator's error *)
| errorString (format : string) (args : list fmt_arg)   (* fmt.Errorf, no %w *)
| wrapError (format : string) (err : error)             (* fmt.Errorf with %w *)
| errorT (err : error)                                  (* zeebo/errs wrapper *)
| combinedError (group : list error).                   (* zeebo/errs group *)

Module errs.

(** [errs.Wrap]: nil stays nil, an [errorT] is returned as it is. *)
Definition Wrap (err : option error) : option error :=
  match err with
  | None => None
  | Some (errorT e) => Some (errorT e)
  | Some e => Some (errorT e)
  end.

(** [errs.New(format, args...)] without a [%w] operand. *)
Definition New (format : string) (args : list fmt_arg) : error :=
  errorT (errorString format args).

(** [errs.New(format, err)] where [format] holds one [%w]. *)
Definition NewW (format : string) (err : error) : error :=
  errorT (wrapError format err).

Definition Group : Type := list error.

(** [group.Add(err)]: nil errors are not recorded. *)
Definition Add (group : Group) (err : option error) : Group :=
  match err with
  | None => group
  | Some e => (group ++ [e])%list
  end.

(** [group.Err()]. *)
Definition Err (group : Group) : option error :=
  match group with
  | [] => None
  | [e] => Some e
  | _ => Some (combinedError group)
  end.

End errs.

(** [Unwrap] as the three wrapping types implement it. *)
Definition Unwrap (e : error) : option error :=
  match e with
  | wrapError _ err => Some err
  | errorT err => Some err
  | combinedError (e0 :: _) => Some e0
  | _ => None
  end.

(** [errors.Is(err, io.EOF)]: walk the [Unwrap] chain looking for [io.EOF]. *)
Fixpoint Is_EOF (e : error) : bool :=
  match e with
  | EOF => true
  | wrapError _ err => Is_EOF err
  | errorT err => Is_EOF err
  | combinedError (e0 :: _) => Is_EOF e0
  | _ => false
  end.

(** [carries r e]: the error value [e] is reachable inside [r], through
    wrappers and through every member of a group. *)
Inductive carries : error -> error -> Prop :=
| carries_here e : carries e e
| carries_wrapError f r e : carries r e -> carries (wrapError f r) e
| carries_errorT r e : carries r e -> carries (errorT r) e
| carries_group g r e : In r g -> carries r e -> carries (combinedError g) e.

(** ** Go's [strings] package, on byte strings *)

Module strings.

Definition byte (c : ascii) : Z := Z.of_N (N_of_ascii c).

Definition len (s : string) : Z := Z.of_nat (String.length s).

(** [s[lo:hi]]. *)
Definition slice (s : string) (lo hi : Z) : string :=
  substring (Z.to_nat lo) (Z.to_nat (hi - lo)) s.

Fixpoint HasPrefix (s pre : string) {struct pre} : bool :=
  match pre with
  | EmptyString => true
  | String p pre' =>
      match s with
      | EmptyString => false
      | String c s' => Ascii.eqb c p && HasPrefix s' pre'
      end
  end.

Definition TrimPrefix (s pre : string) : string :=
  if HasPrefix s pre then slice s (len pre) (len s) else s.

(** [strings.Index]: position of the first occurrence, or -1. *)
Fixpoint Index (s substr : string) : Z :=
  if HasPrefix s substr then 0
  else match s with
       | EmptyString => -1
       | String _ s' =>
           let i := Index s' substr in
           if i <? 0 then -1 else i + 1
       end.

Definition Contains (s substr : string) : bool := 0 <=? Index s substr.

(** The six ASCII bytes of [unicode.IsSpace]. *)
Definition asciiSpace (c : ascii) : bool :=
  let b := byte c in
  (b =? 9) || (b =? 10) || (b =? 11) || (b =? 12) || (b =? 13) || (b =? 32).

(** The other runes of [unicode.IsSpace] in their UTF-8 encoding:
    U+0085, U+00A0 (two bytes); U+1680, U+2000..U+200A, U+2028, U+2029,
    U+202F, U+205F, U+3000 (three bytes). *)
Definition space2 (b1 b2 : Z) : bool :=
  (b1 =? 194) && ((b2 =? 133) || (b2 =? 160)).

Definition space3 (b1 b2 b3 : Z) : bool :=
  ((b1 =? 225) && (b2 =? 154) && (b3 =? 128))
  || ((b1 =? 226) && (b2 =? 128)
      && (((128 <=? b3) && (b3 <=? 138)) || (b3 =? 168) || (b3 =? 169) || (b3 =? 175)))
  || ((b1 =? 226) && (b2 =? 129) && (b3 =? 159))
  || ((b1 =? 227) && (b2 =? 128) && (b3 =? 128)).

(** [strings.TrimLeftFunc(s, unicode.IsSpace)]. *)
Fixpoint TrimLeftSpace (s : string) : string :=
  match s with
  | EmptyString => EmptyString
  | String c1 s1 =>
      if asciiSpace c1 then TrimLeftSpace s1
      else match s1 with
           | EmptyString => s
           | String c2 s2 =>
               if space2 (byte c1) (byte c2) then TrimLeftSpace s2
               else match s2 with
                    | EmptyString => s
                    | String c3 s3 =>
                        if space3 (byte c1) (byte c2) (byte c3)
                        then TrimLeftSpace s3 else s
                    end
           end
  end.

(** The same scan on the reversed bytes, for the right end: a trailing
    rune is read backwards, last byte first. *)
Fixpoint TrimLeftSpaceRev (l : list ascii) : list ascii :=
  match l with
  | [] => []
  | c1 :: l1 =>
      if asciiSpace c1 then TrimLeftSpaceRev l1
      else match l1 with
           | [] => l
           | c2 :: l2 =>
               if space2 (byte c2) (byte c1) then TrimLeftSpaceRev l2
               else match l2 with
                    | [] => l
                    | c3 :: l3 =>
                        if space3 (byte c3) (byte c2) (byte c1)
                        then TrimLeftSpaceRev l3 else l
                    end
           end
  end.

(** [strings.TrimRightFunc(s, unicode.IsSpace)]. *)
Definition TrimRightSpace (s : string) : string :=
  string_of_list_ascii (rev (TrimLeftSpaceRev (rev (list_ascii_of_string s)))).

(** [strings.TrimSpace]. *)
Definition TrimSpace (s : string) : string :=
  TrimRightSpace (TrimLeftSpace s).

End strings.

(** ** Go's [strconv.ParseInt(s, 10, 64)] *)

Module strconv.

Import strings.

Definition isDigit (c : ascii) : bool := (48 <=? byte c) && (byte c <=? 57).

Definition digitVal (c : ascii) : Z := byte c - 48.

(** The digit loop of [ParseUint], base 10 and 64 bits: [n] is the value
    read so far.  A byte that is no digit is a syntax error; the two range
    tests are those of the source ([n >= cutoff], then [n1 > maxVal]). *)
Fixpoint parseUintLoop (s : string) (n : Z) : Z * option NumErrKind :=
  match s with
  | EmptyString => (n, None)
  | String c s' =>
      if negb (isDigit c) then (0, Some ErrSyntax)
      else if Int64.max_uint / 10 + 1 <=? n then (Int64.max_uint, Some ErrRange)
      else
        let n1 := n * 10 + digitVal c in
        if Int64.max_uint <? n1 then (Int64.max_uint, Some ErrRange)
        else parseUintLoop s' n1
  end.

Definition ParseUint (s : string) : Z * option NumErrKind :=
  match s with
  | EmptyString => (0, Some ErrSyntax)
  | _ => parseUintLoop s 0
  end.

Definition ParseInt (s : string) : Z * option error :=
  match s with
  | EmptyString => (0, Some (NumError "ParseInt" s ErrSyntax))
  | String c0 rest =>
      let neg := Ascii.eqb c0 "-" in
      let s1 := if Ascii.eqb c0 "+" then rest else if neg then rest else s in
      match ParseUint s1 with
      | (_, Some ErrSyntax) => (0, Some (NumError "ParseInt" s ErrSyntax))
      | (un, _) =>
          let cutoff := 2 ^ 63 in
          if negb neg && (cutoff <=? un) then
            (cutoff - 1, Some (NumError "ParseInt" s ErrRange))
          else if neg && (cutoff <? un) then
            (- cutoff, Some (NumError "ParseInt" s ErrRange))
          else
            (if neg then Int64.neg (Int64.wrap un) else Int64.wrap un, None)
      end
  end.

(** [strconv.FormatInt(n, 10)], the decimal text that [%d] prints. *)
Fixpoint formatBits (fuel : nat) (u : Z) (acc : string) : string :=
  let acc' := String (ascii_of_N (Z.to_N (48 + u mod 10))) acc in
  match fuel with
  | O => acc'
  | S fuel' => if u <? 10 then acc' else formatBits fuel' (u / 10) acc'
  end.

Definition FormatInt (n : Z) : string :=
  if n <? 0 then String "-" (formatBits 20 (- n) EmptyString)
  else formatBits 20 n EmptyString.

End strconv.

(** ** The range resolver ([parseRange]) *)

Import strings strconv.

Definition dquote : string := String (ascii_of_N 34) EmptyString.

(** The three results of [parseRange]: offset, length and err. *)
Definition parseRange (r : string) : Z * Z * option error :=
  let r := TrimPrefix (TrimSpace r) "bytes=" in
  if String.eqb r "" then (0, -1, None)
  else if Contains r "," then
    (0, 0, Some (errs.New "invalid range: must be single range" []))
  else
    let idx := Index r "-" in
    if idx <? 0 then
      (0, 0, Some (errs.New ("invalid range: no " ++ dquote ++ "-" ++ dquote) []))
    else
      let start := TrimSpace (slice r 0 idx) in
      let end_ := TrimSpace (slice r (idx + 1) (len r)) in
      let '(starti, err) :=
        if negb (String.eqb start "") then ParseInt start else (0, None) in
      match err with
      | Some e => (0, 0, Some (errs.NewW "invalid range: %w" e))
      | None =>
          let '(endi, err) :=
            if negb (String.eqb end_ "") then ParseInt end_ else (0, None) in
          match err with
          | Some e => (0, 0, Some (errs.NewW "invalid range: %w" e))
          | None =>
              if String.eqb start "" && String.eqb end_ "" then
                (0, 0, Some (errs.New "invalid range" []))
              else if String.eqb start "" then (Int64.neg endi, -1, None)
              else if String.eqb end_ "" then (starti, -1, None)
              else if starti <? 0 then
                (0, 0, Some (errs.New "invalid range: negative start: %q"
                                      [ArgString start]))
              else if starti >? endi then
                (0, 0, Some (errs.New "invalid range: %v > %v"
                                      [ArgInt starti; ArgInt endi]))
              else (starti, Int64.add (Int64.sub endi starti) 1, None)
          end
      end.

(** The spec's [InvalidRange]: an [errs] error whose text starts with
    [invalid range]. *)
Definition InvalidRange (e : error) : bool :=
  match e with
  | errorT (errorString f _) => HasPrefix f "invalid range"
  | errorT (wrapError f _) => HasPrefix f "invalid range"
  | _ => false
  end.

(** ** Locations ([ulloc.Location])

    The package [ulloc] is not part of the sources at hand; the copy code
    uses a location only through the methods below, which are therefore the
    operations of an interface. *)

Class Ulloc (Location : Type) : Type := {
  Std : Location -> bool;
  Local : Location -> bool;
  Remote : Location -> bool;
  Directoryish : Location -> bool;
  AsDirectoryish : Location -> Location;
  Undirectoryish : Location -> Location;
  AppendKey : Location -> string -> Location;
  Base : Location -> string * bool;
  RelativeTo : Location -> Location -> string * option error
}.

(** ** Calls on one pair of multipart handles, and their outcomes *)

Inductive hevent : Type :=
| HSetOffset (offset : Z)            (* src.SetOffset(offset) *)
| HSrcNextPart (i : nat) (size : Z)  (* src.NextPart(ctx, size), part i *)
| HDstNextPart (i : nat) (size : Z)  (* dst.NextPart(ctx, size), part i *)
| HBarStart (i : nat)                (* bar.SetTotal(...).Start() *)
| HCopy (i : nat)                    (* io.Copy(w, rh) *)
| HPartCommit (i : nat)              (* wh.Commit() *)
| HPartAbort (i : nat)               (* wh.Abort() *)
| HPartClose (i : nat)               (* rh.Close() *)
| HStderr (msg : string) (i : nat)   (* a line on standard error *)
| HDstCommit                         (* dst.Commit(ctx) *)
| HCancel                            (* cancel() *)
| HDstAbort                          (* dst.Abort(ctx) *)
| HSrcClose.                         (* src.Close() *)

(** What the collaborators answer.  Calls are numbered by the part index
    [i] of the loop; [limiterGo i = false] is a submission refused because
    the context is cancelled. *)
Record HandleEnv : Type := {
  SetOffset : Z -> option error;
  srcNextPart : nat -> Z -> option error;
  dstNextPart : nat -> Z -> option error;
  limiterGo : nat -> bool;
  ioCopy : nat -> option error;
  partCommit : nat -> option error;
  dstCommit : option error
}.

(** ** The single-object parallel copy engine ([parallelCopy]) *)

(** Lines 293-296: the size of this iteration's part. *)
Definition nextChunk (chunkSize length : Z) : Z :=
  if (length >? 0) && (chunkSize >? length) then length else chunkSize.

(** The function handed to [limiter.Go]: its error (added to [es]) and its
    calls; the deferred [wh.Abort] and [rh.Close] run last, in that order. *)
Definition worker (h : HandleEnv) (bar : bool) (i : nat)
  : option error * list hevent :=
  let start := if bar then [HBarStart i] else [] in
  match ioCopy h i with
  | Some err => (Some err, start ++ [HCopy i; HPartAbort i; HPartClose i])
  | None =>
      (partCommit h i,
       start ++ [HCopy i; HPartCommit i; HPartAbort i; HPartClose i])
  end%list.

Inductive loop_exit : Type :=
| ExitCond                 (* the loop condition [length != 0] failed *)
| ExitBreak                (* [break]: end of stream, or submission refused *)
| ExitReturn (err : error). (* [return err] from inside the loop *)

(** The loop of lines 290-344.  Workers are run in the order of their
    submission, each one to its end before the next part is requested: one
    of the schedules that the limiter allows.  What is stated of the loop
    below does not depend on that choice: the calls of the loop itself and
    their order, whether and how often a call is made, and the errors of the
    workers up to the order in which they are collected.  [None] is a loop
    still running when the fuel is spent. *)
Fixpoint parallelCopyLoop (fuel : nat) (h : HandleEnv) (bar : bool)
    (chunkSize : Z) (i : nat) (length : Z) (es : errs.Group)
  : option (loop_exit * Z * errs.Group * list hevent) :=
  if length =? 0 then Some (ExitCond, length, es, [])
  else
    match fuel with
    | O => None
    | S fuel' =>
        let chunk := nextChunk chunkSize length in
        let length := Int64.sub length chunk in
        match srcNextPart h i chunk with
        | Some err =>
            if Is_EOF err then
              Some (ExitBreak, length, es, [HSrcNextPart i chunk])
            else
              Some (ExitReturn err, length, es,
                    [HSrcNextPart i chunk;
                     HStderr "Error getting reader for part" i])
        | None =>
            match dstNextPart h i chunk with
            | Some err =>
                Some (ExitReturn err, length, es,
                      [HSrcNextPart i chunk; HDstNextPart i chunk;
                       HPartClose i;
                       HStderr "Error getting writer for part" i])
            | None =>
                if limiterGo h i then
                  let '(werr, wtr) := worker h bar i in
                  match parallelCopyLoop fuel' h bar chunkSize (S i) length
                          (errs.Add es werr) with
                  | None => None
                  | Some (ex, length', es', tr) =>
                      Some (ex, length', es',
                            [HSrcNextPart i chunk; HDstNextPart i chunk]
                              ++ wtr ++ tr)%list
                  end
                else
                  Some (ExitBreak, length, es,
                        [HSrcNextPart i chunk; HDstNextPart i chunk])
            end
        end
    end.

(** The deferred calls registered at lines 285-288, in the order they run. *)
Definition parallelCopyDeferred : list hevent := [HCancel; HDstAbort; HSrcClose].

(** [parallelCopy]: the returned error and the calls made.  [p] bounds the
    number of workers alive at once, which the trace does not show.  On the
    returns from inside the loop the deferred [limiter.Wait] runs after
    [cancel], [dst.Abort] and [src.Close]; the trace has the calls of the
    workers before these three, which is the schedule where every worker is
    done by then.  After the loop [limiter.Wait] comes before [dst.Commit],
    and the workers are done under every schedule. *)
Definition parallelCopy (fuel : nat) (h : HandleEnv) (p : Z) (chunkSize : Z)
    (offset length : Z) (bar : bool) : option (option error * list hevent) :=
  let seek :=
    if negb (offset =? 0) then (SetOffset h offset, [HSetOffset offset])
    else (None, []) in
  match seek with
  | (Some err, tr0) => Some (Some err, tr0)
  | (None, tr0) =>
      match parallelCopyLoop fuel h bar chunkSize 0 length [] with
      | None => None
      | Some (ExitReturn err, _, _, tr) =>
          Some (Some err, tr0 ++ tr ++ parallelCopyDeferred)%list
      | Some (_, _, es, tr) =>
          Some (errs.Err (errs.Add es (dstCommit h)),
                tr0 ++ tr ++ [HDstCommit] ++ parallelCopyDeferred)%list
      end
  end.

(** The calls that the loop has made once it has run for [fuel] iterations,
    whether it has ended by then or not: the calls of [parallelCopyLoop],
    kept when the fuel is spent. *)
Fixpoint parallelCopyLoopCalls (fuel : nat) (h : HandleEnv) (bar : bool)
    (chunkSize : Z) (i : nat) (length : Z) : list hevent :=
  if length =? 0 then []
  else
    match fuel with
    | O => []
    | S fuel' =>
        let chunk := nextChunk chunkSize length in
        let length := Int64.sub length chunk in
        match srcNextPart h i chunk with
        | Some err =>
            if Is_EOF err then [HSrcNextPart i chunk]
            else [HSrcNextPart i chunk;
                  HStderr "Error getting reader for part" i]
        | None =>
            match dstNextPart h i chunk with
            | Some err =>
                [HSrcNextPart i chunk; HDstNextPart i chunk;
                 HPartClose i;
                 HStderr "Error getting writer for part" i]
            | None =>
                if limiterGo h i then
                  ([HSrcNextPart i chunk; HDstNextPart i chunk]
                     ++ snd (worker h bar i)
                     ++ parallelCopyLoopCalls fuel' h bar chunkSize (S i) length)%list
                else [HSrcNextPart i chunk; HDstNextPart i chunk]
            end
        end
    end.

(** The calls that [parallelCopy] has made once its loop has run for [fuel]
    iterations: all its calls when it has returned by then, the seek and the
    calls of the loop when the loop is still running. *)
Definition parallelCopyCalls (fuel : nat) (h : HandleEnv) (p : Z)
    (chunkSize : Z) (offset length : Z) (bar : bool) : list hevent :=
  match parallelCopy fuel h p chunkSize offset length bar with
  | Some (_, tr) => tr
  | None =>
      ((if negb (offset =? 0) then [HSetOffset offset] else [])
         ++ parallelCopyLoopCalls fuel h bar chunkSize 0 length)%list
  end.

(** ** The copy command ([cmdCp]) *)

Section Cp.

Context {Location : Type} {U : Ulloc Location}.

Record cmdCp : Type := {
  access : string;
  recursive : bool;
  transfers : Z;
  dryrun : bool;
  progress : bool;
  byteRange : string;
  parallelism : Z;
  parallelismChunkSize : Z;
  source : Location;
  dest : Location
}.

(** Calls on the filesystem and the terminal. *)
Inductive event : Type :=
| EvOpenFilesystem                              (* c.ex.OpenFilesystem *)
| EvFsClose                                     (* fs.Close() *)
| EvIsLocalDir (loc : Location)                 (* fs.IsLocalDir *)
| EvList (loc : Location)                       (* fs.List and its iteration *)
| EvStdout (verb : string) (src dst : Location) (* "<verb> src to dst" *)
| EvStderr (verb : string) (err : error)        (* "<verb> failed: err" *)
| EvOpen (loc : Location)                       (* fs.Open *)
| EvCreate (loc : Location)                     (* fs.Create *)
| EvBarNew                                      (* progressbar.New64 *)
| EvBarFinish                                   (* bar.Finish() *)
| EvHandle (src dst : Location) (e : hevent)    (* a call on the handles *)
| EvWriteAbort (loc : Location)                 (* mwh.Abort(ctx) *)
| EvReadClose (loc : Location).                 (* mrh.Close() *)

(** What the filesystem answers.  [fileGo k = false] is the file-level
    limiter refusing the k-th submission (context cancelled). *)
Record FsEnv : Type := {
  OpenFilesystem : option error;
  IsLocalDir : Location -> bool;
  fsListErr : Location -> option error;
  fsListItems : Location -> list Location;
  fsIterErr : Location -> option error;
  fsOpen : Location -> option error;
  fsCreate : Location -> option error;
  handles : Location -> Location -> HandleEnv;
  fileGo : nat -> bool
}.

Definition copyVerb (src dst : Location) : string :=
  if Remote dst then "upload"
  else if Remote src then "download"
  else "copy".

Definition joinDestWith (dst : Location) (suffix : string) : Location :=
  let dst := AppendKey dst suffix in
  if Local dst && Directoryish dst then Undirectoryish dst else dst.

(** [copyFile]: the deferred [bar.Finish], [mwh.Abort] and [mrh.Close]
    run after [parallelCopy], in that order. *)
Definition copyFile (fuel : nat) (c : cmdCp) (fs : FsEnv)
    (src dst : Location) (progress : bool)
  : option (option error * list event) :=
  if dryrun c then Some (None, [])
  else
    let '(offset, length, err) := parseRange (byteRange c) in
    match err with
    | Some e => Some (errs.Wrap (Some e), [])
    | None =>
        match fsOpen fs src with
        | Some e => Some (Some e, [EvOpen src])
        | None =>
            match fsCreate fs dst with
            | Some e =>
                Some (Some e, [EvOpen src; EvCreate dst; EvReadClose src])
            | None =>
                let bar := progress && negb (Std c.(dest)) in
                match parallelCopy fuel (handles fs src dst)
                        (parallelism c) (parallelismChunkSize c)
                        offset length bar with
                | None => None
                | Some (r, tr) =>
                    Some (errs.Wrap r,
                          [EvOpen src; EvCreate dst]
                            ++ (if bar then [EvBarNew] else [])
                            ++ map (EvHandle src dst) tr
                            ++ (if bar then [EvBarFinish] else [])
                            ++ [EvWriteAbort dst; EvReadClose src])%list
                end
            end
        end
    end.

(** The loop of [copyRecursive] (lines 172-191) over the entries still to
    come; [k] counts the submissions.  The first component is an error
    returned from inside the loop.  File tasks run in the order of their
    submission, each one to its end before the next entry is looked at: one
    of the schedules that the limiter allows.  The return at line 176 does
    not wait for the tasks submitted before it; here they are done by
    then. *)
Fixpoint copyRecursiveLoop (fuel : nat) (c : cmdCp) (fs : FsEnv) (k : nat)
    (items : list Location) (es : errs.Group)
  : option (option error * errs.Group * list event) :=
  match items with
  | [] => Some (None, es, [])
  | src :: items' =>
      let '(rel, err) := RelativeTo c.(source) src in
      match err with
      | Some e => Some (Some e, es, [])
      | None =>
          let dst := joinDestWith c.(dest) rel in
          if fileGo fs k then
            match copyFile fuel c fs src dst false with
            | None => None
            | Some (r, tr) =>
                let failed :=
                  match r with
                  | Some e => [EvStderr (copyVerb src dst) e]
                  | None => []
                  end in
                match copyRecursiveLoop fuel c fs (S k) items' (errs.Add es r) with
                | None => None
                | Some (ret, es', tr') =>
                    Some (ret, es',
                          [EvStdout (copyVerb src dst) src dst]
                            ++ tr ++ failed ++ tr')%list
                end
            end
          else Some (None, es, [])
      end
  end.

(** Lines 195-200: the result once all file tasks are done. *)
Definition copyRecursiveResult (iterErr : option error) (es : errs.Group)
  : option error :=
  match iterErr with
  | Some err => errs.Wrap (Some err)
  | None => if (0 <? Z.of_nat (List.length es)) then errs.Err es else None
  end.

Definition copyRecursive (fuel : nat) (c : cmdCp) (fs : FsEnv)
  : option (option error * list event) :=
  if Std c.(source) || Std c.(dest) then
    Some (Some (errs.New "cannot recursively copy to stdin/stdout" []), [])
  else
    match fsListErr fs c.(source) with
    | Some e => Some (Some e, [EvList c.(source)])
    | None =>
        match copyRecursiveLoop fuel c fs 0 (fsListItems fs c.(source)) [] with
        | None => None
        | Some (Some e, _, tr) => Some (Some e, EvList c.(source) :: tr)
        | Some (None, es, tr) =>
            Some (copyRecursiveResult (fsIterErr fs c.(source)) es,
                  EvList c.(source) :: tr)
        end
    end.

Definition set_source (c : cmdCp) (l : Location) : cmdCp :=
  {| access := access c; recursive := recursive c; transfers := transfers c;
     dryrun := dryrun c; progress := progress c; byteRange := byteRange c;
     parallelism := parallelism c;
     parallelismChunkSize := parallelismChunkSize c;
     source := l; dest := dest c |}.

Definition set_dest (c : cmdCp) (l : Location) : cmdCp :=
  {| access := access c; recursive := recursive c; transfers := transfers c;
     dryrun := dryrun c; progress := progress c; byteRange := byteRange c;
     parallelism := parallelism c;
     parallelismChunkSize := parallelismChunkSize c;
     source := source c; dest := l |}.

(** Appends the deferred [fs.Close()] to whatever the body did.  In
    [Execute] below, the error of line 128 is formatted with the source
    location; its text comes from [ulloc], and the operand is left out. *)
Definition withFsClose (r : option (option error * list event))
  : option (option error * list event) :=
  match r with
  | None => None
  | Some (e, tr) => Some (e, tr ++ [EvFsClose])%list
  end.

Definition Execute (fuel : nat) (c : cmdCp) (fs : FsEnv)
  : option (option error * list event) :=
  match OpenFilesystem fs with
  | Some err => Some (Some err, [EvOpenFilesystem])
  | None =>
      let c1 :=
        if IsLocalDir fs c.(source)
        then set_source c (AsDirectoryish c.(source)) else c in
      let '(c2, tr2) :=
        if recursive c1 then (set_dest c1 (AsDirectoryish c1.(dest)), [])
        else
          (if IsLocalDir fs c1.(dest)
           then set_dest c1 (AsDirectoryish c1.(dest)) else c1,
           [EvIsLocalDir c1.(dest)]) in
      let pre := ([EvOpenFilesystem; EvIsLocalDir c.(source)] ++ tr2)%list in
      let prepend r :=
        match r with
        | None => None
        | Some (e, tr) => Some (e, pre ++ tr)%list
        end in
      withFsClose (prepend (
        if recursive c2 then
          if negb (String.eqb (byteRange c2) "") then
            Some (Some (errs.New "unable to do recursive copy with byte range" []),
                  [])
          else copyRecursive fuel c2 fs
        else
          let '(base, ok) :=
            if Directoryish c2.(dest) && negb (Std c2.(source))
            then Base (Undirectoryish c2.(source)) else ("", true) in
          if negb ok then
            Some (Some (errs.New
              "destination is a directory and cannot find base name for source %q"
              []), [])
          else
            let c3 := set_dest c2 (joinDestWith c2.(dest) base) in
            let announce :=
              if negb (Std c3.(source)) && negb (Std c3.(dest))
              then [EvStdout (copyVerb c3.(source) c3.(dest))
                             c3.(source) c3.(dest)]
              else [] in
            match copyFile fuel c3 fs c3.(source) c3.(dest) (progress c3) with
            | None => None
            | Some (e, tr) => Some (e, announce ++ tr)%list
            end))
  end.

End Cp.

(** ** Validation of the flags ([Setup]) *)

Section Setup.

(** [memory.MB], a constant of [storj.io/common/memory]. *)
Variable MB : Z.

(** The transform of the [transfers] and [parallelism] flags. *)
Definition parallelismTransform (msg : string) (n : Z) : Z * option error :=
  if n <=? 0 then (0, Some (errs.New msg [])) else (n, None).

(** The transform of the [parallelism-chunk-size] flag. *)
Definition chunkSizeTransform (n : Z) : Z * option error :=
  if n <? 1 * MB then
    (0, Some (errs.New "file chunk size must be at least 1 MB" []))
  else (n, None).

End Setup.

(** ** A model of [ulloc.Location] *)

Module UllocModel.

(** Modelled from the spec: the package [ulloc] (type [Location] and its
    methods) is missing from the sources.  A location is a local path, a
    remote object of a bucket, or the standard stream. *)
Inductive Location : Type :=
| LocalPath (path : string)
| RemoteObject (bucket key : string)
| StdStream.

Definition isSep (c : ascii) : bool := Ascii.eqb c "/".

Fixpoint endsWithSep (s : string) : bool :=
  match s with
  | EmptyString => false
  | String c EmptyString => isSep c
  | String _ s' => endsWithSep s'
  end.

(** Removes every trailing separator. *)
Fixpoint stripSeps (s : string) : string :=
  match s with
  | EmptyString => EmptyString
  | String c s' =>
      let t := stripSeps s' in
      if String.eqb t "" && isSep c then EmptyString else String c t
  end.

(** The text after the last separator. *)
Fixpoint lastSegment (s : string) : string :=
  match s with
  | EmptyString => EmptyString
  | String c s' =>
      if Contains s' "/" then lastSegment s'
      else if isSep c then s' else s
  end.

(** Modelled from the spec: the classification predicates of the missing
    [ulloc.Location]. *)
Definition Std (l : Location) : bool :=
  match l with StdStream => true | _ => false end.

Definition Local (l : Location) : bool :=
  match l with LocalPath _ => true | _ => false end.

Definition Remote (l : Location) : bool :=
  match l with RemoteObject _ _ => true | _ => false end.

(** Modelled from the spec: the missing [Directoryish], the directory-ish
    flag with its trailing-separator semantics. *)
Definition Directoryish (l : Location) : bool :=
  match l with
  | LocalPath p => endsWithSep p
  | RemoteObject _ k => endsWithSep k
  | StdStream => false
  end.

(** Modelled from the spec: the missing [AsDirectoryish], which makes a
    location directory-ish by a trailing separator. *)
Definition AsDirectoryish (l : Location) : Location :=
  match l with
  | LocalPath p => if endsWithSep p then l else LocalPath (p ++ "/")
  | RemoteObject b k => if endsWithSep k then l else RemoteObject b (k ++ "/")
  | StdStream => StdStream
  end.

(** Modelled from the spec: the missing [Undirectoryish], which strips any
    trailing separator. *)
Definition Undirectoryish (l : Location) : Location :=
  match l with
  | LocalPath p => LocalPath (stripSeps p)
  | RemoteObject b k => RemoteObject b (stripSeps k)
  | StdStream => StdStream
  end.

(** Modelled from the spec: the missing [AppendKey], which appends the
    suffix as a path segment. *)
Definition appendSegment (p suffix : string) : string :=
  if String.eqb suffix "" then p
  else if String.eqb p "" || endsWithSep p then p ++ suffix
  else p ++ "/" ++ suffix.

Definition AppendKey (l : Location) (suffix : string) : Location :=
  match l with
  | LocalPath p => LocalPath (appendSegment p suffix)
  | RemoteObject b k => RemoteObject b (appendSegment k suffix)
  | StdStream => StdStream
  end.

(** Modelled from the spec: the missing [Base], the base name of a
    location, if it has one. *)
Definition Base (l : Location) : string * bool :=
  match l with
  | LocalPath p => (lastSegment p, negb (String.eqb (lastSegment p) ""))
  | RemoteObject _ k => (lastSegment k, negb (String.eqb (lastSegment k) ""))
  | StdStream => ("", false)
  end.

(** Modelled from the spec: the missing [RelativeTo], the path of an entry
    relative to the location it was listed under. *)
Definition relativePath (base p : string) : string * option error :=
  if HasPrefix p base then (slice p (len base) (len p), None)
  else ("", Some (External "location is not under the base")).

Definition RelativeTo (base l : Location) : string * option error :=
  match base, l with
  | LocalPath b, LocalPath p => relativePath b p
  | RemoteObject bb bk, RemoteObject lb lk =>
      if String.eqb bb lb then relativePath bk lk
      else ("", Some (External "location is in another bucket"))
  | _, _ => ("", Some (External "locations of different kinds"))
  end.

#[global] Instance ulloc : Ulloc Location := {
  Std := Std;
  Local := Local;
  Remote := Remote;
  Directoryish := Directoryish;
  AsDirectoryish := AsDirectoryish;
  Undirectoryish := Undirectoryish;
  AppendKey := AppendKey;
  Base := Base;
  RelativeTo := RelativeTo
}.

End UllocModel.

(** ** Permissions of an access grant ([access_permissions.go]) *)

(** Go's [time.Time]: the wall and monotonic readings and the location
    pointer ([None] for nil); the zero value has all three zero. *)
Record Time : Type := { wall : Z; ext : Z; loc : option nat }.

Definition zeroTime : Time := {| wall := 0; ext := 0; loc := None |}.

(** [==] on two [time.Time] values: field by field. *)
Definition Time_eqb (a b : Time) : bool :=
  (wall a =? wall b) && (ext a =? ext b)
  && match loc a, loc b with
     | None, None => true
     | Some x, Some y => Nat.eqb x y
     | _, _ => false
     end.

Module uplink.

Record SharePrefix : Type := { Bucket : string; Prefix : string }.

Record Permission : Type := {
  AllowDownload : bool;
  AllowUpload : bool;
  AllowList : bool;
  AllowDelete : bool;
  NotBefore : Time;
  NotAfter : Time
}.

(** [==] on two [uplink.Permission] values. *)
Definition Permission_eqb (a b : Permission) : bool :=
  Bool.eqb (AllowDownload a) (AllowDownload b)
  && Bool.eqb (AllowUpload a) (AllowUpload b)
  && Bool.eqb (AllowList a) (AllowList b)
  && Bool.eqb (AllowDelete a) (AllowDelete b)
  && Time_eqb (NotBefore a) (NotBefore b)
  && Time_eqb (NotAfter a) (NotAfter b).

End uplink.

Record accessPermissions : Type := {
  prefixes : list uplink.SharePrefix;
  readonly : bool;
  writeonly : bool;
  disallowDeletes : bool;
  disallowLists : bool;
  disallowReads : bool;
  disallowWrites : bool;
  notBefore : Time;
  notAfter : Time
}.

Definition AllowDelete (ap : accessPermissions) : bool :=
  negb (disallowDeletes ap) && negb (readonly ap).

Definition AllowList (ap : accessPermissions) : bool :=
  negb (disallowLists ap) && negb (writeonly ap).

Definition AllowDownload (ap : accessPermissions) : bool :=
  negb (disallowReads ap) && negb (writeonly ap).

Definition AllowUpload (ap : accessPermissions) : bool :=
  negb (disallowWrites ap) && negb (readonly ap).

(** [Apply]: the access and error returned, and the calls of
    [access.Share] made, each with its permission and prefixes.  [Share]
    is what the access answers. *)
Definition Apply {Access : Type}
    (Share : Access -> uplink.Permission -> list uplink.SharePrefix
             -> option Access * option error)
    (ap : accessPermissions) (access : Access)
  : option Access * option error
    * list (uplink.Permission * list uplink.SharePrefix) :=
  let permission :=
    {| uplink.AllowDelete := AllowDelete ap;
       uplink.AllowList := AllowList ap;
       uplink.AllowDownload := AllowDownload ap;
       uplink.AllowUpload := AllowUpload ap;
       uplink.NotBefore := notBefore ap;
       uplink.NotAfter := notAfter ap |} in
  if uplink.Permission_eqb permission
       {| uplink.AllowDelete := true; uplink.AllowList := true;
          uplink.AllowDownload := true; uplink.AllowUpload := true;
          uplink.NotBefore := zeroTime; uplink.NotAfter := zeroTime |}
     && (Z.of_nat (List.length (prefixes ap)) =? 0)
  then (Some access, None, [])
  else
    match Share access permission (prefixes ap) with
    | (_, Some err) => (None, errs.Wrap (Some err), [(permission, prefixes ap)])
    | (access', None) => (access', None, [(permission, prefixes ap)])
    end.

(** ** Listing a bucket ([ulfs/remote.go]) *)

Module ulfs.

(** [strings.LastIndexByte]. *)
Fixpoint LastIndexByte (s : string) (c : ascii) : Z :=
  match s with
  | EmptyString => -1
  | String x s' =>
      let i := LastIndexByte s' c in
      if 0 <=? i then i + 1 else if Ascii.eqb x c then 0 else -1
  end.

(** The call made on the project: [ListUploads] or [ListObjects], with the
    options it is given. *)
Record uplinkList : Type := {
  listUploads : bool;
  listBucket : string;
  listPrefix : string;
  listRecursive : bool;
  listSystem : bool
}.

(** The iterator that [List] returns; [trim] and [filter] are remote
    locations, a bucket and a key each. *)
Record filteredObjectIterator : Type := {
  trim : string * string;
  filter : string * string;
  iter : uplinkList
}.

(** [Remote.List].  [isRecursive] and [isPending] are what the methods of
    that name answer on [opts], [optsRecursive] is its field [Recursive]. *)
Definition List (bucket prefix : string)
    (optsRecursive isRecursive isPending : bool) : filteredObjectIterator :=
  let parentPrefix :=
    let idx := LastIndexByte prefix "/" in
    if 0 <=? idx then slice prefix 0 (idx + 1) else "" in
  let trim := if negb isRecursive then (bucket, parentPrefix) else (bucket, "") in
  {| trim := trim;
     filter := (bucket, prefix);
     iter := {| listUploads := isPending;
                listBucket := bucket;
                listPrefix := parentPrefix;
                listRecursive := optsRecursive;
                listSystem := true |} |}.

End ulfs.

(** ** The version in the name of a snapshot ([migrate_test.go]) *)

Module migrate.

(** Applies [f] to every byte. *)
Fixpoint mapBytes (f : ascii -> ascii) (s : string) : string :=
  match s with
  | EmptyString => EmptyString
  | String c s' => String (f c) (mapBytes f s')
  end.

Definition isASCII (c : ascii) : bool := byte c <? 128.

Definition lowerByte (c : ascii) : ascii :=
  if (65 <=? byte c) && (byte c <=? 90) then ascii_of_N (Z.to_N (byte c + 32))
  else c.

(** [strings.ToLower]: byte by byte when the string is ASCII, and
    [strings.Map(unicode.ToLower, s)], here [unicodeLower], when it is not. *)
Definition ToLower (unicodeLower : string -> string) (s : string) : string :=
  if forallb isASCII (list_ascii_of_string s) then mapBytes lowerByte s
  else unicodeLower s.

(** [filepath.ToSlash]: the separator is a backslash on Windows and a
    slash elsewhere. *)
Definition Separator (windows : bool) : ascii := if windows then "\" else "/".

Definition ToSlash (windows : bool) (path : string) : string :=
  if Ascii.eqb (Separator windows) "/" then path
  else mapBytes (fun c => if Ascii.eqb c (Separator windows) then "/"%char else c)
         path.

(** [strings.HasSuffix] and [strings.TrimSuffix]. *)
Definition HasSuffix (s suffix : string) : bool :=
  (len suffix <=? len s)
  && String.eqb (slice s (len s - len suffix) (len s)) suffix.

Definition TrimSuffix (s suffix : string) : string :=
  if HasSuffix s suffix then slice s 0 (len s - len suffix) else s.

(** [strconv.Atoi], with an [int] of 64 bits: the number and the error of
    [ParseInt(s, 10, 0)], the error naming [Atoi]. *)
Definition Atoi (s : string) : Z * option error :=
  match ParseInt s with
  | (v, Some (NumError _ num kind)) => (v, Some (NumError "Atoi" num kind))
  | r => r
  end.

Definition parseTestdataVersion (windows : bool)
    (unicodeLower : string -> string) (path : string) : Z :=
  let path := ToSlash windows (ToLower unicodeLower path) in
  let path := TrimPrefix path "testdata/postgres.v" in
  let path := TrimSuffix path ".sql" in
  match Atoi path with
  | (_, Some _) => -1
  | (v, None) => v
  end.

End migrate.

(** ** Notions used in the statements *)

(** Every byte of [s] satisfies [P]. *)
Definition allb (P : ascii -> bool) (s : string) : bool :=
  forallb P (list_ascii_of_string s).

(** The number that a string of decimal digits denotes, read after [n]. *)
Fixpoint decVal (s : string) (n : Z) : Z :=
  match s with
  | EmptyString => n
  | String c s' => decVal s' (n * 10 + digitVal c)
  end.

(** A byte that no space rune starts or ends with. *)
Definition isPlain (c : ascii) : bool := (byte c <? 128) && negb (asciiSpace c).

(** The bytes of a single range clause: digits and the dash. *)
Definition isClauseByte (c : ascii) : bool := isDigit c || Ascii.eqb c "-".

(** The clause of a range string, and the texts on the two sides of its
    first dash, as [parseRange] cuts them out. *)
Definition clauseOf (r : string) : string := TrimPrefix (TrimSpace r) "bytes=".

Definition startOf (r : string) : string :=
  TrimSpace (slice (clauseOf r) 0 (Index (clauseOf r) "-")).

Definition endOf (r : string) : string :=
  TrimSpace (slice (clauseOf r) (Index (clauseOf r) "-" + 1) (len (clauseOf r))).

(** The sizes asked of [src.NextPart] and of [dst.NextPart], in order. *)
Definition srcSizes (tr : list hevent) : list Z :=
  flat_map (fun e => match e with HSrcNextPart _ size => [size] | _ => [] end) tr.

Definition dstSizes (tr : list hevent) : list Z :=
  flat_map (fun e => match e with HDstNextPart _ size => [size] | _ => [] end) tr.

Definition sumZ (l : list Z) : Z := fold_right Z.add 0 l.

(** The chunk sizes as the spec words them: while [remaining] is not zero,
    take [min(chunkSize, remaining)] and decrement [remaining] by it. *)
Fixpoint specChunks (fuel : nat) (chunkSize remaining : Z) : list Z :=
  if remaining =? 0 then []
  else
    match fuel with
    | O => []
    | S fuel' =>
        let chunk := Z.min chunkSize remaining in
        chunk :: specChunks fuel' chunkSize (remaining - chunk)
    end.

(** No end of stream, no error, no refused submission. *)
Definition allGranted (h : HandleEnv) : Prop :=
  forall i size,
    srcNextPart h i size = None /\ dstNextPart h i size = None
    /\ limiterGo h i = true.

(** Counting the calls of a trace. *)
Definition countb (f : hevent -> bool) (tr : list hevent) : nat :=
  List.length (filter f tr).

(** How often part [i] is closed (source side), committed and aborted
    (destination side). *)
Definition closes (i : nat) (tr : list hevent) : nat :=
  countb (fun e => match e with HPartClose j => Nat.eqb i j | _ => false end) tr.

Definition commits (i : nat) (tr : list hevent) : nat :=
  countb (fun e => match e with HPartCommit j => Nat.eqb i j | _ => false end) tr.

Definition aborts (i : nat) (tr : list hevent) : nat :=
  countb (fun e => match e with HPartAbort j => Nat.eqb i j | _ => false end) tr.

Definition settles (i : nat) (tr : list hevent) : nat :=
  (commits i tr + aborts i tr)%nat.

Definition isNil (err : option error) : bool :=
  match err with None => true | Some _ => false end.

(** How often part [i] is acquired: the calls of [NextPart] for it that the
    collaborator answers without error. *)
Definition srcAcquired (h : HandleEnv) (i : nat) (tr : list hevent) : nat :=
  countb (fun e => match e with
                   | HSrcNextPart j size =>
                       Nat.eqb i j && isNil (srcNextPart h j size)
                   | _ => false
                   end) tr.

Definition dstAcquired (h : HandleEnv) (i : nat) (tr : list hevent) : nat :=
  countb (fun e => match e with
                   | HDstNextPart j size =>
                       Nat.eqb i j && isNil (dstNextPart h j size)
                   | _ => false
                   end) tr.

(** The calls that list or copy: the listing, the opening of a source, the
    creation of a destination, and every call on the handles. *)
Definition isTransfer {Location : Type} (ev : @event Location) : bool :=
  match ev with
  | EvList _ | EvOpen _ | EvCreate _ | EvHandle _ _ _
  | EvWriteAbort _ | EvReadClose _ | EvBarNew | EvBarFinish => true
  | _ => false
  end.

Definition noTransfer {Location : Type} (tr : list (@event Location)) : bool :=
  forallb (fun ev => negb (isTransfer ev)) tr.

Definition set_dryrun {Location : Type} (c : @cmdCp Location) (b : bool)
  : @cmdCp Location :=
  {| access := access c; recursive := recursive c; transfers := transfers c;
     dryrun := b; progress := progress c; byteRange := byteRange c;
     parallelism := parallelism c;
     parallelismChunkSize := parallelismChunkSize c;
     source := source c; dest := dest c |}.

Definition set_byteRange {Location : Type} (c : @cmdCp Location) (r : string)
  : @cmdCp Location :=
  {| access := access c; recursive := recursive c; transfers := transfers c;
     dryrun := dryrun c; progress := progress c; byteRange := r;
     parallelism := parallelism c;
     parallelismChunkSize := parallelismChunkSize c;
     source := source c; dest := dest c |}.

(** ** Environments of the examples *)

(** Every part is granted and every submission accepted; nothing fails. *)
Definition grantAll : HandleEnv :=
  {| SetOffset := fun _ => None;
     srcNextPart := fun _ _ => None;
     dstNextPart := fun _ _ => None;
     limiterGo := fun _ => true;
     ioCopy := fun _ => None;
     partCommit := fun _ => None;
     dstCommit := None |}.

(** The context is cancelled once the first pair of parts is acquired: the
    limiter refuses the submission, and the final commit fails. *)
Definition cancelledAtSubmit : HandleEnv :=
  {| SetOffset := fun _ => None;
     srcNextPart := fun _ _ => None;
     dstNextPart := fun _ _ => None;
     limiterGo := fun _ => false;
     ioCopy := fun _ => None;
     partCommit := fun _ => None;
     dstCommit := Some (External "context canceled") |}.

(** The source is at its end from the first request on. *)
Definition emptySource : HandleEnv :=
  {| SetOffset := fun _ => None;
     srcNextPart := fun _ _ => Some EOF;
     dstNextPart := fun _ _ => None;
     limiterGo := fun _ => true;
     ioCopy := fun _ => None;
     partCommit := fun _ => None;
     dstCommit := None |}.

(** A recursive download of [sj://b/a/] into the local directory [d/]. *)
Definition downloadTree : @cmdCp UllocModel.Location :=
  {| access := ""; recursive := true; transfers := 1; dryrun := false;
     progress := true; byteRange := ""; parallelism := 4;
     parallelismChunkSize := 64000000;
     source := UllocModel.RemoteObject "b" "a/";
     dest := UllocModel.LocalPath "d/" |}.

(** The listing yields one object and then fails; the object cannot be
    opened. *)
Definition failingListing : @FsEnv UllocModel.Location :=
  {| OpenFilesystem := None;
     IsLocalDir := fun _ => false;
     fsListErr := fun _ => None;
     fsListItems := fun _ => [UllocModel.RemoteObject "b" "a/1"];
     fsIterErr := fun _ => Some (External "listing failed");
     fsOpen := fun _ => Some (External "open failed");
     fsCreate := fun _ => None;
     handles := fun _ _ => grantAll;
     fileGo := fun _ => true |}.

(** ** Notions used in the further properties *)

(** The calls of the loop and of its workers, as opposed to the calls on
    the two handles as a whole. *)
Definition isPartCall (e : hevent) : bool :=
  match e with
  | HSrcNextPart _ _ | HDstNextPart _ _ | HBarStart _ | HCopy _
  | HPartCommit _ | HPartAbort _ | HPartClose _ | HStderr _ _ => true
  | _ => false
  end.

(** The calls on the two handles as a whole and on the context: they are
    all made by the goroutine that runs [parallelCopy], so that their order
    among themselves is the order of the code, whatever the workers do in
    between. *)
Definition isHandleCall (e : hevent) : bool :=
  match e with
  | HSetOffset _ | HSrcNextPart _ _ | HDstNextPart _ _
  | HDstCommit | HCancel | HDstAbort | HSrcClose => true
  | _ => false
  end.

Definition isNextPart (e : hevent) : bool :=
  match e with
  | HSrcNextPart _ _ | HDstNextPart _ _ => true
  | _ => false
  end.

(** The number of workers that have run: each one calls [io.Copy] once. *)
Definition started (tr : list hevent) : nat :=
  countb (fun e => match e with HCopy _ => true | _ => false end) tr.

(** What the worker of part [i] adds to the error set. *)
Definition partResult (h : HandleEnv) (i : nat) : option error :=
  match ioCopy h i with
  | Some err => Some err
  | None => partCommit h i
  end.

(** The errors of the workers of parts [i], ..., [i + n - 1], in order. *)
Definition workerErrs (h : HandleEnv) (i n : nat) : list error :=
  flat_map (fun j => errs.Add [] (partResult h j)) (seq i n).

(** The seek that precedes the loop. *)
Definition seekCalls (offset : Z) : list hevent :=
  if offset =? 0 then [] else [HSetOffset offset].

(** The sizes of the parts of a bounded transfer: full chunks, and the
    remainder if there is one. *)
Definition partSizes (chunkSize length : Z) : list Z :=
  (repeat chunkSize (Z.to_nat (length / chunkSize))
     ++ (if length mod chunkSize =? 0 then [] else [length mod chunkSize]))%list.

(** Every part is granted; the copy of part 1 fails. *)
Definition secondPartFails : HandleEnv :=
  {| SetOffset := fun _ => None;
     srcNextPart := fun _ _ => None;
     dstNextPart := fun _ _ => None;
     limiterGo := fun _ => true;
     ioCopy := fun i => if Nat.eqb i 1 then Some (External "copy failed") else None;
     partCommit := fun _ => None;
     dstCommit := None |}.

(** The source has two parts and is then at its end. *)
Definition twoPartSource : HandleEnv :=
  {| SetOffset := fun _ => None;
     srcNextPart := fun i _ => if Nat.ltb i 2 then None else Some EOF;
     dstNextPart := fun _ _ => None;
     limiterGo := fun _ => true;
     ioCopy := fun _ => None;
     partCommit := fun _ => None;
     dstCommit := None |}.








(** The calls that copy: opening, creating, and every call on the handles
    and on the progress bar. *)
Definition isCopyCall {Location : Type} (ev : @event Location) : bool :=
  match ev with
  | EvOpen _ | EvCreate _ | EvHandle _ _ _
  | EvWriteAbort _ | EvReadClose _ | EvBarNew | EvBarFinish => true
  | _ => false
  end.

(** The calls on the progress bar. *)
Definition isBarCall {Location : Type} (ev : @event Location) : bool :=
  match ev with
  | EvBarNew | EvBarFinish | EvHandle _ _ (HBarStart _) => true
  | _ => false
  end.

(** The destination that [copyRecursive] computes for a listed entry, and
    the line it prints for it. *)
Definition entryDest {Location : Type} {U : Ulloc Location}
    (c : @cmdCp Location) (item : Location) : Location :=
  joinDestWith (dest c) (fst (RelativeTo (source c) item)).

Definition announce {Location : Type} {U : Ulloc Location}
    (c : @cmdCp Location) (item : Location) : @event Location :=
  EvStdout (copyVerb item (entryDest c item)) item (entryDest c item).


(** Everything succeeds: one object is listed, and its source has two
    parts. *)
Definition healthyFs : @FsEnv UllocModel.Location :=
  {| OpenFilesystem := None;
     IsLocalDir := fun _ => false;
     fsListErr := fun _ => None;
     fsListItems := fun _ => [UllocModel.RemoteObject "b" "a/1"];
     fsIterErr := fun _ => None;
     fsOpen := fun _ => None;
     fsCreate := fun _ => None;
     handles := fun _ _ => twoPartSource;
     fileGo := fun _ => true |}.

(** The flags as [Setup] leaves them when none is given: [readonly] is on. *)
Definition defaultPermissions : accessPermissions :=
  {| prefixes := []; readonly := true; writeonly := false;
     disallowDeletes := false; disallowLists := false;
     disallowReads := false; disallowWrites := false;
     notBefore := zeroTime; notAfter := zeroTime |}.

(** An access, numbered, whose [Share] always succeeds with the next one. *)
Definition shareOk (access : nat) (_ : uplink.Permission)
    (_ : list uplink.SharePrefix) : option nat * option error :=
  (Some (S access), None).

(** Everything succeeds and every part is granted. *)
Definition grantingFs : @FsEnv UllocModel.Location :=
  {| OpenFilesystem := None;
     IsLocalDir := fun _ => false;
     fsListErr := fun _ => None;
     fsListItems := fun _ => [UllocModel.RemoteObject "b" "a/1"];
     fsIterErr := fun _ => None;
     fsOpen := fun _ => None;
     fsCreate := fun _ => None;
     handles := fun _ _ => grantAll;
     fileGo := fun _ => true |}.

(** * Facts *)

Lemma Int64_wrap_in_range z : Int64.in_range z -> Int64.wrap z = z.
Proof.
  unfold Int64.in_range, Int64.wrap, Int64.min_int, Int64.max_int. intros H.
  rewrite Z.mod_small; lia.
Qed.

(** ** Bytes *)

Ltac ascii_cases c :=
  destruct c as [[] [] [] [] [] [] [] []]; vm_compute; intuition congruence.

Lemma isDigit_facts c :
  isDigit c = true ->
  isPlain c = true /\ Ascii.eqb c "-" = false /\ Ascii.eqb c "," = false
  /\ Ascii.eqb c "b" = false /\ Ascii.eqb c "+" = false
  /\ 0 <= digitVal c <= 9.
Proof. ascii_cases c. Qed.

Lemma isClauseByte_facts c :
  isClauseByte c = true ->
  isPlain c = true /\ Ascii.eqb c "," = false /\ Ascii.eqb c "b" = false.
Proof. ascii_cases c. Qed.

Lemma isPlain_facts c :
  isPlain c = true ->
  asciiSpace c = false
  /\ (forall b, space2 (byte c) b = false) /\ (forall b, space2 b (byte c) = false)
  /\ (forall b b', space3 (byte c) b b' = false)
  /\ (forall b b', space3 b b' (byte c) = false).
Proof.
  unfold isPlain, space2, space3. intros H.
  apply andb_true_iff in H. destruct H as [H1 H2].
  apply Z.ltb_lt in H1. apply negb_true_iff in H2.
  repeat split; auto; intros;
    repeat match goal with
      | |- context [?a =? ?b] => destruct (Z.eqb_spec a b); try lia
      | |- context [?a <=? ?b] => destruct (Z.leb_spec a b); try lia
      end; simpl; auto;
    repeat rewrite ?andb_false_r, ?orb_false_r; auto.
Qed.

(** ** Strings *)

Lemma len_append a b : len (a ++ b) = len a + len b.
Proof.
  unfold len. induction a as [|c a IH]; simpl String.length.
  - simpl. lia.
  - rewrite !Nat2Z.inj_succ. simpl in IH. lia.
Qed.

Lemma len_String c s : len (String c s) = 1 + len s.
Proof. unfold len. simpl String.length. lia. Qed.

Lemma len_nonneg s : 0 <= len s.
Proof. unfold len. lia. Qed.

Lemma chars_append a b :
  list_ascii_of_string (a ++ b)
  = (list_ascii_of_string a ++ list_ascii_of_string b)%list.
Proof. induction a as [|c a IH]; simpl; [reflexivity | now rewrite IH]. Qed.

Lemma allb_append P a b : allb P (a ++ b) = allb P a && allb P b.
Proof. unfold allb. rewrite chars_append. apply forallb_app. Qed.

Lemma allb_String P c s : allb P (String c s) = P c && allb P s.
Proof. reflexivity. Qed.

Lemma allb_impl (P Q : ascii -> bool) s :
  (forall c, P c = true -> Q c = true) -> allb P s = true -> allb Q s = true.
Proof.
  unfold allb. intros HPQ H. rewrite forallb_forall in *. auto.
Qed.

Lemma substring_all s : substring 0 (String.length s) s = s.
Proof. induction s as [|c s IH]; simpl; [reflexivity | now rewrite IH]. Qed.

Lemma substring_head a b : substring 0 (String.length a) (a ++ b) = a.
Proof.
  induction a as [|c a IH]; simpl.
  - destruct b; reflexivity.
  - now rewrite IH.
Qed.

Lemma substring_tail a b n :
  substring (String.length a) n (a ++ b) = substring 0 n b.
Proof. induction a as [|c a IH]; simpl; auto. Qed.

Lemma slice_head a b : slice (a ++ b) 0 (len a) = a.
Proof.
  unfold slice, len. rewrite Z.sub_0_r, Nat2Z.id. apply substring_head.
Qed.

Lemma slice_tail a b : slice (a ++ b) (len a) (len (a ++ b)) = b.
Proof.
  unfold slice. rewrite len_append.
  replace (len a + len b - len a) with (len b) by lia.
  unfold len. rewrite !Nat2Z.id, substring_tail. apply substring_all.
Qed.

Lemma append_assoc (a b c : string) : (a ++ b) ++ c = a ++ b ++ c.
Proof. induction a as [|x a IH]; simpl; [reflexivity | now rewrite IH]. Qed.

(** Trimming leaves a string of plain bytes as it is. *)
Lemma TrimLeftSpace_plain c s :
  isPlain c = true -> TrimLeftSpace (String c s) = String c s.
Proof.
  intros H. destruct (isPlain_facts c H) as (H1 & H2 & _ & H3 & _).
  simpl. rewrite H1. destruct s as [|c2 [|c3 s3]]; auto.
  - now rewrite H2.
  - now rewrite H2, H3.
Qed.

Lemma TrimLeftSpaceRev_plain c l :
  isPlain c = true -> TrimLeftSpaceRev (c :: l) = c :: l.
Proof.
  intros H. destruct (isPlain_facts c H) as (H1 & _ & H2 & _ & H3).
  simpl. rewrite H1. destruct l as [|c2 [|c3 l3]]; auto.
  - now rewrite H2.
  - now rewrite H2, H3.
Qed.

Lemma TrimSpace_plain s : allb isPlain s = true -> TrimSpace s = s.
Proof.
  intros H. unfold TrimSpace.
  assert (HL : TrimLeftSpace s = s).
  { destruct s as [|c s]; [reflexivity|].
    rewrite allb_String in H. apply andb_true_iff in H.
    now apply TrimLeftSpace_plain. }
  rewrite HL. unfold TrimRightSpace.
  assert (HR : TrimLeftSpaceRev (rev (list_ascii_of_string s))
               = rev (list_ascii_of_string s)).
  { unfold allb in H. rewrite forallb_forall in H.
    destruct (rev (list_ascii_of_string s)) as [|c l] eqn:E; [reflexivity|].
    apply TrimLeftSpaceRev_plain, H, in_rev. rewrite E. now left. }
  rewrite HR, rev_involutive. apply string_of_list_ascii_of_string.
Qed.

Lemma allb_digits_plain s : allb isDigit s = true -> allb isPlain s = true.
Proof. apply allb_impl. intros c H. apply (isDigit_facts c H). Qed.

Lemma allb_clause_plain s : allb isClauseByte s = true -> allb isPlain s = true.
Proof. apply allb_impl. intros c H. apply (isClauseByte_facts c H). Qed.

Lemma allb_digits_clause s :
  allb isDigit s = true -> allb isClauseByte s = true.
Proof.
  apply allb_impl. intros c H. unfold isClauseByte. now rewrite H.
Qed.

(** A clause has no comma, and does not start with [bytes=]. *)
Lemma Index_comma_clause s : allb isClauseByte s = true -> Index s "," = -1.
Proof.
  induction s as [|c s IH]; intros H; [reflexivity|].
  rewrite allb_String in H. apply andb_true_iff in H. destruct H as [Hc Hs].
  destruct (isClauseByte_facts c Hc) as (_ & Hcomma & _).
  cbn [Index HasPrefix]. rewrite Hcomma. cbn [andb]. now rewrite (IH Hs).
Qed.

Lemma Contains_comma_clause s :
  allb isClauseByte s = true -> Contains s "," = false.
Proof. intros H. unfold Contains. now rewrite Index_comma_clause. Qed.

Lemma TrimPrefix_clause s :
  allb isClauseByte s = true -> TrimPrefix s "bytes=" = s.
Proof.
  intros H. unfold TrimPrefix. destruct s as [|c s]; [reflexivity|].
  rewrite allb_String in H. apply andb_true_iff in H. destruct H as [Hc _].
  destruct (isClauseByte_facts c Hc) as (_ & _ & Hb).
  cbn [HasPrefix]. now rewrite Hb.
Qed.

Lemma TrimPrefix_bytes s : TrimPrefix ("bytes=" ++ s) "bytes=" = s.
Proof.
  unfold TrimPrefix. change (HasPrefix ("bytes=" ++ s) "bytes=") with true.
  cbv iota. apply (slice_tail "bytes=" s).
Qed.

(** The first dash of [a-b] is right after the digits of [a]. *)
Lemma Index_dash a b :
  allb isDigit a = true -> Index (a ++ String "-" b) "-" = len a.
Proof.
  induction a as [|c a IH]; intros H.
  - reflexivity.
  - rewrite allb_String in H. apply andb_true_iff in H. destruct H as [Hc Ha].
    destruct (isDigit_facts c Hc) as (_ & Hdash & _).
    change ((String c a) ++ String "-" b) with (String c (a ++ String "-" b)).
    cbn [Index HasPrefix]. rewrite Hdash. cbn [andb]. rewrite (IH Ha).
    pose proof (len_nonneg a). rewrite len_String.
    destruct (Z.ltb_spec (len a) 0); lia.
Qed.

(** ** Decimal numbers *)

Lemma decVal_le s : forall n,
  allb isDigit s = true -> 0 <= n -> n <= decVal s n.
Proof.
  induction s as [|c s IH]; intros n H Hn; simpl; [lia|].
  rewrite allb_String in H. apply andb_true_iff in H. destruct H as [Hc Hs].
  destruct (isDigit_facts c Hc) as (_ & _ & _ & _ & _ & Hd).
  specialize (IH (n * 10 + digitVal c) Hs). lia.
Qed.

Lemma parseUintLoop_digits s : forall n,
  allb isDigit s = true -> 0 <= n -> decVal s n <= Int64.max_uint ->
  parseUintLoop s n = (decVal s n, None).
Proof.
  induction s as [|c s IH]; intros n H Hn Hmax; [reflexivity|].
  rewrite allb_String in H. apply andb_true_iff in H. destruct H as [Hc Hs].
  destruct (isDigit_facts c Hc) as (_ & _ & _ & _ & _ & Hd).
  simpl in Hmax.
  pose proof (decVal_le s (n * 10 + digitVal c) Hs ltac:(lia)) as Hle.
  cbn [parseUintLoop decVal]. rewrite Hc. cbn [negb].
  change (Int64.max_uint / 10 + 1) with 1844674407370955162.
  change Int64.max_uint with 18446744073709551615 in *.
  destruct (Z.leb_spec 1844674407370955162 n); [lia|].
  destruct (Z.ltb_spec 18446744073709551615 (n * 10 + digitVal c)); [lia|].
  apply IH; auto; lia.
Qed.

Lemma ParseInt_digits s :
  s <> "" -> allb isDigit s = true -> decVal s 0 <= Int64.max_int ->
  ParseInt s = (decVal s 0, None).
Proof.
  intros Hne H Hmax. destruct s as [|c s]; [congruence|].
  pose proof H as H'. rewrite allb_String in H'. apply andb_true_iff in H'.
  destruct H' as [Hc Hs].
  destruct (isDigit_facts c Hc) as (_ & Hdash & _ & _ & Hplus & Hd).
  pose proof (decVal_le (String c s) 0 H ltac:(lia)) as H0.
  unfold ParseInt. rewrite Hdash, Hplus. unfold ParseUint.
  rewrite parseUintLoop_digits; auto; try lia.
  2:{ unfold Int64.max_int, Int64.max_uint in *. lia. }
  cbn [negb andb]. unfold Int64.max_int in Hmax.
  destruct (Z.leb_spec (2 ^ 63) (decVal (String c s) 0)); [lia|].
  cbn iota. f_equal. apply Int64_wrap_in_range.
  unfold Int64.in_range, Int64.min_int, Int64.max_int. lia.
Qed.

Lemma digit_byte d :
  0 <= d <= 9 ->
  isDigit (ascii_of_N (Z.to_N (48 + d))) = true
  /\ digitVal (ascii_of_N (Z.to_N (48 + d))) = d.
Proof.
  intros H.
  assert (E : d = 0 \/ d = 1 \/ d = 2 \/ d = 3 \/ d = 4 \/ d = 5 \/ d = 6
              \/ d = 7 \/ d = 8 \/ d = 9) by lia.
  repeat (destruct E as [E|E]; [subst d; vm_compute; auto|]).
  subst d; vm_compute; auto.
Qed.

Lemma formatBits_cons fuel : forall u acc,
  exists c r, formatBits fuel u acc = String c r.
Proof.
  induction fuel as [|fuel IH]; intros u acc; simpl; eauto.
  destruct (u <? 10); eauto.
Qed.

Lemma formatBits_digits fuel : forall u acc,
  0 <= u -> allb isDigit acc = true ->
  allb isDigit (formatBits fuel u acc) = true.
Proof.
  induction fuel as [|fuel IH]; intros u acc Hu Hacc;
    pose proof (Z.mod_pos_bound u 10 ltac:(lia)) as Hm;
    destruct (digit_byte (u mod 10) ltac:(lia)) as [Hd _]; cbn [formatBits].
  - rewrite allb_String, Hd, Hacc. reflexivity.
  - destruct (u <? 10).
    + rewrite allb_String, Hd, Hacc. reflexivity.
    + apply IH.
      * apply Z.div_pos; lia.
      * rewrite allb_String, Hd, Hacc. reflexivity.
Qed.

Lemma formatBits_decVal fuel : forall u acc,
  0 <= u < 10 ^ (Z.of_nat fuel + 1) ->
  decVal (formatBits fuel u acc) 0 = decVal acc u.
Proof.
  induction fuel as [|fuel IH]; intros u acc Hu;
    pose proof (Z.mod_pos_bound u 10 ltac:(lia)) as Hm;
    destruct (digit_byte (u mod 10) ltac:(lia)) as [_ Hv].
  - change (10 ^ (Z.of_nat 0 + 1)) with 10 in Hu.
    cbn [formatBits decVal]. rewrite Hv, Z.mod_small by lia. reflexivity.
  - cbn [formatBits]. destruct (Z.ltb_spec u 10).
    + cbn [decVal]. rewrite Hv, Z.mod_small by lia. reflexivity.
    + rewrite IH.
      * cbn [decVal]. rewrite Hv. f_equal.
        pose proof (Z.div_mod u 10 ltac:(lia)). lia.
      * split; [apply Z.div_pos; lia|].
        apply Z.div_lt_upper_bound; [lia|].
        replace (Z.of_nat (S fuel) + 1) with (Z.succ (Z.of_nat fuel + 1)) in Hu
          by lia.
        rewrite Z.pow_succ_r in Hu by lia. lia.
Qed.

Lemma FormatInt_digits n :
  0 <= n -> allb isDigit (FormatInt n) = true /\ FormatInt n <> "".
Proof.
  intros Hn. unfold FormatInt. destruct (Z.ltb_spec n 0); [lia|]. split.
  - now apply formatBits_digits.
  - destruct (formatBits_cons 20 n "") as (c & r & E). rewrite E. discriminate.
Qed.

Lemma decVal_FormatInt n :
  0 <= n <= Int64.max_int -> decVal (FormatInt n) 0 = n.
Proof.
  intros Hn. unfold FormatInt. destruct (Z.ltb_spec n 0); [lia|].
  rewrite formatBits_decVal; [reflexivity|].
  unfold Int64.max_int in Hn. simpl Z.of_nat. lia.
Qed.

(** Parsing undoes printing. *)
Lemma ParseInt_FormatInt n :
  0 <= n <= Int64.max_int -> ParseInt (FormatInt n) = (n, None).
Proof.
  intros Hn. destruct (FormatInt_digits n ltac:(lia)) as [Hd Hne].
  rewrite ParseInt_digits; auto; rewrite (decVal_FormatInt n Hn);
    [reflexivity | lia].
Qed.

(** ** The range resolver on a clause of digits *)

Lemma clause_bytes a b :
  allb isDigit a = true -> allb isDigit b = true ->
  allb isClauseByte (a ++ String "-" b) = true.
Proof.
  intros Ha Hb. rewrite allb_append, allb_String.
  rewrite (allb_digits_clause a Ha), (allb_digits_clause b Hb). reflexivity.
Qed.

Lemma parseRange_trim pre a b :
  pre = "" \/ pre = "bytes=" ->
  allb isDigit a = true -> allb isDigit b = true ->
  TrimPrefix (TrimSpace (pre ++ a ++ String "-" b)) "bytes="
  = a ++ String "-" b.
Proof.
  intros Hpre Ha Hb. pose proof (clause_bytes a b Ha Hb) as Hc.
  rewrite TrimSpace_plain.
  - destruct Hpre; subst pre.
    + now apply TrimPrefix_clause.
    + apply TrimPrefix_bytes.
  - rewrite allb_append, (allb_clause_plain _ Hc).
    destruct Hpre; subst pre; reflexivity.
Qed.

Lemma slice_after_dash a b :
  slice (a ++ String "-" b) (len a + 1) (len (a ++ String "-" b)) = b.
Proof.
  replace (a ++ String "-" b) with ((a ++ "-") ++ b)
    by (rewrite append_assoc; reflexivity).
  replace (len a + 1) with (len (a ++ "-"))
    by (rewrite len_append; reflexivity).
  apply slice_tail.
Qed.

Lemma eqb_empty_append a c b : String.eqb (a ++ String c b) "" = false.
Proof. destruct a; reflexivity. Qed.

(** What [parseRange] answers on [a-b], with or without [bytes=], when [a]
    and [b] are strings of digits whose numbers fit [int64]. *)
Lemma parseRange_digits pre a b :
  pre = "" \/ pre = "bytes=" ->
  allb isDigit a = true -> allb isDigit b = true ->
  decVal a 0 <= Int64.max_int -> decVal b 0 <= Int64.max_int ->
  parseRange (pre ++ a ++ String "-" b) =
    if String.eqb a "" then
      if String.eqb b "" then (0, 0, Some (errs.New "invalid range" []))
      else (Int64.neg (decVal b 0), -1, None)
    else if String.eqb b "" then (decVal a 0, -1, None)
    else if decVal a 0 >? decVal b 0 then
      (0, 0, Some (errs.New "invalid range: %v > %v"
                            [ArgInt (decVal a 0); ArgInt (decVal b 0)]))
    else (decVal a 0, Int64.add (Int64.sub (decVal b 0) (decVal a 0)) 1, None).
Proof.
  intros Hpre Ha Hb Hva Hvb. unfold parseRange.
  rewrite (parseRange_trim pre a b Hpre Ha Hb), eqb_empty_append.
  rewrite (Contains_comma_clause _ (clause_bytes a b Ha Hb)).
  rewrite (Index_dash a b Ha).
  pose proof (len_nonneg a) as Hlen.
  destruct (Z.ltb_spec (len a) 0) as [?|_]; [lia|].
  rewrite slice_head, slice_after_dash.
  rewrite (TrimSpace_plain a (allb_digits_plain a Ha)).
  rewrite (TrimSpace_plain b (allb_digits_plain b Hb)).
  pose proof (decVal_le a 0 Ha ltac:(lia)) as Hpa.
  destruct (String.eqb_spec a "") as [Ea|Ea];
    destruct (String.eqb_spec b "") as [Eb|Eb]; cbn [negb andb];
    rewrite ?(ParseInt_digits a Ea Ha Hva), ?(ParseInt_digits b Eb Hb Hvb);
    try reflexivity.
  destruct (Z.ltb_spec (decVal a 0) 0); [lia|]. reflexivity.
Qed.

(** ** The claims on [parseRange] *)

(** C4.  [parseRange] maps the empty string, [bytes=10-20], [bytes=-5] and
    [bytes=10-] to (0,-1), (10,11), (-5,-1) and (10,-1), without error.  In
    general, for [int64] numbers [0 <= N <= M] printed in decimal, with or
    without the [bytes=] prefix: [N-M] yields the offset [N] and the length
    [M-N+1], except for [N = 0] and [M = 2^63-1], the one range whose length
    [2^63] is no [int64], where the length returned is [-2^63]; [N-] yields
    [(N,-1)] and [-N] yields [(-N,-1)]. *)
Theorem parseRange_values (pre : string) (N M : Z)
    (Hpre : pre = "" \/ pre = "bytes=")
    (HN : 0 <= N <= M) (HM : M <= Int64.max_int) :
  parseRange "" = (0, -1, None)
  /\ parseRange "bytes=10-20" = (10, 11, None)
  /\ parseRange "bytes=-5" = (-5, -1, None)
  /\ parseRange "bytes=10-" = (10, -1, None)
  /\ parseRange (pre ++ FormatInt N ++ "-" ++ FormatInt M)
     = (N,
        if (N =? 0) && (M =? Int64.max_int) then Int64.min_int else M - N + 1,
        None)
  /\ (M - N + 1 <= Int64.max_int <-> (N =? 0) && (M =? Int64.max_int) = false)
  /\ parseRange (pre ++ FormatInt N ++ "-") = (N, -1, None)
  /\ parseRange (pre ++ "-" ++ FormatInt N) = (- N, -1, None).
Proof.
  destruct (FormatInt_digits N ltac:(lia)) as [HdN HneN].
  destruct (FormatInt_digits M ltac:(lia)) as [HdM HneM].
  pose proof (decVal_FormatInt N ltac:(lia)) as EN.
  pose proof (decVal_FormatInt M ltac:(lia)) as EM.
  assert (Hin : forall z, Int64.min_int <= z <= Int64.max_int -> Int64.wrap z = z)
    by (intros; now apply Int64_wrap_in_range).
  assert (Hmin : Int64.min_int = - Int64.max_int - 1) by reflexivity.
  split; [reflexivity|]. split; [reflexivity|]. split; [reflexivity|].
  split; [reflexivity|]. split; [|split; [|split]].
  - change (FormatInt N ++ "-" ++ FormatInt M)
      with (FormatInt N ++ String "-" (FormatInt M)).
    rewrite parseRange_digits; auto; try lia. rewrite EN, EM.
    destruct (String.eqb_spec (FormatInt N) ""); [contradiction|].
    destruct (String.eqb_spec (FormatInt M) ""); [contradiction|].
    destruct (Z.gtb_spec N M); [lia|].
    unfold Int64.add, Int64.sub. rewrite (Hin (M - N)) by lia.
    destruct (Z.eqb_spec N 0) as [->|HN0];
      [destruct (Z.eqb_spec M Int64.max_int) as [->|HMm]|]; cbn [andb];
      [reflexivity | rewrite Hin by lia; reflexivity
      | rewrite Hin by lia; reflexivity].
  - destruct (Z.eqb_spec N 0) as [->|HN0];
      [destruct (Z.eqb_spec M Int64.max_int) as [->|HMm]|]; cbn [andb].
    + split; [|discriminate]. unfold Int64.max_int. lia.
    + split; [reflexivity | lia].
    + split; [reflexivity | lia].
  - change (FormatInt N ++ "-") with (FormatInt N ++ String "-" "").
    rewrite parseRange_digits; auto; try (simpl; lia). rewrite EN.
    destruct (String.eqb_spec (FormatInt N) ""); [contradiction|]. reflexivity.
  - change (pre ++ "-" ++ FormatInt N) with (pre ++ "" ++ String "-" (FormatInt N)).
    rewrite parseRange_digits; auto; try (simpl; lia). rewrite EN.
    destruct (String.eqb_spec (FormatInt N) ""); [contradiction|].
    cbn [String.eqb]. unfold Int64.neg. rewrite Hin by lia. reflexivity.
Qed.

Lemma parseRange_values_witness :
  parseRange ("bytes=" ++ FormatInt 100 ++ "-" ++ FormatInt 149) = (100, 50, None)
  /\ parseRange ("bytes=" ++ FormatInt 100 ++ "-") = (100, -1, None)
  /\ parseRange ("bytes=" ++ "-" ++ FormatInt 100) = (-100, -1, None).
Proof.
  assert (Hpre : "bytes=" = "" \/ "bytes=" = "bytes=") by (right; reflexivity).
  assert (HN : 0 <= 100 <= 149) by lia.
  assert (HM : 149 <= Int64.max_int) by (unfold Int64.max_int; lia).
  destruct (parseRange_values "bytes=" 100 149 Hpre HN HM)
    as (_ & _ & _ & _ & H1 & _ & H2 & H3).
  repeat split; assumption.
Defined.

(** C4 as stated fails at one range: for [N = 0] and [M = 2^63-1], which
    satisfy [0 <= N <= M], the length [M-N+1] is [2^63]; the [int64]
    expression [endi - starti + 1] wraps, and [parseRange] returns the
    length [-2^63] without error. *)
Lemma parseRange_full_range_wraps :
  parseRange "bytes=0-9223372036854775807" = (0, -9223372036854775808, None)
  /\ parseRange "0-9223372036854775807" = (0, -9223372036854775808, None)
  /\ 0 <= 0 <= 9223372036854775807
  /\ 9223372036854775807 - 0 + 1 = 9223372036854775808
  /\ -9223372036854775808 <> 9223372036854775807 - 0 + 1.
Proof.
  split; [vm_compute; reflexivity|]. split; [vm_compute; reflexivity|]. lia.
Qed.

(** Every error of [parseRange] is an [InvalidRange], returned with a zero
    offset and a zero length. *)
Lemma parseRange_error_InvalidRange r offset length e :
  parseRange r = (offset, length, Some e) ->
  InvalidRange e = true /\ offset = 0 /\ length = 0.
Proof.
  unfold parseRange.
  repeat match goal with
    | |- context [if ?b then _ else _] => destruct b
    | |- context [let '(_, _) := ?p in _] => destruct p as [? [?|]]
    | |- (_, _, _) = (_, _, _) -> _ =>
        let H := fresh in intros H; inversion H; subst; clear H
    end; auto; try discriminate.
Qed.

(** C5.  [parseRange] fails with an [InvalidRange] error on [bytes=20-10],
    on [bytes=10-20,30-40] and on [bytes=-]; and when [strconv.ParseInt]
    rejects the start text of the clause, or accepts it and rejects the end
    text, with error [e], [parseRange] fails with an [InvalidRange] error
    that wraps [e]. *)
Theorem parseRange_errors (r : string) (e : error)
    (Hnonempty : clauseOf r <> "")
    (Hsingle : Contains (clauseOf r) "," = false)
    (Hdash : 0 <= Index (clauseOf r) "-")
    (Hfail :
       (startOf r <> "" /\ snd (ParseInt (startOf r)) = Some e)
       \/ ((startOf r = "" \/ snd (ParseInt (startOf r)) = None)
           /\ endOf r <> "" /\ snd (ParseInt (endOf r)) = Some e)) :
  parseRange "bytes=20-10"
    = (0, 0, Some (errs.New "invalid range: %v > %v" [ArgInt 20; ArgInt 10]))
  /\ parseRange "bytes=10-20,30-40"
    = (0, 0, Some (errs.New "invalid range: must be single range" []))
  /\ parseRange "bytes=-" = (0, 0, Some (errs.New "invalid range" []))
  /\ (forall f args, InvalidRange (errs.New ("invalid range" ++ f) args) = true)
  /\ parseRange r = (0, 0, Some (errs.NewW "invalid range: %w" e))
  /\ InvalidRange (errs.NewW "invalid range: %w" e) = true
  /\ Unwrap (errs.NewW "invalid range: %w" e) = Some (wrapError "invalid range: %w" e)
  /\ Unwrap (wrapError "invalid range: %w" e) = Some e.
Proof.
  repeat split; try reflexivity.
  unfold parseRange. fold (clauseOf r). fold (startOf r) (endOf r).
  destruct (String.eqb_spec (clauseOf r) "") as [?|_]; [contradiction|].
  rewrite Hsingle.
  destruct (Z.ltb_spec (Index (clauseOf r) "-") 0) as [?|_]; [lia|].
  destruct Hfail as [[Hs He] | [Hs [Hn He]]].
  - destruct (String.eqb_spec (startOf r) "") as [?|_]; [contradiction|].
    cbn [negb]. destruct (ParseInt (startOf r)) as [starti err].
    simpl in He. subst err. reflexivity.
  - destruct (String.eqb_spec (endOf r) "") as [?|_]; [contradiction|].
    cbn [negb].
    destruct (ParseInt (endOf r)) as [endi err]. simpl in He. subst err.
    destruct Hs as [Hs|Hs].
    + rewrite Hs. reflexivity.
    + destruct (ParseInt (startOf r)) as [starti err]. simpl in Hs. subst err.
      destruct (negb (String.eqb (startOf r) "")); reflexivity.
Qed.

Lemma parseRange_errors_witness :
  parseRange "bytes=1x-5"
  = (0, 0, Some (errs.NewW "invalid range: %w" (NumError "ParseInt" "1x" ErrSyntax)))
  /\ parseRange "bytes=7-99999999999999999999"
  = (0, 0, Some (errs.NewW "invalid range: %w"
                   (NumError "ParseInt" "99999999999999999999" ErrRange))).
Proof.
  split.
  - apply (parseRange_errors "bytes=1x-5" (NumError "ParseInt" "1x" ErrSyntax)).
    + discriminate.
    + reflexivity.
    + vm_compute. discriminate.
    + left. split; [discriminate | reflexivity].
  - apply (parseRange_errors "bytes=7-99999999999999999999"
             (NumError "ParseInt" "99999999999999999999" ErrRange)).
    + discriminate.
    + reflexivity.
    + vm_compute. discriminate.
    + right. split; [right; reflexivity | split; [discriminate | reflexivity]].
Defined.

(** ** The chunk loop of [parallelCopy] *)

Lemma nextChunk_min chunkSize remaining :
  0 < remaining -> nextChunk chunkSize remaining = Z.min chunkSize remaining.
Proof.
  intros H. unfold nextChunk.
  destruct (Z.gtb_spec remaining 0); [|lia].
  destruct (Z.gtb_spec chunkSize remaining); cbn [andb]; lia.
Qed.

Lemma srcSizes_app a b : srcSizes (a ++ b) = (srcSizes a ++ srcSizes b)%list.
Proof. apply flat_map_app. Qed.

Lemma dstSizes_app a b : dstSizes (a ++ b) = (dstSizes a ++ dstSizes b)%list.
Proof. apply flat_map_app. Qed.

Lemma worker_sizes h bar i :
  srcSizes (snd (worker h bar i)) = [] /\ dstSizes (snd (worker h bar i)) = [].
Proof.
  unfold worker. destruct (ioCopy h i), bar; split; reflexivity.
Qed.

Lemma sumZ_app a b : sumZ (a ++ b) = sumZ a + sumZ b.
Proof. induction a as [|x a IH]; simpl; [reflexivity | rewrite IH; lia]. Qed.

(** The loop on a bounded transfer: it ends within [length] iterations,
    asks for the chunks of the spec in their order, and what it has asked
    for and what remains add up to [length]. *)
Lemma parallelCopyLoop_bounded h bar chunkSize :
  1 <= chunkSize <= Int64.max_int ->
  forall fuel i length es,
    0 <= length <= Int64.max_int -> (Z.to_nat length <= fuel)%nat ->
    exists ex rem es' tr,
      parallelCopyLoop fuel h bar chunkSize i length es = Some (ex, rem, es', tr)
      /\ (exists rest,
            specChunks fuel chunkSize length = (srcSizes tr ++ rest)%list)
      /\ 0 <= rem /\ sumZ (srcSizes tr) + rem = length
      /\ (ex = ExitCond -> rem = 0)
      /\ (allGranted h ->
          ex = ExitCond /\ srcSizes tr = specChunks fuel chunkSize length
          /\ dstSizes tr = srcSizes tr).
Proof.
  intros Hc. induction fuel as [|fuel IH]; intros i length es Hl Hf.
  - assert (length = 0) by lia. subst length.
    exists ExitCond, 0, es, []. simpl. repeat split; auto; try lia.
    now exists [].
  - cbn [parallelCopyLoop specChunks].
    destruct (Z.eqb_spec length 0) as [E|E].
    + subst length. exists ExitCond, 0, es, []. simpl.
      repeat split; auto; try lia. now exists [].
    + rewrite nextChunk_min by lia.
      set (chunk := Z.min chunkSize length).
      assert (Hchunk : 1 <= chunk <= length) by (unfold chunk; lia).
      assert (Hsub : Int64.sub length chunk = length - chunk).
      { apply Int64_wrap_in_range.
        unfold Int64.in_range, Int64.min_int, Int64.max_int in *. lia. }
      rewrite Hsub.
      assert (Hstop : forall (ex : loop_exit) (es' : errs.Group) (tr : list hevent),
        ex <> ExitCond -> srcSizes tr = [chunk] ->
        (allGranted h -> False) ->
        exists ex0 rem es0 tr0,
          Some (ex, length - chunk, es', tr) = Some (ex0, rem, es0, tr0)
          /\ (exists rest,
                (chunk :: specChunks fuel chunkSize (length - chunk))
                = (srcSizes tr0 ++ rest)%list)
          /\ 0 <= rem /\ sumZ (srcSizes tr0) + rem = length
          /\ (ex0 = ExitCond -> rem = 0)
          /\ (allGranted h ->
              ex0 = ExitCond
              /\ srcSizes tr0 = chunk :: specChunks fuel chunkSize (length - chunk)
              /\ dstSizes tr0 = srcSizes tr0)).
      { intros ex es' tr Hex Htr Hno. exists ex, (length - chunk), es', tr.
        rewrite Htr. split; [reflexivity|]. split; [eexists; reflexivity|].
        split; [lia|]. split; [simpl; lia|]. split; [congruence|].
        intros G. destruct (Hno G). }
      destruct (srcNextPart h i chunk) as [err|] eqn:Esrc.
      { destruct (Is_EOF err); apply Hstop; try discriminate; try reflexivity;
          intros G; destruct (G i chunk) as (G1 & _); congruence. }
      destruct (dstNextPart h i chunk) as [err|] eqn:Edst.
      { apply Hstop; try discriminate; try reflexivity;
          intros G; destruct (G i chunk) as (_ & G2 & _); congruence. }
      destruct (limiterGo h i) eqn:Ego.
      2:{ apply Hstop; try discriminate; try reflexivity;
          intros G; destruct (G i chunk) as (_ & _ & G3); congruence. }
      clear Hstop.
      destruct (worker h bar i) as [werr wtr] eqn:Ew.
      pose proof (worker_sizes h bar i) as [Hws Hwd]. rewrite Ew in Hws, Hwd.
      simpl in Hws, Hwd.
      destruct (IH (S i) (length - chunk) (errs.Add es werr))
        as (ex & rem & es' & tr & Hrun & [rest Hrest] & Hrem & Hsum & Hex & Hall);
        [lia | lia |].
      rewrite Hrun. eexists _, _, _, _. split; [reflexivity|].
      rewrite !srcSizes_app, !dstSizes_app, Hws, Hwd.
      change (srcSizes [HSrcNextPart i chunk; HDstNextPart i chunk]) with [chunk].
      change (dstSizes [HSrcNextPart i chunk; HDstNextPart i chunk]) with [chunk].
      cbn [app sumZ fold_right].
      split; [exists rest; now rewrite Hrest|].
      split; [assumption|]. split; [unfold sumZ in Hsum; lia|].
      split; [assumption|].
      intros G. destruct (Hall G) as (H0 & H1 & H2).
      split; [assumption|]. rewrite H2, H1. split; reflexivity.
Qed.



(** ** Release of the parts *)

Lemma countb_app f a b : countb f (a ++ b) = (countb f a + countb f b)%nat.
Proof. unfold countb. now rewrite filter_app, length_app. Qed.

Lemma countb_cons f x l :
  countb f (x :: l) = ((if f x then 1 else 0) + countb f l)%nat.
Proof. unfold countb. cbn [filter]. destruct (f x); reflexivity. Qed.

(** The counts do not depend on the order in which the calls of concurrent
    workers reach the trace. *)
Lemma countb_Permutation f a b : Permutation a b -> countb f a = countb f b.
Proof.
  induction 1 as [|x a b _ IH|x y a|a b c _ IH1 _ IH2].
  - reflexivity.
  - now rewrite !countb_cons, IH.
  - rewrite !countb_cons. lia.
  - now rewrite IH1.
Qed.

Lemma worker_counts h bar i j :
  closes j (snd (worker h bar i)) = (if Nat.eqb j i then 1 else 0)%nat
  /\ aborts j (snd (worker h bar i)) = (if Nat.eqb j i then 1 else 0)%nat
  /\ (commits j (snd (worker h bar i)) <= if Nat.eqb j i then 1 else 0)%nat
  /\ srcAcquired h j (snd (worker h bar i)) = 0%nat
  /\ dstAcquired h j (snd (worker h bar i)) = 0%nat.
Proof.
  unfold worker, closes, aborts, commits, srcAcquired, dstAcquired, countb.
  destruct (ioCopy h i), bar; cbn; destruct (Nat.eqb j i); cbn;
    repeat split; lia.
Qed.

(** When no submission is refused, every part acquired from the source is
    closed exactly once, and every part acquired from the destination is
    aborted exactly once and committed at most once. *)
Lemma parallelCopyLoop_accepted_releases h bar chunkSize :
  (forall i, limiterGo h i = true) ->
  forall fuel i length es ex rem es' tr,
    parallelCopyLoop fuel h bar chunkSize i length es = Some (ex, rem, es', tr) ->
    forall j,
      closes j tr = srcAcquired h j tr
      /\ aborts j tr = dstAcquired h j tr
      /\ (commits j tr <= dstAcquired h j tr)%nat.
Proof.
  intros Hgo. induction fuel as [|fuel IH]; intros i length es ex rem es' tr H j;
    cbn [parallelCopyLoop] in H; destruct (length =? 0).
  1,3: injection H as _ _ _ <-; repeat split; auto.
  - discriminate.
  - set (chunk := nextChunk chunkSize length) in *.
    destruct (srcNextPart h i chunk) as [err|] eqn:Esrc.
    { destruct (Is_EOF err); injection H as _ _ _ <-;
        unfold closes, aborts, commits, srcAcquired, dstAcquired, countb;
        cbn; rewrite Esrc, andb_false_r; cbn; repeat split; lia. }
    destruct (dstNextPart h i chunk) as [err|] eqn:Edst.
    { injection H as _ _ _ <-.
      unfold closes, aborts, commits, srcAcquired, dstAcquired, countb.
      cbn. rewrite Esrc, Edst, andb_false_r, andb_true_r.
      destruct (Nat.eqb j i); cbn; repeat split; lia. }
    rewrite Hgo in H.
    pose proof (worker_counts h bar i j) as (W1 & W2 & W3 & W4 & W5).
    destruct (worker h bar i) as [werr wtr]. cbn [snd] in *.
    destruct (parallelCopyLoop fuel h bar chunkSize (S i) _ _)
      as [[[[ex0 rem0] es0] tr0]|] eqn:Hrest; [|discriminate].
    injection H as _ _ _ <-.
    destruct (IH _ _ _ _ _ _ _ Hrest j) as (I1 & I2 & I3).
    unfold closes, aborts, commits, srcAcquired, dstAcquired in *.
    cbn [app]. rewrite !countb_cons, !countb_app. cbv beta iota.
    rewrite W1, W2, W4, W5, I1, I2, Esrc, Edst. cbn [isNil].
    rewrite !andb_true_r. destruct (Nat.eqb j i); repeat split; lia.
Qed.

(** The exit that misses the release: a submission refused right after both
    parts were acquired ends the loop with neither part released. *)
Lemma parallelCopyLoop_refused_leaks h bar chunkSize fuel i length es :
  length <> 0 ->
  srcNextPart h i (nextChunk chunkSize length) = None ->
  dstNextPart h i (nextChunk chunkSize length) = None ->
  limiterGo h i = false ->
  exists rem tr,
    parallelCopyLoop (S fuel) h bar chunkSize i length es
    = Some (ExitBreak, rem, es, tr)
    /\ srcAcquired h i tr = 1%nat /\ dstAcquired h i tr = 1%nat
    /\ closes i tr = 0%nat /\ settles i tr = 0%nat.
Proof.
  intros Hl Hsrc Hdst Hgo. cbn [parallelCopyLoop].
  destruct (Z.eqb_spec length 0); [contradiction|].
  rewrite Hsrc, Hdst, Hgo. eexists _, _. split; [reflexivity|].
  unfold srcAcquired, dstAcquired, closes, settles, commits, aborts, countb.
  cbn. rewrite Hsrc, Hdst, Nat.eqb_refl. repeat split.
Qed.

(** C2, at the failing input.  The first pair of parts is acquired and the
    limiter then refuses the submission: [parallelCopy] leaves the loop,
    commits and returns, and part 0 is never closed, committed or aborted. *)
Theorem parallelCopy_refused_submission_leaks :
  parallelCopy 1 cancelledAtSubmit 4 5 0 10 false
  = Some (Some (External "context canceled"),
          [HSrcNextPart 0 5; HDstNextPart 0 5;
           HDstCommit; HCancel; HDstAbort; HSrcClose])
  /\ srcNextPart cancelledAtSubmit 0 5 = None
  /\ dstNextPart cancelledAtSubmit 0 5 = None
  /\ closes 0 [HSrcNextPart 0 5; HDstNextPart 0 5;
               HDstCommit; HCancel; HDstAbort; HSrcClose] = 0%nat
  /\ settles 0 [HSrcNextPart 0 5; HDstNextPart 0 5;
                HDstCommit; HCancel; HDstAbort; HSrcClose] = 0%nat.
Proof. repeat split. Qed.

(** ** The chunk size is not checked by the engine *)

Lemma nextChunk_nonpositive chunkSize length :
  chunkSize <= 0 -> length <> 0 -> nextChunk chunkSize length = chunkSize.
Proof.
  intros Hc Hl. unfold nextChunk.
  destruct (Z.gtb_spec length 0); cbn [andb]; [|reflexivity].
  destruct (Z.gtb_spec chunkSize length); [lia | reflexivity].
Qed.

(** With a chunk size of zero and every part granted, the loop never ends:
    whatever the fuel, it is still running. *)
Lemma parallelCopyLoop_zero_chunk_runs_on h bar length :
  allGranted h -> length <> 0 -> Int64.in_range length ->
  forall fuel i es, parallelCopyLoop fuel h bar 0 i length es = None.
Proof.
  intros G Hl Hr. induction fuel as [|fuel IH]; intros i es.
  - simpl. destruct (Z.eqb_spec length 0); [contradiction | reflexivity].
  - cbn [parallelCopyLoop]. destruct (Z.eqb_spec length 0); [contradiction|].
    rewrite nextChunk_nonpositive by (auto; lia).
    destruct (G i 0) as (G1 & G2 & G3). rewrite G1, G2, G3.
    unfold Int64.sub. rewrite Z.sub_0_r, (Int64_wrap_in_range _ Hr).
    destruct (worker h bar i). now rewrite IH.
Qed.

(** When the loop has ended within the fuel, the calls it has made by then
    are its calls. *)
Lemma parallelCopyLoopCalls_complete h bar chunkSize :
  forall fuel i length es ex rem es' tr,
    parallelCopyLoop fuel h bar chunkSize i length es = Some (ex, rem, es', tr) ->
    parallelCopyLoopCalls fuel h bar chunkSize i length = tr.
Proof.
  induction fuel as [|fuel IH]; intros i length es ex rem es' tr H;
    cbn [parallelCopyLoop] in H; cbn [parallelCopyLoopCalls];
    destruct (length =? 0).
  1,3: now injection H as _ _ _ <-.
  - discriminate.
  - set (chunk := nextChunk chunkSize length) in *.
    destruct (srcNextPart h i chunk) as [err|].
    { destruct (Is_EOF err); now injection H as _ _ _ <-. }
    destruct (dstNextPart h i chunk) as [err|].
    { now injection H as _ _ _ <-. }
    destruct (limiterGo h i); [|now injection H as _ _ _ <-].
    destruct (worker h bar i) as [werr wtr]. cbn [snd].
    destruct (parallelCopyLoop fuel h bar chunkSize (S i) _ _)
      as [[[[ex0 rem0] es0] tr0]|] eqn:Hrest; [|discriminate].
    injection H as _ _ _ <-. now rewrite (IH _ _ _ _ _ _ _ Hrest).
Qed.

(** With a chunk size that is not positive, every part that the loop asks
    for has that size. *)
Lemma parallelCopyLoopCalls_nonpositive_sizes h bar chunkSize :
  chunkSize <= 0 ->
  forall fuel i length,
    Forall (eq chunkSize)
           (srcSizes (parallelCopyLoopCalls fuel h bar chunkSize i length))
    /\ Forall (eq chunkSize)
              (dstSizes (parallelCopyLoopCalls fuel h bar chunkSize i length)).
Proof.
  intros Hc. induction fuel as [|fuel IH]; intros i length;
    cbn [parallelCopyLoopCalls]; destruct (Z.eqb_spec length 0) as [E|E];
    try (split; constructor).
  rewrite nextChunk_nonpositive by assumption.
  destruct (srcNextPart h i chunkSize) as [err|].
  { destruct (Is_EOF err); cbn; split; repeat constructor. }
  destruct (dstNextPart h i chunkSize) as [err|].
  { cbn; split; repeat constructor. }
  destruct (limiterGo h i); [|cbn; split; repeat constructor].
  destruct (IH (S i) (Int64.sub length chunkSize)) as (I1 & I2).
  destruct (worker_sizes h bar i) as (W1 & W2).
  rewrite !srcSizes_app, !dstSizes_app, W1, W2. cbn.
  split; constructor; auto.
Qed.

(** With a chunk size of zero and every part granted, each iteration asks
    the source and the destination for one part of size zero. *)
Lemma parallelCopyLoopCalls_zero_chunk h bar length :
  allGranted h -> length <> 0 -> Int64.in_range length ->
  forall fuel i,
    srcSizes (parallelCopyLoopCalls fuel h bar 0 i length) = repeat 0 fuel
    /\ dstSizes (parallelCopyLoopCalls fuel h bar 0 i length) = repeat 0 fuel.
Proof.
  intros G Hl Hr. induction fuel as [|fuel IH]; intros i;
    cbn [parallelCopyLoopCalls]; destruct (Z.eqb_spec length 0);
    try contradiction; [split; reflexivity|].
  rewrite nextChunk_nonpositive by (auto; lia).
  destruct (G i 0) as (G1 & G2 & G3). rewrite G1, G2, G3.
  unfold Int64.sub. rewrite Z.sub_0_r, (Int64_wrap_in_range _ Hr).
  destruct (IH (S i)) as (I1 & I2).
  destruct (worker_sizes h bar i) as (W1 & W2).
  rewrite !srcSizes_app, !dstSizes_app, W1, W2, I1, I2. split; reflexivity.
Qed.

(** [parallelCopy] once the seek is behind it. *)
Lemma parallelCopy_after_seek fuel h p chunkSize offset length bar :
  offset = 0 \/ SetOffset h offset = None ->
  parallelCopy fuel h p chunkSize offset length bar
  = match parallelCopyLoop fuel h bar chunkSize 0 length [] with
    | None => None
    | Some (ExitReturn err, _, _, tr) =>
        Some (Some err, seekCalls offset ++ tr ++ parallelCopyDeferred)%list
    | Some (_, _, es, tr) =>
        Some (errs.Err (errs.Add es (dstCommit h)),
              seekCalls offset ++ tr ++ [HDstCommit] ++ parallelCopyDeferred)%list
    end.
Proof.
  intros Hseek. unfold parallelCopy, seekCalls.
  destruct (Z.eqb_spec offset 0); cbn [negb]; [reflexivity|].
  destruct Hseek as [? | ->]; [contradiction | reflexivity].
Qed.

Lemma parallelCopyCalls_after_seek fuel h p chunkSize offset length bar :
  offset = 0 \/ SetOffset h offset = None ->
  exists last,
    parallelCopyCalls fuel h p chunkSize offset length bar
    = (seekCalls offset
         ++ parallelCopyLoopCalls fuel h bar chunkSize 0 length ++ last)%list.
Proof.
  intros Hseek. unfold parallelCopyCalls.
  rewrite (parallelCopy_after_seek _ _ _ _ _ _ _ Hseek).
  destruct (parallelCopyLoop fuel h bar chunkSize 0 length [])
    as [[[[ex rem] es] tr]|] eqn:E.
  - rewrite (parallelCopyLoopCalls_complete _ _ _ _ _ _ _ _ _ _ _ E).
    destruct ex; eexists; reflexivity.
  - exists []. rewrite app_nil_r. unfold seekCalls.
    destruct (offset =? 0); reflexivity.
Qed.

(** C6, as the code has it.  A chunk size below 1 MB, so every chunk size
    [<= 0], is rejected when the flag is read, and a size that passes is at
    least 1 MB.  [parallelCopy] itself has no such test.  With
    [chunkSize <= 0] and an [int64] length that is not zero: when the seek
    fails it returns the error of the seek and asks for nothing; otherwise
    its first call after the seek asks the source for a part of size
    [chunkSize], and every part it asks for, of the source or of the
    destination, has that size; if the source is at its end at that first
    request, it commits and returns what the final commit returns; and with
    [chunkSize = 0] and every part granted it does not end: after [fuel]
    iterations it has asked the source for [fuel] parts of size zero, the
    destination for as many, and is still running. *)
Theorem chunkSize_checked_by_Setup_only (MB : Z) (h : HandleEnv) (p : Z)
    (chunkSize offset length : Z) (bar : bool) (fuel : nat)
    (HMB : 0 < MB)
    (Hchunk : chunkSize <= 0)
    (Hlength : length <> 0) (Hrange : Int64.in_range length) :
  chunkSizeTransform MB chunkSize
  = (0, Some (errs.New "file chunk size must be at least 1 MB" []))
  /\ (forall n, snd (chunkSizeTransform MB n) = None ->
               chunkSizeTransform MB n = (n, None) /\ 1 <= MB <= n)
  /\ (forall err,
        offset <> 0 -> SetOffset h offset = Some err ->
        parallelCopy fuel h p chunkSize offset length bar
        = Some (Some err, [HSetOffset offset]))
  /\ (offset = 0 \/ SetOffset h offset = None ->
      (exists rest,
          parallelCopyCalls (S fuel) h p chunkSize offset length bar
          = (seekCalls offset ++ HSrcNextPart 0 chunkSize :: rest)%list)
      /\ Forall (eq chunkSize)
           (srcSizes (parallelCopyCalls fuel h p chunkSize offset length bar))
      /\ Forall (eq chunkSize)
           (dstSizes (parallelCopyCalls fuel h p chunkSize offset length bar))
      /\ (forall err,
            srcNextPart h 0 chunkSize = Some err -> Is_EOF err = true ->
            parallelCopy (S fuel) h p chunkSize offset length bar
            = Some (errs.Err (errs.Add [] (dstCommit h)),
                    seekCalls offset
                      ++ [HSrcNextPart 0 chunkSize; HDstCommit;
                          HCancel; HDstAbort; HSrcClose])%list)
      /\ (chunkSize = 0 -> allGranted h ->
          parallelCopy fuel h p chunkSize offset length bar = None
          /\ srcSizes (parallelCopyCalls fuel h p chunkSize offset length bar)
             = repeat 0 fuel
          /\ dstSizes (parallelCopyCalls fuel h p chunkSize offset length bar)
             = repeat 0 fuel)).
Proof.
  assert (Hseeksizes : srcSizes (seekCalls offset) = []
                       /\ dstSizes (seekCalls offset) = [])
    by (unfold seekCalls; destruct (offset =? 0); split; reflexivity).
  destruct Hseeksizes as (Hss & Hsd).
  split; [|split; [|split]].
  - unfold chunkSizeTransform.
    destruct (Z.ltb_spec chunkSize (1 * MB)); [reflexivity | lia].
  - intros n. unfold chunkSizeTransform.
    destruct (Z.ltb_spec n (1 * MB)); simpl; [discriminate|].
    intros _. split; [reflexivity | lia].
  - intros err Hoff Hseek. unfold parallelCopy.
    destruct (Z.eqb_spec offset 0); [contradiction|]. cbn [negb].
    now rewrite Hseek.
  - intros Hseek. split; [|split; [|split; [|split]]].
    + destruct (parallelCopyCalls_after_seek (S fuel) h p chunkSize offset
                  length bar Hseek) as (last & ->).
      cbn [parallelCopyLoopCalls].
      destruct (Z.eqb_spec length 0); [contradiction|].
      rewrite nextChunk_nonpositive by assumption.
      destruct (srcNextPart h 0 chunkSize) as [err|].
      { destruct (Is_EOF err); eexists; reflexivity. }
      destruct (dstNextPart h 0 chunkSize) as [err|]; [eexists; reflexivity|].
      destruct (limiterGo h 0); eexists; reflexivity.
    + destruct (parallelCopyCalls_after_seek fuel h p chunkSize offset
                  length bar Hseek) as (last & E).
      pose proof (parallelCopy_after_seek fuel h p chunkSize offset length bar
                    Hseek) as Hrun.
      unfold parallelCopyCalls in *. rewrite Hrun in *. clear Hrun.
      destruct (parallelCopyLoopCalls_nonpositive_sizes h bar chunkSize Hchunk
                  fuel 0%nat length) as (F1 & _).
      destruct (parallelCopyLoop fuel h bar chunkSize 0 length [])
        as [[[[ex rem] es] tr]|] eqn:El.
      * rewrite (parallelCopyLoopCalls_complete _ _ _ _ _ _ _ _ _ _ _ El) in F1.
        destruct ex; rewrite !srcSizes_app, Hss; cbn; now rewrite app_nil_r.
      * rewrite srcSizes_app.
        replace (srcSizes (if negb (offset =? 0) then [HSetOffset offset] else []))
          with (@nil Z) by (destruct (offset =? 0); reflexivity).
        exact F1.
    + pose proof (parallelCopy_after_seek fuel h p chunkSize offset length bar
                    Hseek) as Hrun.
      unfold parallelCopyCalls. rewrite Hrun. clear Hrun.
      destruct (parallelCopyLoopCalls_nonpositive_sizes h bar chunkSize Hchunk
                  fuel 0%nat length) as (_ & F2).
      destruct (parallelCopyLoop fuel h bar chunkSize 0 length [])
        as [[[[ex rem] es] tr]|] eqn:El.
      * rewrite (parallelCopyLoopCalls_complete _ _ _ _ _ _ _ _ _ _ _ El) in F2.
        destruct ex; rewrite !dstSizes_app, Hsd; cbn; now rewrite app_nil_r.
      * rewrite dstSizes_app.
        replace (dstSizes (if negb (offset =? 0) then [HSetOffset offset] else []))
          with (@nil Z) by (destruct (offset =? 0); reflexivity).
        exact F2.
    + intros err Hsrc Heof.
      rewrite (parallelCopy_after_seek _ _ _ _ _ _ _ Hseek).
      cbn [parallelCopyLoop].
      destruct (Z.eqb_spec length 0); [contradiction|].
      rewrite nextChunk_nonpositive by assumption.
      rewrite Hsrc, Heof. reflexivity.
    + intros -> G.
      pose proof (parallelCopy_after_seek fuel h p 0 offset length bar Hseek)
        as Hrun.
      rewrite (parallelCopyLoop_zero_chunk_runs_on h bar length G Hlength Hrange)
        in Hrun.
      split; [exact Hrun|].
      unfold parallelCopyCalls. rewrite Hrun.
      destruct (parallelCopyLoopCalls_zero_chunk h bar length G Hlength Hrange
                  fuel 0%nat) as (Z1 & Z2).
      rewrite srcSizes_app, dstSizes_app, Z1, Z2.
      destruct (offset =? 0); split; reflexivity.
Qed.

Lemma chunkSize_checked_by_Setup_only_witness :
  chunkSizeTransform 1000000 0
  = (0, Some (errs.New "file chunk size must be at least 1 MB" []))
  /\ parallelCopy 1 emptySource 4 0 0 (-1) false
     = Some (None, [HSrcNextPart 0 0; HDstCommit; HCancel; HDstAbort; HSrcClose])
  /\ parallelCopy 3 grantAll 4 0 0 (-1) false = None
  /\ srcSizes (parallelCopyCalls 3 grantAll 4 0 0 (-1) false) = [0; 0; 0].
Proof.
  assert (HMB : 0 < 1000000) by lia.
  assert (Hchunk : 0 <= 0) by lia.
  assert (Hlength : -1 <> 0) by lia.
  assert (Hrange : Int64.in_range (-1))
    by (unfold Int64.in_range, Int64.min_int, Int64.max_int; lia).
  assert (Hseek : 0 = 0 \/ SetOffset emptySource 0 = None) by (left; reflexivity).
  assert (Hseek' : 0 = 0 \/ SetOffset grantAll 0 = None) by (left; reflexivity).
  assert (G : allGranted grantAll) by (intros i size; repeat split).
  destruct (chunkSize_checked_by_Setup_only 1000000 emptySource 4 0 0 (-1) false 0
              HMB Hchunk Hlength Hrange) as (H1 & _ & _ & H4).
  destruct (H4 Hseek) as (_ & _ & _ & H5 & _).
  destruct (chunkSize_checked_by_Setup_only 1000000 grantAll 4 0 0 (-1) false 3
              HMB Hchunk Hlength Hrange) as (_ & _ & _ & H6).
  destruct (H6 Hseek') as (_ & _ & _ & _ & H7).
  destruct (H7 eq_refl G) as (H8 & H9 & _).
  split; [exact H1|]. split; [exact (H5 EOF eq_refl eq_refl)|].
  split; [exact H8 | exact H9].
Defined.

(** C6 as stated fails: with [chunkSize = 0], an unbounded length and a
    source at its end, [parallelCopy] asks for a part of size 0 and returns
    no error. *)
Lemma parallelCopy_accepts_zero_chunkSize :
  parallelCopy 1 emptySource 4 0 0 (-1) false
  = Some (None, [HSrcNextPart 0 0; HDstCommit; HCancel; HDstAbort; HSrcClose]).
Proof. reflexivity. Qed.

(** ** The per-file copy and the command *)

Section CpFacts.

Context {Location : Type} {U : Ulloc Location}.

Implicit Types (c : @cmdCp Location) (fs : @FsEnv Location).

(** C9.  In dry-run mode [copyFile] returns nil at once and makes no call:
    nothing is opened, created or written, and no part is requested. *)
Theorem copyFile_dryrun fuel c fs (src dst : Location) (progress : bool) :
  dryrun c = true ->
  copyFile fuel c fs src dst progress = Some (None, []).
Proof. intros H. unfold copyFile. now rewrite H. Qed.

(** C10.  When [parseRange] rejects the byte range with error [e], the
    dry-run [copyFile] still returns nil, while the same call without
    dry-run fails with [e], an [InvalidRange] error, before any call. *)
Theorem copyFile_dryrun_skips_parseRange fuel c fs (src dst : Location)
    (progress : bool) (offset length : Z) (e : error) :
  parseRange (byteRange c) = (offset, length, Some e) ->
  copyFile fuel (set_dryrun c true) fs src dst progress = Some (None, [])
  /\ copyFile fuel (set_dryrun c false) fs src dst progress = Some (Some e, [])
  /\ InvalidRange e = true.
Proof.
  intros H. destruct (parseRange_error_InvalidRange _ _ _ _ H) as (Hinv & _).
  split; [reflexivity|]. split; [|assumption].
  unfold copyFile. cbn [set_dryrun dryrun byteRange]. rewrite H.
  destruct e as [| | | | |e'|]; try discriminate Hinv. reflexivity.
Qed.

(** [Execute] changes the locations only. *)
Lemma set_source_fields c l :
  recursive (set_source c l) = recursive c
  /\ byteRange (set_source c l) = byteRange c
  /\ dest (set_source c l) = dest c /\ source (set_source c l) = l.
Proof. repeat split. Qed.

Lemma set_dest_fields c l :
  recursive (set_dest c l) = recursive c
  /\ byteRange (set_dest c l) = byteRange c
  /\ source (set_dest c l) = source c /\ dest (set_dest c l) = l.
Proof. repeat split. Qed.

Lemma copyRecursive_std fuel c fs :
  Std (source c) || Std (dest c) = true ->
  copyRecursive fuel c fs
  = Some (Some (errs.New "cannot recursively copy to stdin/stdout" []), []).
Proof. intros H. unfold copyRecursive. now rewrite H. Qed.

(** The recursive branch of [Execute], once the filesystem is open. *)
Lemma Execute_recursive fuel c fs :
  OpenFilesystem fs = None -> recursive c = true ->
  let src' :=
    if IsLocalDir fs (source c) then AsDirectoryish (source c) else source c in
  let c2 := set_dest (set_source c src') (AsDirectoryish (dest c)) in
  Execute fuel c fs
  = withFsClose
      (match
          (if negb (String.eqb (byteRange c) "") then
             Some (Some (errs.New "unable to do recursive copy with byte range" []),
                   [])
           else copyRecursive fuel c2 fs)
        with
        | None => None
        | Some (e, tr) =>
            Some (e, [EvOpenFilesystem; EvIsLocalDir (source c)] ++ tr)%list
        end).
Proof.
  intros Hopen Hrec. unfold Execute. rewrite Hopen.
  destruct (IsLocalDir fs (source c)); cbn zeta;
    rewrite ?(proj1 (set_source_fields _ _)), Hrec;
    cbn [set_dest set_source recursive byteRange dest source app];
    rewrite ?Hrec; reflexivity.
Qed.

(** C7.  A recursive copy with a byte range fails before anything is
    listed or copied, and so does a recursive copy from or to a standard
    stream: [copyRecursive] refuses it as its first step, and [Execute]
    reaches that step with the locations it was given when making a
    location directory-ish keeps a standard stream what it is. *)
Theorem recursive_copy_rejections fuel c fs :
  recursive c = true ->
  (byteRange c <> "" ->
     exists e tr, Execute fuel c fs = Some (Some e, tr) /\ noTransfer tr = true)
  /\ (Std (source c) || Std (dest c) = true ->
        copyRecursive fuel c fs
        = Some (Some (errs.New "cannot recursively copy to stdin/stdout" []), [])
        /\ ((forall l, Std (AsDirectoryish l) = Std l) ->
            exists e tr,
              Execute fuel c fs = Some (Some e, tr) /\ noTransfer tr = true)).
Proof.
  intros Hrec. split.
  - intros Hrange. destruct (OpenFilesystem fs) as [err|] eqn:Hopen.
    + exists err, [EvOpenFilesystem]. unfold Execute. rewrite Hopen. now split.
    + rewrite (Execute_recursive fuel c fs Hopen Hrec). cbn zeta.
      destruct (String.eqb_spec (byteRange c) ""); [contradiction|].
      cbn [negb withFsClose app]. eexists _, _. split; reflexivity.
  - intros Hstd. split; [now apply copyRecursive_std|]. intros Hlaw.
    destruct (OpenFilesystem fs) as [err|] eqn:Hopen.
    + exists err, [EvOpenFilesystem]. unfold Execute. rewrite Hopen. now split.
    + rewrite (Execute_recursive fuel c fs Hopen Hrec). cbn zeta.
      destruct (negb (String.eqb (byteRange c) "")).
      * cbn [withFsClose app]. eexists _, _. split; reflexivity.
      * rewrite copyRecursive_std.
        -- cbn [withFsClose app]. eexists _, _. split; reflexivity.
        -- cbn [set_dest set_source source dest]. rewrite Hlaw.
           destruct (IsLocalDir fs (source c)); rewrite ?Hlaw; assumption.
Qed.

(** The loop of [copyRecursive] only adds to the error set, and each
    error it adds has been printed on standard error. *)
Lemma copyRecursiveLoop_reports fuel c fs :
  forall items k es ret es' tr,
    copyRecursiveLoop fuel c fs k items es = Some (ret, es', tr) ->
    exists added,
      es' = (es ++ added)%list
      /\ forall e, In e added -> exists verb, In (EvStderr verb e) tr.
Proof.
  induction items as [|item items IH]; intros k es ret es' tr H.
  - injection H as _ <- _. exists []. rewrite app_nil_r. now split.
  - cbn [copyRecursiveLoop] in H.
    destruct (RelativeTo (source c) item) as [rel [err|]].
    { injection H as _ <- _. exists []. rewrite app_nil_r. now split. }
    destruct (fileGo fs k).
    2:{ injection H as _ <- _. exists []. rewrite app_nil_r. now split. }
    destruct (copyFile fuel c fs item _ false) as [[r ftr]|]; [|discriminate].
    destruct (copyRecursiveLoop fuel c fs (S k) items (errs.Add es r))
      as [[[ret0 es0] tr0]|] eqn:Hrest; [|discriminate].
    injection H as _ <- <-.
    destruct (IH _ _ _ _ _ Hrest) as (added & -> & Hrep).
    destruct r as [e0|]; cbn [errs.Add].
    + exists (e0 :: added). split; [now rewrite <- app_assoc|].
      intros e [<-|Hin].
      * eexists. right. apply in_or_app. right.
        apply in_or_app. left. now left.
      * destruct (Hrep e Hin) as [verb Hv]. exists verb. right.
        apply in_or_app. right. apply in_or_app. now right.
    + exists added. split; [reflexivity|].
      intros e Hin. destruct (Hrep e Hin) as [verb Hv]. exists verb. right.
      apply in_or_app. right. apply in_or_app. now right.
Qed.

Lemma Err_carries (es : errs.Group) e :
  In e es -> exists r, errs.Err es = Some r /\ carries r e.
Proof.
  intros Hin. destruct es as [|e1 [|e2 es]].
  - destruct Hin.
  - destruct Hin as [<-|[]]. exists e1. split; [reflexivity | constructor].
  - eexists. split; [reflexivity|]. eapply carries_group; [exact Hin | constructor].
Qed.

(** C1, as the code has it.  Once the file tasks are done, a listing that
    ended with error [e] makes [copyRecursive] return [errs.Wrap(e)] and
    nothing else, whatever per-file errors were collected; the collected
    errors are returned, combined, only when the listing ended without
    error.  Each collected error has been printed on standard error. *)
Theorem copyRecursive_result fuel c fs (es : errs.Group)
    (tr : list (@event Location)) :
  Std (source c) || Std (dest c) = false ->
  fsListErr fs (source c) = None ->
  copyRecursiveLoop fuel c fs 0 (fsListItems fs (source c)) [] = Some (None, es, tr) ->
  (forall e, fsIterErr fs (source c) = Some e ->
     copyRecursive fuel c fs
     = Some (errs.Wrap (Some e), EvList (source c) :: tr))
  /\ (fsIterErr fs (source c) = None ->
      copyRecursive fuel c fs = Some (errs.Err es, EvList (source c) :: tr)
      /\ forall e', In e' es ->
           exists r, errs.Err es = Some r /\ carries r e')
  /\ (forall e', In e' es -> exists verb, In (EvStderr verb e') tr).
Proof.
  intros Hstd Hlist Hloop. split; [|split].
  - intros e He. unfold copyRecursive, copyRecursiveResult.
    now rewrite Hstd, Hlist, Hloop, He.
  - intros He. split; [|apply Err_carries].
    unfold copyRecursive, copyRecursiveResult.
    rewrite Hstd, Hlist, Hloop, He. destruct es; reflexivity.
  - destruct (copyRecursiveLoop_reports _ _ _ _ _ _ _ _ _ Hloop)
      as (added & -> & Hrep). exact Hrep.
Qed.

(** [joinDestWith], whatever the locations are: the suffix is appended,
    and the result is made non-directory-ish when it is local and
    directory-ish. *)
Lemma joinDestWith_cases (dst : Location) (suffix : string) :
  (Local (AppendKey dst suffix) && Directoryish (AppendKey dst suffix) = true
   /\ joinDestWith dst suffix = Undirectoryish (AppendKey dst suffix))
  \/ (Local (AppendKey dst suffix) && Directoryish (AppendKey dst suffix) = false
      /\ joinDestWith dst suffix = AppendKey dst suffix).
Proof.
  unfold joinDestWith.
  destruct (Local (AppendKey dst suffix) && Directoryish (AppendKey dst suffix));
    auto.
Qed.

Lemma joinDestWith_local_not_directoryish (dst : Location) (suffix : string) :
  (forall l, Local (Undirectoryish l) = Local l) ->
  (forall l, Directoryish (Undirectoryish l) = false) ->
  Local (joinDestWith dst suffix) = true ->
  Directoryish (joinDestWith dst suffix) = false.
Proof.
  intros HL HD. destruct (joinDestWith_cases dst suffix) as [[_ ->]|[Hc ->]].
  - intros _. apply HD.
  - intros H. rewrite H in Hc. exact Hc.
Qed.

End CpFacts.

(** ** The model of locations *)

Module UllocFacts.

Import UllocModel.

Lemma endsWithSep_stripSeps s : endsWithSep (stripSeps s) = false.
Proof.
  induction s as [|c s IH]; [reflexivity|]. cbn [stripSeps].
  destruct (String.eqb_spec (stripSeps s) "") as [E|E]; cbn [andb].
  - destruct (isSep c) eqn:Hc; [reflexivity|]. rewrite E. simpl. exact Hc.
  - destruct (stripSeps s) as [|c' t]; [congruence|]. exact IH.
Qed.

Lemma stripSeps_id s : endsWithSep s = false -> stripSeps s = s.
Proof.
  induction s as [|c s IH]; [reflexivity|]. intros H. cbn [stripSeps].
  destruct s as [|c' s'].
  - simpl in *. now rewrite H.
  - rewrite IH by exact H.
    destruct (String.eqb_spec (String c' s') ""); [discriminate | reflexivity].
Qed.

Lemma stripSeps_append p s :
  stripSeps s <> "" -> stripSeps (p ++ s) = p ++ stripSeps s.
Proof.
  intros Hs. induction p as [|c p IH]; [reflexivity|].
  cbn [append stripSeps]. rewrite IH.
  destruct (String.eqb_spec (p ++ stripSeps s) "") as [E|E]; [|reflexivity].
  destruct p; simpl in E; congruence.
Qed.

Lemma stripSeps_trailing s : stripSeps (s ++ "/") = stripSeps s.
Proof.
  induction s as [|c s IH]; [reflexivity|].
  cbn [append stripSeps]. now rewrite IH.
Qed.

Lemma endsWithSep_append p s : s <> "" -> endsWithSep (p ++ s) = endsWithSep s.
Proof.
  intros Hs. induction p as [|c p IH]; [reflexivity|].
  cbn [append endsWithSep]. rewrite IH.
  destruct (p ++ s) eqn:E; [|reflexivity].
  destruct p; simpl in E; congruence.
Qed.

Lemma Undirectoryish_Local (l : Location) : Local (Undirectoryish l) = Local l.
Proof. destruct l; reflexivity. Qed.

Lemma Undirectoryish_not_Directoryish (l : Location) :
  Directoryish (Undirectoryish l) = false.
Proof. destruct l; simpl; auto using endsWithSep_stripSeps. Qed.

End UllocFacts.

(** C8.  [joinDestWith] appends the suffix to the destination and, when the
    result is local and directory-ish, strips its trailing separators;
    otherwise the result of appending is returned as it is.  So a local
    result is never directory-ish, and an object [name/] copied into the
    local directory [p] gets the local path [p ++ name]. *)
Theorem joinDestWith_strips_trailing_separator
    (dst : UllocModel.Location) (suffix p name : string)
    (Hp : UllocModel.endsWithSep p = true)
    (Hname : name <> "") (Hbare : UllocModel.endsWithSep name = false) :
  ((Local (AppendKey dst suffix) && Directoryish (AppendKey dst suffix) = true
    /\ joinDestWith dst suffix = Undirectoryish (AppendKey dst suffix))
   \/ (Local (AppendKey dst suffix) && Directoryish (AppendKey dst suffix) = false
       /\ joinDestWith dst suffix = AppendKey dst suffix))
  /\ (Local (joinDestWith dst suffix) = true ->
      Directoryish (joinDestWith dst suffix) = false)
  /\ AppendKey (UllocModel.LocalPath p) (name ++ "/")
     = UllocModel.LocalPath (p ++ name ++ "/")
  /\ joinDestWith (UllocModel.LocalPath p) (name ++ "/")
     = UllocModel.LocalPath (p ++ name)
  /\ joinDestWith (UllocModel.RemoteObject "b" p) (name ++ "/")
     = UllocModel.RemoteObject "b" (p ++ name ++ "/").
Proof.
  split; [apply joinDestWith_cases|].
  split; [apply joinDestWith_local_not_directoryish;
          auto using UllocFacts.Undirectoryish_Local,
            UllocFacts.Undirectoryish_not_Directoryish|].
  assert (Happ : UllocModel.appendSegment p (name ++ "/") = p ++ name ++ "/").
  { unfold UllocModel.appendSegment. rewrite eqb_empty_append, Hp, orb_true_r.
    reflexivity. }
  assert (Hne : name ++ "/" <> "") by (destruct name; discriminate).
  split; [|split].
  - cbn [AppendKey UllocModel.ulloc UllocModel.AppendKey]. now rewrite Happ.
  - unfold joinDestWith. cbn [AppendKey UllocModel.ulloc UllocModel.AppendKey].
    rewrite Happ.
    cbn [Local Directoryish Undirectoryish UllocModel.ulloc UllocModel.Local
         UllocModel.Directoryish UllocModel.Undirectoryish andb].
    rewrite (UllocFacts.endsWithSep_append p (name ++ "/") Hne).
    rewrite (UllocFacts.endsWithSep_append name "/") by discriminate.
    cbn [UllocModel.endsWithSep UllocModel.isSep].
    change (Ascii.eqb "/" "/") with true. cbv iota. f_equal.
    rewrite UllocFacts.stripSeps_append;
      rewrite UllocFacts.stripSeps_trailing, UllocFacts.stripSeps_id; auto.
  - unfold joinDestWith. cbn [AppendKey UllocModel.ulloc UllocModel.AppendKey].
    rewrite Happ. reflexivity.
Qed.

Lemma joinDestWith_strips_trailing_separator_witness :
  joinDestWith (UllocModel.LocalPath "d/") ("foo" ++ "/")
  = UllocModel.LocalPath ("d/" ++ "foo")
  /\ joinDestWith (UllocModel.RemoteObject "b" "d/") ("foo" ++ "/")
     = UllocModel.RemoteObject "b" ("d/" ++ "foo" ++ "/").
Proof.
  assert (Hp : UllocModel.endsWithSep "d/" = true) by reflexivity.
  assert (Hname : "foo" <> "") by discriminate.
  assert (Hbare : UllocModel.endsWithSep "foo" = false) by reflexivity.
  destruct (joinDestWith_strips_trailing_separator (UllocModel.LocalPath "d/")
              "foo/" "d/" "foo" Hp Hname Hbare) as (_ & _ & _ & H1 & H2).
  split; assumption.
Defined.

(** ** The claims at the examples *)

(** C1 as stated fails: the listing yields one object, whose copy fails, and
    then ends with an error.  The per-file error is in the error set, and
    the error returned is the wrapped listing error, which does not carry
    it. *)
Lemma copyRecursive_drops_file_errors :
  copyRecursiveLoop 1 downloadTree failingListing 0
    (fsListItems failingListing (source downloadTree)) []
  = Some (None, [External "open failed"],
          [EvStdout "download" (UllocModel.RemoteObject "b" "a/1")
                    (UllocModel.LocalPath "d/1");
           EvOpen (UllocModel.RemoteObject "b" "a/1");
           EvStderr "download" (External "open failed")])
  /\ copyRecursive 1 downloadTree failingListing
     = Some (Some (errorT (External "listing failed")),
             [EvList (UllocModel.RemoteObject "b" "a/");
              EvStdout "download" (UllocModel.RemoteObject "b" "a/1")
                       (UllocModel.LocalPath "d/1");
              EvOpen (UllocModel.RemoteObject "b" "a/1");
              EvStderr "download" (External "open failed")])
  /\ ~ carries (errorT (External "listing failed")) (External "open failed").
Proof.
  split; [reflexivity|]. split; [reflexivity|].
  intros H. inversion H as [| |r e Hr|]; subst. inversion Hr.
Qed.

Lemma copyRecursive_result_witness :
  copyRecursive 1 downloadTree failingListing
  = Some (errs.Wrap (Some (External "listing failed")),
          [EvList (UllocModel.RemoteObject "b" "a/");
           EvStdout "download" (UllocModel.RemoteObject "b" "a/1")
                    (UllocModel.LocalPath "d/1");
           EvOpen (UllocModel.RemoteObject "b" "a/1");
           EvStderr "download" (External "open failed")]).
Proof.
  assert (Hstd : Std (source downloadTree) || Std (dest downloadTree) = false)
    by reflexivity.
  assert (Hlist : fsListErr failingListing (source downloadTree) = None)
    by reflexivity.
  destruct (copyRecursive_result 1 downloadTree failingListing
              [External "open failed"] _ Hstd Hlist eq_refl) as (H & _ & _).
  exact (H (External "listing failed") eq_refl).
Defined.

Lemma recursive_copy_rejections_witness :
  (exists e tr,
      Execute 1 (set_byteRange downloadTree "bytes=0-9") failingListing
      = Some (Some e, tr) /\ noTransfer tr = true)
  /\ (exists e tr,
        Execute 1 (set_dest downloadTree UllocModel.StdStream) failingListing
        = Some (Some e, tr) /\ noTransfer tr = true).
Proof.
  split.
  - destruct (recursive_copy_rejections 1
                (set_byteRange downloadTree "bytes=0-9") failingListing
                eq_refl) as (H & _).
    apply H. simpl. discriminate.
  - destruct (recursive_copy_rejections 1
                (set_dest downloadTree UllocModel.StdStream) failingListing
                eq_refl) as (_ & H).
    destruct (H eq_refl) as (_ & H').
    apply H'. intros l. destruct l as [path|bucket key|]; simpl.
    + destruct (UllocModel.endsWithSep path); reflexivity.
    + destruct (UllocModel.endsWithSep key); reflexivity.
    + reflexivity.
Defined.

Lemma copyFile_dryrun_witness :
  copyFile 1 (set_dryrun downloadTree true) failingListing
    (UllocModel.RemoteObject "b" "a/1") (UllocModel.LocalPath "d/1") false
  = Some (None, []).
Proof. apply copyFile_dryrun. reflexivity. Defined.

Lemma copyFile_dryrun_skips_parseRange_witness :
  copyFile 1 (set_dryrun (set_byteRange downloadTree "bytes=20-10") true)
    failingListing
    (UllocModel.RemoteObject "b" "a/1") (UllocModel.LocalPath "d/1") false
  = Some (None, [])
  /\ copyFile 1 (set_dryrun (set_byteRange downloadTree "bytes=20-10") false)
      failingListing
      (UllocModel.RemoteObject "b" "a/1") (UllocModel.LocalPath "d/1") false
     = Some (Some (errs.New "invalid range: %v > %v" [ArgInt 20; ArgInt 10]), []).
Proof.
  destruct (copyFile_dryrun_skips_parseRange 1
              (set_byteRange downloadTree "bytes=20-10") failingListing
              (UllocModel.RemoteObject "b" "a/1") (UllocModel.LocalPath "d/1")
              false 0 0
              (errs.New "invalid range: %v > %v" [ArgInt 20; ArgInt 10])
              eq_refl) as (H1 & H2 & _).
  split; assumption.
Defined.

(** * Further properties of the code *)

(** ** The calls of [parallelCopy] *)

Lemma worker_partCalls h bar i : forallb isPartCall (snd (worker h bar i)) = true.
Proof. unfold worker. destruct (ioCopy h i), bar; reflexivity. Qed.

Lemma worker_result h bar i : fst (worker h bar i) = partResult h i.
Proof. unfold worker, partResult. destruct (ioCopy h i); reflexivity. Qed.

(** The loop only makes calls on parts, and every error it returns is the
    error of a [NextPart] call it has made. *)
Lemma parallelCopyLoop_calls h bar chunkSize :
  forall fuel i length es ex rem es' tr,
    parallelCopyLoop fuel h bar chunkSize i length es = Some (ex, rem, es', tr) ->
    forallb isPartCall tr = true
    /\ forall e, ex = ExitReturn e ->
         exists j size,
           (In (HSrcNextPart j size) tr /\ srcNextPart h j size = Some e
            /\ Is_EOF e = false)
           \/ (In (HDstNextPart j size) tr /\ dstNextPart h j size = Some e
               /\ srcNextPart h j size = None /\ In (HPartClose j) tr).
Proof.
  induction fuel as [|fuel IH]; intros i length es ex rem es' tr H;
    cbn [parallelCopyLoop] in H; destruct (length =? 0).
  1,3: injection H as <- _ _ <-; split; [reflexivity | discriminate].
  - discriminate.
  - set (chunk := nextChunk chunkSize length) in *.
    destruct (srcNextPart h i chunk) as [err|] eqn:Esrc.
    { destruct (Is_EOF err) eqn:Eeof; injection H as <- _ _ <-;
        (split; [reflexivity|]); intros e He; [discriminate|].
      injection He as <-. exists i, chunk. left. repeat split; auto. now left. }
    destruct (dstNextPart h i chunk) as [err|] eqn:Edst.
    { injection H as <- _ _ <-. split; [reflexivity|]. intros e He.
      injection He as <-. exists i, chunk. right.
      repeat split; auto; [right; now left | right; right; now left]. }
    destruct (limiterGo h i).
    2:{ injection H as <- _ _ <-. split; [reflexivity | discriminate]. }
    pose proof (worker_partCalls h bar i) as Hw.
    destruct (worker h bar i) as [werr wtr]. cbn [snd] in *.
    destruct (parallelCopyLoop fuel h bar chunkSize (S i) _ _)
      as [[[[ex0 rem0] es0] tr0]|] eqn:Hrest; [|discriminate].
    injection H as <- _ _ <-.
    destruct (IH _ _ _ _ _ _ _ Hrest) as (I1 & I2). split.
    + cbn [app forallb isPartCall andb]. now rewrite forallb_app, Hw, I1.
    + intros e He. destruct (I2 e He) as (j & size & Hcase).
      exists j, size. destruct Hcase as [(Hin & Hs & Hn)|(Hin & Hd & Hs & Hc)].
      * left. repeat split; auto. cbn [app]. right. right.
        apply in_or_app. now right.
      * right. repeat split; auto.
        -- cbn [app]. right. right. apply in_or_app. now right.
        -- cbn [app]. right. right. apply in_or_app. now right.
Qed.

Lemma partCalls_not_handle_calls tr e :
  forallb isPartCall tr = true -> isPartCall e = false -> ~ In e tr.
Proof.
  intros H He Hin. rewrite forallb_forall in H. specialize (H e Hin). congruence.
Qed.

Lemma handle_calls_of_part_calls tr :
  forallb isPartCall tr = true ->
  forallb isNextPart (filter isHandleCall tr) = true.
Proof.
  induction tr as [|e tr IH]; [reflexivity|].
  cbn [forallb]. intros H. apply andb_true_iff in H. destruct H as [He Ht].
  destruct e; cbn [filter isHandleCall forallb isNextPart andb];
    try discriminate He; auto.
Qed.

Lemma handle_calls_of_seek offset :
  filter isHandleCall (seekCalls offset) = seekCalls offset.
Proof. unfold seekCalls. destruct (offset =? 0); reflexivity. Qed.

(** X1.  Whenever the seek does not fail, [parallelCopy] releases both
    handles on every way out.  Among its calls on the two handles and on the
    context, which are the calls of its own goroutine, the last three are
    [cancel], [dst.Abort] and [src.Close], in that order; before them there
    are only the seek, requests of parts and at most one [dst.Commit], so
    that each of the three is made once.  When [dst.Commit] is called,
    nothing follows it but these three calls, the workers being done.  When
    the seek fails, the seek is the only call and its error is returned:
    nothing is released. *)
Theorem parallelCopy_releases_handles (fuel : nat) (h : HandleEnv)
    (p chunkSize offset length : Z) (bar : bool)
    (r : option error) (tr : list hevent) :
  parallelCopy fuel h p chunkSize offset length bar = Some (r, tr) ->
  (offset <> 0 /\ SetOffset h offset <> None /\ r = SetOffset h offset
   /\ tr = [HSetOffset offset])
  \/ ((offset = 0 \/ SetOffset h offset = None)
      /\ (exists nexts commit,
            filter isHandleCall tr
            = (seekCalls offset ++ nexts ++ commit
                 ++ [HCancel; HDstAbort; HSrcClose])%list
            /\ forallb isNextPart nexts = true
            /\ (commit = [] \/ commit = [HDstCommit]))
      /\ (In HDstCommit tr ->
          exists body,
            tr = (body ++ [HDstCommit; HCancel; HDstAbort; HSrcClose])%list)).
Proof.
  intros H.
  assert (Hcases : (offset <> 0 /\ exists err, SetOffset h offset = Some err)
                   \/ (offset = 0 \/ SetOffset h offset = None)).
  { destruct (Z.eq_dec offset 0); [right; now left|].
    destruct (SetOffset h offset) as [err|]; [left | right; now right].
    split; [assumption | now exists err]. }
  destruct Hcases as [(Hoff & err & Hseek)|Hseek].
  - left. unfold parallelCopy in H.
    destruct (Z.eqb_spec offset 0); [contradiction|]. cbn [negb] in H.
    rewrite Hseek in *. injection H as <- <-. repeat split; auto. discriminate.
  - right. split; [exact Hseek|].
    rewrite (parallelCopy_after_seek _ _ _ _ _ _ _ Hseek) in H.
    destruct (parallelCopyLoop fuel h bar chunkSize 0 length [])
      as [[[[ex rem] es] tr1]|] eqn:E; [|discriminate].
    destruct (parallelCopyLoop_calls _ _ _ _ _ _ _ _ _ _ _ E) as (Hp & _).
    pose proof (handle_calls_of_part_calls tr1 Hp) as Hn.
    pose proof (handle_calls_of_seek offset) as Hs.
    assert (Hcommit : forall x,
              In x (seekCalls offset ++ tr1 ++ parallelCopyDeferred)%list ->
              x <> HDstCommit).
    { intros x Hx ->. apply in_app_or in Hx. destruct Hx as [Hx|Hx].
      - unfold seekCalls in Hx. destruct (offset =? 0); [destruct Hx|].
        destruct Hx as [Hx|[]]. discriminate.
      - apply in_app_or in Hx. destruct Hx as [Hx|Hx].
        + now apply (partCalls_not_handle_calls tr1 HDstCommit Hp).
        + cbn in Hx. intuition discriminate. }
    destruct ex as [| |e]; injection H as _ <-.
    1,2: split;
      [exists (filter isHandleCall tr1), [HDstCommit];
        rewrite !filter_app, Hs; auto
      | intros _; exists (seekCalls offset ++ tr1)%list;
        now rewrite <- app_assoc].
    split.
    + exists (filter isHandleCall tr1), []. rewrite !filter_app, Hs. auto.
    + intros Hin. exfalso. exact (Hcommit _ Hin eq_refl).
Qed.

Lemma parallelCopy_releases_handles_witness :
  (exists nexts commit,
     filter isHandleCall
       [HSetOffset 3; HSrcNextPart 0 4; HDstNextPart 0 4;
        HCopy 0; HPartCommit 0; HPartAbort 0; HPartClose 0;
        HSrcNextPart 1 4; HDstNextPart 1 4;
        HCopy 1; HPartCommit 1; HPartAbort 1; HPartClose 1;
        HSrcNextPart 2 4; HDstCommit; HCancel; HDstAbort; HSrcClose]
     = (seekCalls 3 ++ nexts ++ commit ++ [HCancel; HDstAbort; HSrcClose])%list
     /\ forallb isNextPart nexts = true
     /\ (commit = [] \/ commit = [HDstCommit])).
Proof.
  assert (Hrun : parallelCopy 3 twoPartSource 4 4 3 (-1) false
                 = Some (None,
                         [HSetOffset 3; HSrcNextPart 0 4; HDstNextPart 0 4;
                          HCopy 0; HPartCommit 0; HPartAbort 0; HPartClose 0;
                          HSrcNextPart 1 4; HDstNextPart 1 4;
                          HCopy 1; HPartCommit 1; HPartAbort 1; HPartClose 1;
                          HSrcNextPart 2 4; HDstCommit; HCancel; HDstAbort;
                          HSrcClose]))
    by reflexivity.
  destruct (parallelCopy_releases_handles _ _ _ _ _ _ _ _ _ Hrun)
    as [(_ & Hfail & _)|(_ & H & _)].
  - exfalso. apply Hfail. reflexivity.
  - exact H.
Defined.

Lemma worker_copies h bar i j :
  In (HCopy j) (snd (worker h bar i)) <-> j = i.
Proof.
  unfold worker. destruct (ioCopy h i), bar; cbn; split;
    try (intros ->; auto; fail);
    intros H; repeat (destruct H as [H|H]; try discriminate H);
    try (now injection H); destruct H.
Qed.

(** The error set at the end of the loop: what it held at the start, and
    the errors of the workers that have run. *)
Lemma parallelCopyLoop_collects h bar chunkSize :
  forall fuel i length es ex rem es' tr,
    parallelCopyLoop fuel h bar chunkSize i length es = Some (ex, rem, es', tr) ->
    exists added,
      es' = (es ++ added)%list
      /\ forall e, In e added <->
           exists j, In (HCopy j) tr /\ partResult h j = Some e.
Proof.
  assert (Hnone : forall (l : list hevent) (e : error),
            (forall j, ~ In (HCopy j) l) ->
            In e [] <-> exists j, In (HCopy j) l /\ partResult h j = Some e).
  { intros l e Hl. split; [intros [] | intros (j & Hj & _); exact (Hl j Hj)]. }
  induction fuel as [|fuel IH]; intros i length es ex rem es' tr H;
    cbn [parallelCopyLoop] in H; destruct (length =? 0).
  1,3: injection H as _ _ <- <-; exists []; rewrite app_nil_r;
    split; [reflexivity|]; intros e; apply Hnone; intros j [].
  - discriminate.
  - set (chunk := nextChunk chunkSize length) in *.
    destruct (srcNextPart h i chunk) as [err|].
    { destruct (Is_EOF err); injection H as _ _ <- <-; exists [];
        rewrite app_nil_r; (split; [reflexivity|]); intros e; apply Hnone;
        intros j Hj; cbn in Hj; intuition discriminate. }
    destruct (dstNextPart h i chunk) as [err|].
    { injection H as _ _ <- <-. exists []. rewrite app_nil_r.
      split; [reflexivity|]. intros e. apply Hnone.
      intros j Hj. cbn in Hj. intuition discriminate. }
    destruct (limiterGo h i).
    2:{ injection H as _ _ <- <-. exists []. rewrite app_nil_r.
        split; [reflexivity|]. intros e. apply Hnone.
        intros j Hj. cbn in Hj. intuition discriminate. }
    pose proof (worker_result h bar i) as Hres.
    pose proof (fun j => worker_copies h bar i j) as Hcop.
    destruct (worker h bar i) as [werr wtr]. cbn [fst snd] in *. subst werr.
    destruct (parallelCopyLoop fuel h bar chunkSize (S i) _ _)
      as [[[[ex0 rem0] es0] tr0]|] eqn:Hrest; [|discriminate].
    injection H as _ _ <- <-.
    destruct (IH _ _ _ _ _ _ _ Hrest) as (added & -> & Hadd).
    exists (errs.Add [] (partResult h i) ++ added)%list. split.
    + destruct (partResult h i); cbn [errs.Add app];
        [now rewrite <- app_assoc | reflexivity].
    + intros e. rewrite in_app_iff, Hadd. split.
      * intros [He|(j & Hj & He)].
        -- exists i. split.
           ++ right. right. apply in_or_app. left. now apply Hcop.
           ++ destruct (partResult h i) as [e'|]; [|destruct He].
              destruct He as [<-|[]]. reflexivity.
        -- exists j. split; [|exact He].
           right. right. apply in_or_app. now right.
      * intros (j & Hj & He).
        destruct Hj as [Hj|[Hj|Hj]]; try discriminate.
        apply in_app_or in Hj. destruct Hj as [Hj|Hj].
        -- apply Hcop in Hj. subst j. left. rewrite He. now left.
        -- right. now exists j.
Qed.

(** X2.  When the seek does not fail, [parallelCopy] either calls
    [dst.Commit] and returns the error set combined with the error of the
    commit, the set holding the errors of the workers that have run and no
    other, or it returns the error of a [NextPart] call that it has made,
    alone and without ever calling [dst.Commit]: the error of
    [src.NextPart], which is then no end of stream, or the error of
    [dst.NextPart], in which case the source part just acquired has been
    closed. *)
Theorem parallelCopy_commits_or_fails_alone (fuel : nat) (h : HandleEnv)
    (p chunkSize offset length : Z) (bar : bool)
    (r : option error) (tr : list hevent) :
  parallelCopy fuel h p chunkSize offset length bar = Some (r, tr) ->
  offset = 0 \/ SetOffset h offset = None ->
  (In HDstCommit tr
   /\ exists es,
        r = errs.Err (errs.Add es (dstCommit h))
        /\ forall e, In e es <->
             exists j, In (HCopy j) tr /\ partResult h j = Some e)
  \/ (~ In HDstCommit tr
      /\ exists e j size,
          r = Some e
          /\ ((In (HSrcNextPart j size) tr /\ srcNextPart h j size = Some e
               /\ Is_EOF e = false)
              \/ (In (HDstNextPart j size) tr /\ dstNextPart h j size = Some e
                  /\ srcNextPart h j size = None /\ In (HPartClose j) tr))).
Proof.
  intros H Hseek. rewrite (parallelCopy_after_seek _ _ _ _ _ _ _ Hseek) in H.
  destruct (parallelCopyLoop fuel h bar chunkSize 0 length [])
    as [[[[ex rem] es] tr1]|] eqn:E; [|discriminate].
  destruct (parallelCopyLoop_calls _ _ _ _ _ _ _ _ _ _ _ E) as (Hp & Hret).
  destruct (parallelCopyLoop_collects _ _ _ _ _ _ _ _ _ _ _ E)
    as (added & Hes & Hadd).
  cbn [app] in Hes. subst es.
  assert (Hin : forall x, In x tr1 ->
            In x (seekCalls offset ++ tr1 ++ parallelCopyDeferred)%list).
  { intros x Hx. apply in_or_app. right. apply in_or_app. now left. }
  assert (Hcopy : forall j,
            In (HCopy j)
               (seekCalls offset ++ tr1 ++ [HDstCommit] ++ parallelCopyDeferred)%list
            <-> In (HCopy j) tr1).
  { intros j. rewrite !in_app_iff. split; [|auto].
    intros [Hx|[Hx|[Hx|Hx]]]; auto.
    - unfold seekCalls in Hx. destruct (offset =? 0); [destruct Hx|].
      destruct Hx as [Hx|[]]. discriminate.
    - cbn in Hx. intuition discriminate.
    - cbn in Hx. intuition discriminate. }
  destruct ex as [| |e].
  1,2: left; injection H as <- <-; split;
    [apply in_or_app; right; apply in_or_app; right; now left
    | exists added; split; [reflexivity|];
      intros e; rewrite Hadd; split; intros (j & Hj & He); exists j;
      (split; [now apply Hcopy | exact He])].
  right. injection H as <- <-. split.
  - intros Hc. apply in_app_or in Hc. destruct Hc as [Hc|Hc].
    + unfold seekCalls in Hc. destruct (offset =? 0); [destruct Hc|].
      destruct Hc as [Hc|[]]. discriminate.
    + apply in_app_or in Hc. destruct Hc as [Hc|Hc].
      * now apply (partCalls_not_handle_calls tr1 HDstCommit Hp).
      * cbn in Hc. intuition discriminate.
  - destruct (Hret e eq_refl) as (j & size & Hcase). exists e, j, size.
    split; [reflexivity|].
    destruct Hcase as [(H1 & H2 & H3)|(H1 & H2 & H3 & H4)]; [left|right];
      repeat split; auto.
Qed.

Lemma parallelCopy_commits_or_fails_alone_witness :
  exists r tr,
    parallelCopy 10 secondPartFails 4 4 0 10 false = Some (r, tr)
    /\ In HDstCommit tr
    /\ exists es,
         r = errs.Err (errs.Add es (dstCommit secondPartFails))
         /\ forall e, In e es <->
              exists j, In (HCopy j) tr /\ partResult secondPartFails j = Some e.
Proof.
  destruct (parallelCopy 10 secondPartFails 4 4 0 10 false) as [[r tr]|] eqn:Hrun;
    [|discriminate Hrun].
  assert (Hseek : 0 = 0 \/ SetOffset secondPartFails 0 = None) by (left; reflexivity).
  exists r, tr. split; [reflexivity|].
  destruct (parallelCopy_commits_or_fails_alone _ _ _ _ _ _ _ _ _ Hrun Hseek)
    as [H|(Hno & _)].
  - exact H.
  - exfalso. apply Hno. vm_compute in Hrun. injection Hrun as _ <-.
    cbn. intuition.
Defined.

(** ** The parts of a bounded transfer *)

Lemma specChunks_partSizes chunkSize :
  1 <= chunkSize ->
  forall fuel length,
    0 <= length -> (Z.to_nat length <= fuel)%nat ->
    specChunks fuel chunkSize length = partSizes chunkSize length.
Proof.
  intros Hc. unfold partSizes.
  induction fuel as [|fuel IH]; intros length Hl Hf.
  - assert (length = 0) by lia. subst length. reflexivity.
  - cbn [specChunks]. destruct (Z.eqb_spec length 0) as [E|E].
    + subst length. reflexivity.
    + destruct (Z.lt_ge_cases length chunkSize) as [Hlt|Hge].
      * rewrite Z.min_r by lia. rewrite Z.sub_diag.
        rewrite Z.div_small, Z.mod_small by lia.
        destruct (Z.eqb_spec length 0); [contradiction|].
        destruct fuel; reflexivity.
      * rewrite Z.min_l by lia. rewrite IH by lia.
        replace (length - chunkSize) with (length + (-1) * chunkSize) by lia.
        rewrite Z.div_add, Z.mod_add by lia.
        assert (1 <= length / chunkSize)
          by (apply Z.div_le_lower_bound; lia).
        replace (Z.to_nat (length / chunkSize))
          with (S (Z.to_nat (length / chunkSize + -1))) by lia.
        reflexivity.
Qed.

(** X3.  A bounded transfer ([0 <= length], [1 <= chunkSize], both [int64])
    whose parts are all granted is cut into [length / chunkSize] parts of
    size [chunkSize], followed by one part for the remainder when there is
    one; the same sizes are asked of the source and of the destination, and
    nothing remains. *)
Theorem parallelCopy_part_sizes (h : HandleEnv) (bar : bool)
    (chunkSize length : Z) (fuel : nat) :
  1 <= chunkSize <= Int64.max_int ->
  0 <= length <= Int64.max_int ->
  (Z.to_nat length <= fuel)%nat ->
  allGranted h ->
  exists es tr,
    parallelCopyLoop fuel h bar chunkSize 0 length [] = Some (ExitCond, 0, es, tr)
    /\ srcSizes tr = partSizes chunkSize length
    /\ dstSizes tr = partSizes chunkSize length.
Proof.
  intros Hc Hl Hf G.
  destruct (parallelCopyLoop_bounded h bar chunkSize Hc fuel 0%nat length []
              Hl Hf)
    as (ex & rem & es & tr & Hrun & _ & _ & _ & Hex & Hall).
  destruct (Hall G) as (-> & H1 & H2). rewrite (Hex eq_refl) in Hrun.
  exists es, tr. split; [exact Hrun|].
  rewrite H2, H1. split; apply specChunks_partSizes; lia.
Qed.

Lemma parallelCopy_part_sizes_witness :
  exists es tr,
    parallelCopyLoop 10 grantAll false 4 0 10 [] = Some (ExitCond, 0, es, tr)
    /\ srcSizes tr = partSizes 4 10
    /\ dstSizes tr = partSizes 4 10.
Proof.
  apply parallelCopy_part_sizes.
  - unfold Int64.max_int. lia.
  - unfold Int64.max_int. lia.
  - vm_compute. lia.
  - intros i size. repeat split.
Defined.

(** ** The errors of the workers *)

Lemma Add_app (es : errs.Group) (err : option error) :
  errs.Add es err = (es ++ errs.Add [] err)%list.
Proof. destruct err; cbn; [reflexivity | now rewrite app_nil_r]. Qed.

Lemma workerErrs_S h i n :
  workerErrs h i (S n)
  = (errs.Add [] (partResult h i) ++ workerErrs h (S i) n)%list.
Proof. reflexivity. Qed.

Lemma workerErrs_In h i n e :
  In e (workerErrs h i n) <->
  exists j, (i <= j < i + n)%nat /\ partResult h j = Some e.
Proof.
  unfold workerErrs. rewrite in_flat_map. split.
  - intros (j & Hj & He). apply in_seq in Hj. exists j. split; [lia|].
    destruct (partResult h j) as [e'|]; [|destruct He].
    destruct He as [<-|[]]. reflexivity.
  - intros (j & Hj & He). exists j. split; [apply in_seq; lia|].
    rewrite He. now left.
Qed.

(** With every part granted, the loop runs one worker per chunk, in order,
    and collects the error of each. *)
Lemma parallelCopyLoop_granted h bar chunkSize :
  1 <= chunkSize <= Int64.max_int -> allGranted h ->
  forall fuel i length es,
    0 <= length <= Int64.max_int -> (Z.to_nat length <= fuel)%nat ->
    exists tr,
      parallelCopyLoop fuel h bar chunkSize i length es
      = Some (ExitCond, 0,
              (es ++ workerErrs h i
                       (List.length (specChunks fuel chunkSize length)))%list,
              tr)
      /\ forall j,
           (i <= j < i + List.length (specChunks fuel chunkSize length))%nat ->
           In (HCopy j) tr /\ In (HPartAbort j) tr /\ In (HPartClose j) tr.
Proof.
  intros Hc G. induction fuel as [|fuel IH]; intros i length es Hl Hf.
  - assert (length = 0) by lia. subst length. exists []. cbn.
    rewrite app_nil_r. split; [reflexivity|]. intros j Hj. lia.
  - cbn [parallelCopyLoop specChunks].
    destruct (Z.eqb_spec length 0) as [E|E].
    + subst length. exists []. cbn. rewrite app_nil_r.
      split; [reflexivity|]. intros j Hj. lia.
    + rewrite nextChunk_min by lia.
      set (chunk := Z.min chunkSize length).
      assert (Hchunk : 1 <= chunk <= length) by (unfold chunk; lia).
      assert (Hsub : Int64.sub length chunk = length - chunk).
      { apply Int64_wrap_in_range.
        unfold Int64.in_range, Int64.min_int, Int64.max_int in *. lia. }
      rewrite Hsub. destruct (G i chunk) as (G1 & G2 & G3).
      rewrite G1, G2, G3.
      pose proof (worker_result h bar i) as Hres.
      assert (Hw : In (HCopy i) (snd (worker h bar i))
                   /\ In (HPartAbort i) (snd (worker h bar i))
                   /\ In (HPartClose i) (snd (worker h bar i))).
      { unfold worker. destruct (ioCopy h i), bar; cbn; intuition. }
      destruct (worker h bar i) as [werr wtr]. cbn [fst snd] in *. subst werr.
      destruct (IH (S i) (length - chunk) (errs.Add es (partResult h i)))
        as (tr & Hrun & Hin); [lia | lia |].
      rewrite Hrun. eexists. split.
      * cbn [List.length]. rewrite workerErrs_S, Add_app, <- app_assoc.
        reflexivity.
      * intros j Hj. cbn [List.length] in Hj.
        assert (Hlift : forall x, In x wtr \/ In x tr ->
                  In x ([HSrcNextPart i chunk; HDstNextPart i chunk]
                          ++ wtr ++ tr)%list).
        { intros x Hx. apply in_or_app. right. apply in_or_app. exact Hx. }
        destruct (Nat.eq_dec j i) as [->|Hne].
        -- destruct Hw as (W1 & W2 & W3). repeat split; apply Hlift; auto.
        -- destruct (Hin j ltac:(lia)) as (I1 & I2 & I3).
           repeat split; apply Hlift; auto.
Qed.

Lemma partSizes_length chunkSize length :
  1 <= chunkSize -> 0 <= length ->
  List.length (partSizes chunkSize length)
  = Z.to_nat ((length + chunkSize - 1) / chunkSize).
Proof.
  intros Hc Hl. unfold partSizes. rewrite length_app, repeat_length.
  pose proof (Z.div_mod length chunkSize ltac:(lia)) as Hdm.
  pose proof (Z.mod_pos_bound length chunkSize ltac:(lia)) as Hm.
  pose proof (Z.div_pos length chunkSize Hl ltac:(lia)) as Hq.
  destruct (Z.eqb_spec (length mod chunkSize) 0) as [E|E]; cbn [List.length].
  - assert (Hq' : (length + chunkSize - 1) / chunkSize = length / chunkSize).
    { symmetry. apply Z.div_unique with (r := chunkSize - 1); nia. }
    rewrite Hq'. lia.
  - assert (Hq' : (length + chunkSize - 1) / chunkSize = length / chunkSize + 1).
    { symmetry. apply Z.div_unique with (r := length mod chunkSize - 1); nia. }
    rewrite Hq'. lia.
Qed.

(** Errors combined in another order: the same errors are carried, and the
    result is nil in the same cases. *)
Lemma Err_nil_iff (es : errs.Group) : errs.Err es = None <-> es = [].
Proof.
  destruct es as [|e1 [|e2 l]]; cbn; split; intros H;
    try reflexivity; discriminate.
Qed.

Lemma worker_errors_nil h n es :
  Permutation es (workerErrs h 0 n) ->
  errs.Err (es ++ errs.Add [] (dstCommit h))%list = None <->
  (forall j, (j < n)%nat -> partResult h j = None) /\ dstCommit h = None.
Proof.
  intros Hperm. rewrite Err_nil_iff. split.
  - intros Hall. apply app_eq_nil in Hall. destruct Hall as [Hw Hd]. split.
    + intros j Hj. destruct (partResult h j) as [e|] eqn:He; [|reflexivity].
      assert (Hine : In e (workerErrs h 0 n))
        by (apply workerErrs_In; exists j; split; [lia | assumption]).
      apply (Permutation_in _ (Permutation_sym Hperm)) in Hine.
      rewrite Hw in Hine. destruct Hine.
    + destruct (dstCommit h); [discriminate | reflexivity].
  - intros (Hw & Hd). rewrite Hd. cbn [errs.Add]. rewrite app_nil_r.
    destruct es as [|e l]; [reflexivity|].
    assert (Hine : In e (workerErrs h 0 n))
      by (apply (Permutation_in _ Hperm); now left).
    apply workerErrs_In in Hine. destruct Hine as (j & Hj & He).
    rewrite (Hw j ltac:(lia)) in He. discriminate.
Qed.

(** X4.  On a bounded transfer whose parts are all granted, the failure of
    a worker stops nothing: every one of the [ceil(length / chunkSize)]
    parts is copied, aborted by its guard and closed; [dst.Commit] is called;
    the error returned combines the errors of the workers that failed, in
    some order, and then the error of the commit: it carries the error of
    every worker that failed, and it is nil exactly when every worker and
    the final commit succeeded. *)
Theorem parallelCopy_collects_worker_errors (h : HandleEnv) (p : Z) (bar : bool)
    (chunkSize length : Z) (fuel : nat) :
  1 <= chunkSize <= Int64.max_int ->
  0 <= length <= Int64.max_int ->
  (Z.to_nat length <= fuel)%nat ->
  allGranted h ->
  let n := Z.to_nat ((length + chunkSize - 1) / chunkSize) in
  exists r tr,
    parallelCopy fuel h p chunkSize 0 length bar = Some (r, tr)
    /\ (exists es,
          Permutation es (workerErrs h 0 n)
          /\ r = errs.Err (es ++ errs.Add [] (dstCommit h))%list)
    /\ In HDstCommit tr
    /\ (forall j, (j < n)%nat ->
          In (HCopy j) tr /\ In (HPartAbort j) tr /\ In (HPartClose j) tr)
    /\ (forall j e, (j < n)%nat -> partResult h j = Some e ->
          exists r', r = Some r' /\ carries r' e)
    /\ (r = None <->
        (forall j, (j < n)%nat -> partResult h j = None) /\ dstCommit h = None).
Proof.
  intros Hc Hl Hf G n.
  destruct (parallelCopyLoop_granted h bar chunkSize Hc G fuel 0%nat length []
              Hl Hf) as (tr & Hrun & Hin).
  rewrite specChunks_partSizes in Hrun, Hin by lia.
  rewrite partSizes_length in Hrun, Hin by lia. fold n in Hrun, Hin.
  cbn [app] in Hrun.
  exists (errs.Err (workerErrs h 0 n ++ errs.Add [] (dstCommit h))%list).
  eexists. split; [|split; [|split; [|split; [|split]]]].
  - unfold parallelCopy. cbn [Z.eqb negb]. rewrite Hrun, Add_app. reflexivity.
  - exists (workerErrs h 0 n). split; [apply Permutation_refl | reflexivity].
  - cbn [app]. apply in_or_app. right. now left.
  - intros j Hj. destruct (Hin j ltac:(lia)) as (I1 & I2 & I3).
    cbn [app]. repeat split; apply in_or_app; left; assumption.
  - intros j e Hj He. apply Err_carries. apply in_or_app. left.
    apply workerErrs_In. exists j. split; [lia | assumption].
  - apply worker_errors_nil. apply Permutation_refl.
Qed.

Lemma parallelCopy_collects_worker_errors_witness :
  exists r tr,
    parallelCopy 10 secondPartFails 4 4 0 10 false = Some (r, tr)
    /\ (exists r', r = Some r' /\ carries r' (External "copy failed"))
    /\ In (HCopy 2) tr /\ In HDstCommit tr.
Proof.
  assert (Hc : 1 <= 4 <= Int64.max_int) by (unfold Int64.max_int; lia).
  assert (Hl : 0 <= 10 <= Int64.max_int) by (unfold Int64.max_int; lia).
  assert (Hf : (Z.to_nat 10 <= 10)%nat) by (vm_compute; lia).
  assert (G : allGranted secondPartFails) by (intros i size; repeat split).
  destruct (parallelCopy_collects_worker_errors secondPartFails 4 false 4 10 10
              Hc Hl Hf G) as (r & tr & Hrun & _ & Hcommit & Hparts & Hcar & _).
  exists r, tr. split; [exact Hrun|]. split.
  - apply (Hcar 1%nat); [vm_compute; lia | reflexivity].
  - split; [|exact Hcommit]. apply (Hparts 2%nat). vm_compute. lia.
Defined.

(** ** Unbounded transfers *)

Lemma nextChunk_unbounded chunkSize length :
  length < 0 -> nextChunk chunkSize length = chunkSize.
Proof.
  intros H. unfold nextChunk. destruct (Z.gtb_spec length 0); [lia | reflexivity].
Qed.

Lemma parallelCopyLoop_unbounded h bar chunkSize e :
  1 <= chunkSize -> Is_EOF e = true ->
  forall n fuel i length es,
    length < 0 ->
    Int64.min_int <= length - Z.of_nat (S n) * chunkSize ->
    (n < fuel)%nat ->
    (forall j size, (i <= j < i + n)%nat ->
       srcNextPart h j size = None /\ dstNextPart h j size = None
       /\ limiterGo h j = true) ->
    srcNextPart h (i + n) chunkSize = Some e ->
    exists tr,
      parallelCopyLoop fuel h bar chunkSize i length es
      = Some (ExitBreak, length - Z.of_nat (S n) * chunkSize,
              (es ++ workerErrs h i n)%list, tr)
      /\ srcSizes tr = repeat chunkSize (S n)
      /\ dstSizes tr = repeat chunkSize n.
Proof.
  intros Hc Heof. induction n as [|n IH]; intros fuel i length es Hl Hmin Hf G Hend;
    (destruct fuel as [|fuel]; [lia|]); cbn [parallelCopyLoop];
    (destruct (Z.eqb_spec length 0); [lia|]);
    rewrite nextChunk_unbounded by assumption;
    assert (Hsub : Int64.sub length chunkSize = length - chunkSize)
      by (apply Int64_wrap_in_range;
          unfold Int64.in_range, Int64.min_int, Int64.max_int in *; nia);
    rewrite Hsub.
  - rewrite Nat.add_0_r in Hend. rewrite Hend, Heof.
    replace (length - Z.of_nat 1 * chunkSize) with (length - chunkSize) by lia.
    eexists. split.
    + cbn [workerErrs seq flat_map]. rewrite app_nil_r. reflexivity.
    + split; reflexivity.
  - destruct (G i chunkSize ltac:(lia)) as (G1 & G2 & G3). rewrite G1, G2, G3.
    pose proof (worker_result h bar i) as Hres.
    pose proof (worker_sizes h bar i) as [Hws Hwd].
    destruct (worker h bar i) as [werr wtr]. cbn [fst snd] in *. subst werr.
    destruct (IH fuel (S i) (length - chunkSize) (errs.Add es (partResult h i)))
      as (tr & Hrun & Hs & Hd); try lia.
    + intros j size Hj. apply G. lia.
    + replace (S i + n)%nat with (i + S n)%nat by lia. exact Hend.
    + rewrite Hrun.
      replace (length - chunkSize - Z.of_nat (S n) * chunkSize)
        with (length - Z.of_nat (S (S n)) * chunkSize) by lia.
      eexists. split; [|split].
      * rewrite workerErrs_S, Add_app, <- app_assoc. reflexivity.
      * rewrite !srcSizes_app, Hws, Hs. reflexivity.
      * rewrite !dstSizes_app, Hwd, Hd. reflexivity.
Qed.

(** X5.  A negative length is an unbounded transfer: every part is asked
    for with size [chunkSize], until the source reports the end of its
    stream.  If that happens at part [n], the parts before it being granted,
    then [n + 1] parts have been asked of the source and [n] of the
    destination, the loop ends without error, [dst.Commit] is called, and the
    result combines the errors of the [n] workers, in some order, and then
    the error of the commit: it is nil exactly when there are none.  (The
    length must stay in [int64] while it is decremented.) *)
Theorem parallelCopy_unbounded_until_EOF (h : HandleEnv) (p : Z) (bar : bool)
    (chunkSize length : Z) (n fuel : nat) (e : error) :
  1 <= chunkSize ->
  length < 0 ->
  Int64.min_int <= length - Z.of_nat (S n) * chunkSize ->
  (n < fuel)%nat ->
  (forall j size, (j < n)%nat ->
     srcNextPart h j size = None /\ dstNextPart h j size = None
     /\ limiterGo h j = true) ->
  srcNextPart h n chunkSize = Some e -> Is_EOF e = true ->
  exists r tr,
    parallelCopy fuel h p chunkSize 0 length bar = Some (r, tr)
    /\ (exists es,
          Permutation es (workerErrs h 0 n)
          /\ r = errs.Err (es ++ errs.Add [] (dstCommit h))%list)
    /\ srcSizes tr = repeat chunkSize (S n)
    /\ dstSizes tr = repeat chunkSize n
    /\ In HDstCommit tr
    /\ (r = None <->
        (forall j, (j < n)%nat -> partResult h j = None) /\ dstCommit h = None).
Proof.
  intros Hc Hl Hmin Hf G Hend Heof.
  destruct (parallelCopyLoop_unbounded h bar chunkSize e Hc Heof n fuel 0%nat
              length [] Hl Hmin Hf) as (tr & Hrun & Hs & Hd).
  { intros j size Hj. apply G. lia. }
  { exact Hend. }
  cbn [app] in Hrun.
  exists (errs.Err (workerErrs h 0 n ++ errs.Add [] (dstCommit h))%list).
  eexists. split; [|split; [|split; [|split; [|split]]]].
  - unfold parallelCopy. cbn [Z.eqb negb]. rewrite Hrun, Add_app. reflexivity.
  - exists (workerErrs h 0 n). split; [apply Permutation_refl | reflexivity].
  - cbn [app]. rewrite !srcSizes_app, Hs. cbn. now rewrite app_nil_r.
  - cbn [app]. rewrite !dstSizes_app, Hd. cbn. now rewrite app_nil_r.
  - cbn [app]. apply in_or_app. right. now left.
  - apply worker_errors_nil. apply Permutation_refl.
Qed.

Lemma parallelCopy_unbounded_until_EOF_witness :
  exists tr,
    parallelCopy 3 twoPartSource 4 4 0 (-1) false = Some (None, tr)
    /\ srcSizes tr = [4; 4; 4] /\ dstSizes tr = [4; 4].
Proof.
  assert (Hc : 1 <= 4) by lia.
  assert (Hl : -1 < 0) by lia.
  assert (Hmin : Int64.min_int <= -1 - Z.of_nat 3 * 4)
    by (unfold Int64.min_int; lia).
  assert (Hf : (2 < 3)%nat) by lia.
  assert (G : forall j size, (j < 2)%nat ->
            srcNextPart twoPartSource j size = None
            /\ dstNextPart twoPartSource j size = None
            /\ limiterGo twoPartSource j = true).
  { intros j size Hj. repeat split.
    destruct j as [|[|j]]; [reflexivity | reflexivity | lia]. }
  destruct (parallelCopy_unbounded_until_EOF twoPartSource 4 false 4 (-1) 2 3 EOF
              Hc Hl Hmin Hf G eq_refl eq_refl)
    as (r & tr & Hrun & _ & Hs & Hd & _ & Hnil).
  assert (Hr : r = None) by (apply Hnil; split; [intros j _|]; reflexivity).
  subst r. exists tr. repeat split; assumption.
Defined.

(** ** The destination follows the source *)

Lemma worker_started h bar i : started (snd (worker h bar i)) = 1%nat.
Proof. unfold worker. destruct (ioCopy h i), bar; reflexivity. Qed.

Lemma started_app a b : started (a ++ b) = (started a + started b)%nat.
Proof. apply countb_app. Qed.

Lemma parallelCopyLoop_follows h bar chunkSize :
  forall fuel i length es ex rem es' tr,
    parallelCopyLoop fuel h bar chunkSize i length es = Some (ex, rem, es', tr) ->
    dstSizes tr = firstn (List.length (dstSizes tr)) (srcSizes tr)
    /\ (started tr <= List.length (dstSizes tr) <= List.length (srcSizes tr))%nat
    /\ (List.length (srcSizes tr) <= S (started tr))%nat.
Proof.
  induction fuel as [|fuel IH]; intros i length es ex rem es' tr H;
    cbn [parallelCopyLoop] in H; destruct (length =? 0).
  1,3: injection H as _ _ _ <-; cbn; repeat split; lia.
  - discriminate.
  - set (chunk := nextChunk chunkSize length) in *.
    destruct (srcNextPart h i chunk) as [err|].
    { destruct (Is_EOF err); injection H as _ _ _ <-; cbn; repeat split; lia. }
    destruct (dstNextPart h i chunk) as [err|].
    { injection H as _ _ _ <-. cbn. repeat split; lia. }
    destruct (limiterGo h i).
    2:{ injection H as _ _ _ <-. cbn. repeat split; lia. }
    pose proof (worker_sizes h bar i) as [Hws Hwd].
    pose proof (worker_started h bar i) as Hw.
    destruct (worker h bar i) as [werr wtr]. cbn [snd] in *.
    destruct (parallelCopyLoop fuel h bar chunkSize (S i) _ _)
      as [[[[ex0 rem0] es0] tr0]|] eqn:Hrest; [|discriminate].
    injection H as _ _ _ <-.
    destruct (IH _ _ _ _ _ _ _ Hrest) as (I1 & I2 & I3).
    change (HSrcNextPart i chunk :: HDstNextPart i chunk :: wtr ++ tr0)%list
      with ([HSrcNextPart i chunk; HDstNextPart i chunk] ++ wtr ++ tr0)%list.
    rewrite !srcSizes_app, !dstSizes_app, !started_app, Hws, Hwd, Hw.
    cbn [srcSizes dstSizes flat_map app List.length firstn started countb filter].
    split; [now rewrite <- I1 | split; lia].
Qed.

(** X6.  The destination follows the source part by part.  Whenever
    [parallelCopy] returns, the sizes asked of [dst.NextPart] are the sizes
    asked of [src.NextPart], in the same order, the last request to the
    source possibly having no counterpart; and a worker has run for every
    part asked of the destination, the last one possibly excepted.  So at
    most one part is ever left between the source and a worker. *)
Theorem parallelCopy_destination_follows_source (fuel : nat) (h : HandleEnv)
    (p chunkSize offset length : Z) (bar : bool)
    (r : option error) (tr : list hevent) :
  parallelCopy fuel h p chunkSize offset length bar = Some (r, tr) ->
  dstSizes tr = firstn (List.length (dstSizes tr)) (srcSizes tr)
  /\ (started tr <= List.length (dstSizes tr) <= List.length (srcSizes tr))%nat
  /\ (List.length (srcSizes tr) <= S (started tr))%nat.
Proof.
  intros H.
  assert (Hloop : forall tr0 last tr1,
    srcSizes tr0 = [] -> dstSizes tr0 = [] -> started tr0 = 0%nat ->
    srcSizes last = [] -> dstSizes last = [] -> started last = 0%nat ->
    dstSizes tr1 = firstn (List.length (dstSizes tr1)) (srcSizes tr1)
    /\ (started tr1 <= List.length (dstSizes tr1)
        <= List.length (srcSizes tr1))%nat
    /\ (List.length (srcSizes tr1) <= S (started tr1))%nat ->
    dstSizes (tr0 ++ tr1 ++ last)
    = firstn (List.length (dstSizes (tr0 ++ tr1 ++ last)))
             (srcSizes (tr0 ++ tr1 ++ last))
    /\ (started (tr0 ++ tr1 ++ last)
        <= List.length (dstSizes (tr0 ++ tr1 ++ last))
        <= List.length (srcSizes (tr0 ++ tr1 ++ last)))%nat
    /\ (List.length (srcSizes (tr0 ++ tr1 ++ last))
        <= S (started (tr0 ++ tr1 ++ last)))%nat).
  { intros tr0 last tr1 A1 A2 A3 B1 B2 B3 Htr1.
    rewrite !srcSizes_app, !dstSizes_app, !started_app, A1, A2, A3, B1, B2, B3.
    cbn [app]. rewrite !app_nil_r, Nat.add_0_r. exact Htr1. }
  unfold parallelCopy in H.
  destruct (negb (offset =? 0)).
  - destruct (SetOffset h offset) as [err|].
    + injection H as _ <-. cbn. repeat split; lia.
    + destruct (parallelCopyLoop fuel h bar chunkSize 0 length [])
        as [[[[ex rem] es] tr1]|] eqn:E; [|discriminate].
      pose proof (parallelCopyLoop_follows _ _ _ _ _ _ _ _ _ _ _ E) as Htr1.
      destruct ex; injection H as _ <-;
        refine (Hloop [HSetOffset offset] _ tr1 _ _ _ _ _ _ Htr1);
        reflexivity.
  - destruct (parallelCopyLoop fuel h bar chunkSize 0 length [])
      as [[[[ex rem] es] tr1]|] eqn:E; [|discriminate].
    pose proof (parallelCopyLoop_follows _ _ _ _ _ _ _ _ _ _ _ E) as Htr1.
    destruct ex; injection H as _ <-;
      refine (Hloop [] _ tr1 _ _ _ _ _ _ Htr1); reflexivity.
Qed.

Lemma parallelCopy_destination_follows_source_witness :
  exists tr,
    parallelCopy 3 twoPartSource 4 4 0 (-1) false = Some (None, tr)
    /\ dstSizes tr = firstn (List.length (dstSizes tr)) (srcSizes tr)
    /\ (started tr <= List.length (dstSizes tr) <= List.length (srcSizes tr))%nat
    /\ (List.length (srcSizes tr) <= S (started tr))%nat.
Proof.
  destruct (parallelCopy 3 twoPartSource 4 4 0 (-1) false) as [[r tr]|] eqn:Hrun;
    [|discriminate Hrun].
  assert (Hr : r = None) by (vm_compute in Hrun; now injection Hrun as <- _).
  subst r. exists tr. split; [reflexivity|].
  exact (parallelCopy_destination_follows_source _ _ _ _ _ _ _ _ _ Hrun).
Defined.

(** ** Handles opened and handles released *)





Section Release.

Context {Location : Type} {U : Ulloc Location}.

Implicit Types (c : @cmdCp Location) (fs : @FsEnv Location).








End Release.

Section CommandProperties.

Context {Location : Type} {U : Ulloc Location}.

Implicit Types (c : @cmdCp Location) (fs : @FsEnv Location).


(** A file copied without progress reporting never touches the bar. *)
Lemma parallelCopyLoop_no_bar h chunkSize :
  forall fuel i length es ex rem es' tr,
    parallelCopyLoop fuel h false chunkSize i length es = Some (ex, rem, es', tr) ->
    forall j, ~ In (HBarStart j) tr.
Proof.
  induction fuel as [|fuel IH]; intros i length es ex rem es' tr H j;
    cbn [parallelCopyLoop] in H; destruct (length =? 0).
  1,3: injection H as _ _ _ <-; intros [].
  - discriminate.
  - set (chunk := nextChunk chunkSize length) in *.
    destruct (srcNextPart h i chunk) as [err|].
    { destruct (Is_EOF err); injection H as _ _ _ <-; cbn;
        intuition discriminate. }
    destruct (dstNextPart h i chunk) as [err|].
    { injection H as _ _ _ <-. cbn. intuition discriminate. }
    destruct (limiterGo h i).
    2:{ injection H as _ _ _ <-. cbn. intuition discriminate. }
    assert (Hw : ~ In (HBarStart j) (snd (worker h false i))).
    { unfold worker. destruct (ioCopy h i); cbn; intuition discriminate. }
    destruct (worker h false i) as [werr wtr]. cbn [snd] in *.
    destruct (parallelCopyLoop fuel h false chunkSize (S i) _ _)
      as [[[[ex0 rem0] es0] tr0]|] eqn:Hrest; [|discriminate].
    injection H as _ _ _ <-. intros Hin.
    destruct Hin as [Hin|[Hin|Hin]]; try discriminate.
    apply in_app_or in Hin. destruct Hin as [Hin|Hin]; [now apply Hw|].
    exact (IH _ _ _ _ _ _ _ Hrest j Hin).
Qed.

Lemma parallelCopy_no_bar fuel h p chunkSize offset length r tr :
  parallelCopy fuel h p chunkSize offset length false = Some (r, tr) ->
  forall j, ~ In (HBarStart j) tr.
Proof.
  unfold parallelCopy. intros H j Hin.
  assert (Hloop : forall tr0,
    (forall x, In x tr0 -> x = HSetOffset offset) ->
    match parallelCopyLoop fuel h false chunkSize 0 length [] with
    | Some (ExitReturn err, _, _, tr1) =>
        Some (Some err, tr0 ++ tr1 ++ parallelCopyDeferred)%list
    | Some (_, _, es, tr1) =>
        Some (errs.Err (errs.Add es (dstCommit h)),
              tr0 ++ tr1 ++ [HDstCommit] ++ parallelCopyDeferred)%list
    | None => None
    end = Some (r, tr) -> False).
  { intros tr0 Htr0 H0.
    destruct (parallelCopyLoop fuel h false chunkSize 0 length [])
      as [[[[ex rem] es] tr1]|] eqn:El; [|discriminate].
    pose proof (parallelCopyLoop_no_bar _ _ _ _ _ _ _ _ _ _ El j) as Hno.
    assert (Hcases : In (HBarStart j) tr0 \/ In (HBarStart j) tr1
                     \/ In (HBarStart j)
                          ([HDstCommit] ++ parallelCopyDeferred)%list).
    { destruct ex; injection H0 as _ <-;
        repeat (apply in_app_or in Hin; destruct Hin as [Hin|Hin]); auto.
      right. right. apply in_or_app. now right. }
    destruct Hcases as [Hc|[Hc|Hc]].
    - apply Htr0 in Hc. discriminate.
    - now apply Hno.
    - cbn in Hc. intuition discriminate. }
  destruct (negb (offset =? 0)).
  - destruct (SetOffset h offset) as [err|].
    + injection H as _ <-. cbn in Hin. intuition discriminate.
    + apply (Hloop [HSetOffset offset]); [|exact H].
      intros x [<-|[]]. reflexivity.
  - apply (Hloop []); [|exact H]. intros x [].
Qed.

Lemma copyFile_no_bar fuel c fs (src dst : Location) r tr :
  copyFile fuel c fs src dst false = Some (r, tr) ->
  forallb (fun ev => negb (isBarCall ev)) tr = true.
Proof.
  unfold copyFile. destruct (dryrun c).
  { intros H. injection H as _ <-. reflexivity. }
  destruct (parseRange (byteRange c)) as [[offset length] [e|]].
  { intros H. injection H as _ <-. reflexivity. }
  destruct (fsOpen fs src).
  { intros H. injection H as _ <-. reflexivity. }
  destruct (fsCreate fs dst).
  { intros H. injection H as _ <-. reflexivity. }
  cbn [andb].
  destruct (parallelCopy fuel _ _ _ _ _ false) as [[r0 tr0]|] eqn:E;
    [|discriminate].
  intros H. injection H as _ <-. cbn [app forallb isBarCall negb andb].
  rewrite forallb_app. cbn [app forallb isBarCall negb andb].
  rewrite andb_true_r. apply forallb_forall. intros ev Hev.
  apply in_map_iff in Hev. destruct Hev as (e & <- & He).
  destruct e; try reflexivity. exfalso.
  exact (parallelCopy_no_bar _ _ _ _ _ _ _ _ E _ He).
Qed.

(** X8.  A recursive copy never reports progress: among the calls of
    [copyRecursive] there is no creation, start or finish of a progress
    bar, whatever the [progress] flag says. *)
Theorem copyRecursive_never_shows_progress fuel c fs r tr :
  copyRecursive fuel c fs = Some (r, tr) ->
  forallb (fun ev => negb (isBarCall ev)) tr = true.
Proof.
  assert (Hloop : forall items k es ret es' tr0,
    copyRecursiveLoop fuel c fs k items es = Some (ret, es', tr0) ->
    forallb (fun ev => negb (isBarCall ev)) tr0 = true).
  { induction items as [|item items IH]; intros k es ret es' tr0 H.
    - injection H as _ _ <-. reflexivity.
    - cbn [copyRecursiveLoop] in H.
      destruct (RelativeTo (source c) item) as [rel [err|]].
      { injection H as _ _ <-. reflexivity. }
      destruct (fileGo fs k).
      2:{ injection H as _ _ <-. reflexivity. }
      destruct (copyFile fuel c fs item _ false) as [[r0 ftr]|] eqn:Efile;
        [|discriminate].
      destruct (copyRecursiveLoop fuel c fs (S k) items (errs.Add es r0))
        as [[[ret0 es0] tr1]|] eqn:Hrest; [|discriminate].
      injection H as _ _ <-.
      cbn [app forallb isBarCall negb andb]. rewrite !forallb_app.
      rewrite (copyFile_no_bar _ _ _ _ _ _ _ Efile), (IH _ _ _ _ _ Hrest).
      destruct r0; reflexivity. }
  unfold copyRecursive. destruct (Std (source c) || Std (dest c)).
  { intros H. injection H as _ <-. reflexivity. }
  destruct (fsListErr fs (source c)).
  { intros H. injection H as _ <-. reflexivity. }
  destruct (copyRecursiveLoop fuel c fs 0 _ []) as [[[ret es] tr0]|] eqn:E;
    [|discriminate].
  intros H.
  assert (tr = EvList (source c) :: tr0) as ->
    by (destruct ret; injection H as _ <-; reflexivity).
  cbn [forallb isBarCall negb andb]. exact (Hloop _ _ _ _ _ _ E).
Qed.

End CommandProperties.


Lemma copyRecursive_never_shows_progress_witness :
  exists r tr,
    copyRecursive 5 downloadTree healthyFs = Some (r, tr)
    /\ progress downloadTree = true
    /\ forallb (fun ev => negb (isBarCall ev)) tr = true.
Proof.
  destruct (copyRecursive 5 downloadTree healthyFs) as [[r tr]|] eqn:E;
    [|vm_compute in E; discriminate].
  exists r, tr. split; [reflexivity|]. split; [reflexivity|].
  exact (copyRecursive_never_shows_progress _ _ _ _ _ E).
Defined.

Section RecursiveProperties.

Context {Location : Type} {U : Ulloc Location}.

Implicit Types (c : @cmdCp Location) (fs : @FsEnv Location).

Lemma copyRecursiveLoop_all_copied fuel c fs :
  (forall k, fileGo fs k = true) ->
  forall items k es tr,
    copyRecursiveLoop fuel c fs k items es = Some (None, [], tr) ->
    forall item, In item items ->
      snd (RelativeTo (source c) item) = None
      /\ exists ftr,
          copyFile fuel c fs item (entryDest c item) false = Some (None, ftr).
Proof.
  intros Hgo. induction items as [|item0 items IH]; intros k es tr H item Hin;
    [destruct Hin|].
  cbn [copyRecursiveLoop] in H. unfold entryDest in *.
  destruct (RelativeTo (source c) item0) as [rel [err|]] eqn:Erel;
    [discriminate|].
  rewrite Hgo in H.
  destruct (copyFile fuel c fs item0 _ false) as [[r ftr]|] eqn:Efile;
    [|discriminate].
  destruct (copyRecursiveLoop fuel c fs (S k) items (errs.Add es r))
    as [[[ret0 es0] tr0]|] eqn:Hrest; [|discriminate].
  injection H as -> -> _.
  destruct (copyRecursiveLoop_reports _ _ _ _ _ _ _ _ _ Hrest)
    as (added & Hes & _).
  symmetry in Hes. apply app_eq_nil in Hes. destruct Hes as [Hadd _].
  assert (r = None) as ->.
  { destruct r as [e|]; [|reflexivity]. cbn in Hadd.
    apply app_eq_nil in Hadd. destruct Hadd as [_ Hadd]. discriminate. }
  cbn [errs.Add] in Hadd. subst es.
  destruct Hin as [<-|Hin].
  - rewrite Erel. cbn [fst snd]. split; [reflexivity|]. now exists ftr.
  - exact (IH _ _ _ Hrest item Hin).
Qed.

(** X9.  When no submission is refused, a recursive copy returns nil only
    if everything went well: neither source nor destination is a standard
    stream, the listing started and ended without error, and for every
    listed entry the relative path was found and [copyFile] to the
    destination computed for it returned nil. *)
Theorem copyRecursive_nil_means_all_copied fuel c fs tr :
  (forall k, fileGo fs k = true) ->
  copyRecursive fuel c fs = Some (None, tr) ->
  Std (source c) = false /\ Std (dest c) = false
  /\ fsListErr fs (source c) = None /\ fsIterErr fs (source c) = None
  /\ forall item, In item (fsListItems fs (source c)) ->
       snd (RelativeTo (source c) item) = None
       /\ exists ftr,
           copyFile fuel c fs item (entryDest c item) false = Some (None, ftr).
Proof.
  intros Hgo. unfold copyRecursive.
  destruct (Std (source c)) eqn:Es; [discriminate|].
  destruct (Std (dest c)) eqn:Ed; [discriminate|]. cbn [orb].
  destruct (fsListErr fs (source c)) eqn:El; [discriminate|].
  destruct (copyRecursiveLoop fuel c fs 0 _ []) as [[[ret es] tr0]|] eqn:E;
    [|discriminate].
  destruct ret as [e|]; [discriminate|]. unfold copyRecursiveResult.
  destruct (fsIterErr fs (source c)) as [e|] eqn:Ei.
  { destruct e; discriminate. }
  intros H. injection H as H _.
  assert (es = []) as ->.
  { destruct es as [|e1 [|e2 es]]; [reflexivity | |]; cbn in H; discriminate. }
  do 4 (split; [reflexivity|]).
  exact (copyRecursiveLoop_all_copied fuel c fs Hgo _ _ _ _ E).
Qed.

(** In dry-run mode the loop of [copyRecursive] only prints. *)
Lemma copyRecursiveLoop_dryrun fuel c fs :
  dryrun c = true ->
  (forall k, fileGo fs k = true) ->
  forall items k es,
    (forall item, In item items -> snd (RelativeTo (source c) item) = None) ->
    copyRecursiveLoop fuel c fs k items es
    = Some (None, es, map (announce c) items).
Proof.
  intros Hdry Hgo. induction items as [|item items IH]; intros k es Hrel;
    [reflexivity|].
  cbn [copyRecursiveLoop map]. unfold announce at 1. unfold entryDest.
  pose proof (Hrel item (or_introl eq_refl)) as Hr.
  destruct (RelativeTo (source c) item) as [rel err]. cbn [fst snd] in *.
  subst err. rewrite Hgo. unfold copyFile at 1. rewrite Hdry.
  cbn [errs.Add]. rewrite IH by (intros; apply Hrel; now right). reflexivity.
Qed.

End RecursiveProperties.

Section DryRun.

Context {Location : Type} {U : Ulloc Location}.

Implicit Types (c : @cmdCp Location) (fs : @FsEnv Location).

(** X10.  A recursive dry run prints what would be copied and copies
    nothing: when no submission is refused and every listed entry has a
    relative path, [copyRecursive] lists the source, prints one line per
    entry, each with the destination computed for it and in whatever order
    the file tasks come to run, makes no other call, and returns the error
    of the listing if there is one, nil otherwise; and it does so whatever
    the fuel. *)
Theorem copyRecursive_dryrun_announces fuel c fs :
  dryrun c = true ->
  Std (source c) || Std (dest c) = false ->
  fsListErr fs (source c) = None ->
  (forall k, fileGo fs k = true) ->
  (forall item, In item (fsListItems fs (source c)) ->
     snd (RelativeTo (source c) item) = None) ->
  exists lines,
    copyRecursive fuel c fs
    = Some (errs.Wrap (fsIterErr fs (source c)), EvList (source c) :: lines)
    /\ Permutation lines (map (announce c) (fsListItems fs (source c))).
Proof.
  intros Hdry Hstd Hlist Hgo Hrel.
  exists (map (announce c) (fsListItems fs (source c))).
  split; [|apply Permutation_refl]. unfold copyRecursive.
  rewrite Hstd, Hlist, (copyRecursiveLoop_dryrun fuel c fs Hdry Hgo _ _ _ Hrel).
  unfold copyRecursiveResult. destruct (fsIterErr fs (source c)); reflexivity.
Qed.

Lemma copyRecursiveLoop_dryrun_no_copy fuel c fs :
  dryrun c = true ->
  forall items k es,
    exists ret es' tr,
      copyRecursiveLoop fuel c fs k items es = Some (ret, es', tr)
      /\ forallb (fun ev => negb (isCopyCall ev)) tr = true.
Proof.
  intros Hdry. induction items as [|item items IH]; intros k es.
  - exists None, es, []. now split.
  - cbn [copyRecursiveLoop].
    destruct (RelativeTo (source c) item) as [rel [err|]].
    { eexists _, _, _. split; reflexivity. }
    destruct (fileGo fs k).
    2:{ eexists _, _, _. split; reflexivity. }
    unfold copyFile at 1. rewrite Hdry.
    destruct (IH (S k) (errs.Add es None)) as (ret & es' & tr & Hrun & Hno).
    rewrite Hrun. eexists _, _, _. split; [reflexivity|].
    cbn [app forallb isCopyCall negb andb]. exact Hno.
Qed.

Lemma copyRecursive_dryrun_no_copy fuel c fs :
  dryrun c = true ->
  exists r tr,
    copyRecursive fuel c fs = Some (r, tr)
    /\ forallb (fun ev => negb (isCopyCall ev)) tr = true.
Proof.
  intros Hdry. unfold copyRecursive.
  destruct (Std (source c) || Std (dest c)).
  { eexists _, _. split; reflexivity. }
  destruct (fsListErr fs (source c)).
  { eexists _, _. split; reflexivity. }
  destruct (copyRecursiveLoop_dryrun_no_copy fuel c fs Hdry
              (fsListItems fs (source c)) 0%nat [])
    as (ret & es' & tr & Hrun & Hno).
  rewrite Hrun. destruct ret; eexists _, _; (split; [reflexivity|]);
    cbn [forallb isCopyCall negb andb]; exact Hno.
Qed.

(** X11.  In dry-run mode the whole command copies nothing, recursive or
    not: whatever the fuel and whatever the filesystem answers, [Execute]
    returns, and among its calls there is no [fs.Open], no [fs.Create] and
    no call on a handle or on the progress bar. *)
Theorem Execute_dryrun_copies_nothing fuel c fs :
  dryrun c = true ->
  exists r tr,
    Execute fuel c fs = Some (r, tr)
    /\ forallb (fun ev => negb (isCopyCall ev)) tr = true.
Proof.
  intros Hdry. unfold Execute.
  destruct (OpenFilesystem fs) as [err|].
  { eexists _, _. split; reflexivity. }
  cbv zeta beta.
  repeat match goal with
    | |- context [if ?b then _ else _] => destruct b
    | |- context [let '(_, _) := ?p in _] => destruct p
    | |- context [match copyRecursive ?a ?b ?d with _ => _ end] =>
        let H := fresh "H" in
        destruct (copyRecursive_dryrun_no_copy a b d) as (? & ? & H & ?);
        [exact Hdry | rewrite H]
    | |- context [copyFile ?a ?b ?d ?e ?f ?g] =>
        unfold copyFile; cbn [set_dest set_source dryrun]; rewrite Hdry
    end;
    cbn [withFsClose]; (eexists _, _; split; [reflexivity|]);
    rewrite ?forallb_app; cbn [app forallb isCopyCall negb andb];
    rewrite ?forallb_app; cbn [app forallb isCopyCall negb andb];
    try reflexivity; try assumption;
    repeat (rewrite ?andb_true_r; try assumption).
Qed.

End DryRun.

Lemma copyRecursive_nil_means_all_copied_witness :
  exists tr,
    copyRecursive 5 downloadTree healthyFs = Some (None, tr)
    /\ forall item, In item (fsListItems healthyFs (source downloadTree)) ->
         exists ftr,
           copyFile 5 downloadTree healthyFs item (entryDest downloadTree item)
             false = Some (None, ftr).
Proof.
  destruct (copyRecursive 5 downloadTree healthyFs) as [[[e|] tr]|] eqn:E;
    [vm_compute in E; discriminate | | vm_compute in E; discriminate].
  exists tr. split; [reflexivity|].
  assert (Hgo : forall k, fileGo healthyFs k = true) by reflexivity.
  destruct (copyRecursive_nil_means_all_copied 5 downloadTree healthyFs tr Hgo E)
    as (_ & _ & _ & _ & H).
  intros item Hin. destruct (H item Hin) as (_ & H'). exact H'.
Defined.

Lemma copyRecursive_dryrun_announces_witness :
  exists lines,
    copyRecursive 0 (set_dryrun downloadTree true) failingListing
    = Some (Some (errorT (External "listing failed")),
            EvList (UllocModel.RemoteObject "b" "a/") :: lines)
    /\ Permutation lines
         [EvStdout "download" (UllocModel.RemoteObject "b" "a/1")
                   (UllocModel.LocalPath "d/1")].
Proof.
  assert (Hrel : forall item,
            In item (fsListItems failingListing
                       (source (set_dryrun downloadTree true))) ->
            snd (RelativeTo (source (set_dryrun downloadTree true)) item) = None)
    by (intros item [<-|[]]; reflexivity).
  assert (Hstd : Std (source (set_dryrun downloadTree true))
                 || Std (dest (set_dryrun downloadTree true)) = false)
    by reflexivity.
  assert (Hlist : fsListErr failingListing
                    (source (set_dryrun downloadTree true)) = None)
    by reflexivity.
  destruct (copyRecursive_dryrun_announces 0 (set_dryrun downloadTree true)
              failingListing eq_refl Hstd Hlist (fun _ => eq_refl) Hrel)
    as (lines & Hrun & Hperm).
  exists lines. split; [exact Hrun | exact Hperm].
Defined.

Lemma Execute_dryrun_copies_nothing_witness :
  exists r tr,
    Execute 0 (set_dryrun downloadTree true) healthyFs = Some (r, tr)
    /\ forallb (fun ev => negb (isCopyCall ev)) tr = true.
Proof. apply Execute_dryrun_copies_nothing. reflexivity. Defined.

(** ** What [parseRange] returns *)

Lemma Int64_wrap_bounds z : Int64.in_range (Int64.wrap z).
Proof.
  unfold Int64.in_range, Int64.wrap, Int64.min_int, Int64.max_int.
  pose proof (Z.mod_pos_bound (z + 2 ^ 63) (2 ^ 64) ltac:(lia)). lia.
Qed.

Lemma ParseInt_in_range s v : ParseInt s = (v, None) -> Int64.in_range v.
Proof.
  unfold ParseInt. destruct s as [|c0 rest]; [discriminate|].
  destruct (ParseUint _) as [un [[|]|]];
    repeat match goal with
      | |- context [if ?b then _ else _] => destruct b
      end;
    intros H; inversion H; subst; apply Int64_wrap_bounds.
Qed.

(** X12.  Every failure of [parseRange] is an invalid-range error and comes
    with a zero offset and a zero length. *)
Theorem parseRange_failure_shape r offset length e :
  parseRange r = (offset, length, Some e) ->
  InvalidRange e = true /\ offset = 0 /\ length = 0.
Proof. apply parseRange_error_InvalidRange. Qed.

Lemma parseRange_failure_shape_witness :
  InvalidRange (errs.New "invalid range: must be single range" []) = true
  /\ 0 = 0 /\ 0 = 0.
Proof.
  apply (parseRange_failure_shape "bytes=1-2,4-5" 0 0
           (errs.New "invalid range: must be single range" [])).
  reflexivity.
Defined.

(** X13.  When [parseRange] succeeds, the offset is an [int64] and the
    length is never zero: the length is -1 (to the end of the object), or
    the offset is not negative and the length is at least 1 with the last
    byte [offset + length - 1] an [int64], or, for the one range that spans
    2^63 bytes, the offset is 0 and the length has wrapped to the least
    [int64]. *)
Theorem parseRange_success_shape r offset length :
  parseRange r = (offset, length, None) ->
  Int64.in_range offset
  /\ length <> 0
  /\ (length = -1
      \/ (0 <= offset /\ 1 <= length /\ offset + length - 1 <= Int64.max_int)
      \/ (offset = 0 /\ length = Int64.min_int)).
Proof.
  unfold parseRange.
  assert (R0 : Int64.in_range 0)
    by (unfold Int64.in_range, Int64.min_int, Int64.max_int; lia).
  destruct (String.eqb _ "").
  { intros H. inversion H; subst. split; [exact R0|].
    split; [lia | now left]. }
  destruct (Contains _ ","); [discriminate|].
  destruct (_ <? 0); [discriminate|].
  set (start := TrimSpace (slice _ 0 _)).
  set (end_ := TrimSpace (slice _ _ _)).
  assert (Hs : forall v, (if negb (String.eqb start "") then ParseInt start
                          else (0, None)) = (v, None) -> Int64.in_range v).
  { intros v. destruct (negb (String.eqb start "")); [apply ParseInt_in_range|].
    intros H; inversion H; subst; exact R0. }
  assert (He : forall v, (if negb (String.eqb end_ "") then ParseInt end_
                          else (0, None)) = (v, None) -> Int64.in_range v).
  { intros v. destruct (negb (String.eqb end_ "")); [apply ParseInt_in_range|].
    intros H; inversion H; subst; exact R0. }
  destruct (if negb (String.eqb start "") then _ else _)
    as [starti [e1|]] eqn:E1; [discriminate|].
  destruct (if negb (String.eqb end_ "") then _ else _)
    as [endi [e2|]] eqn:E2; [discriminate|].
  specialize (Hs _ eq_refl). specialize (He _ eq_refl).
  destruct (String.eqb start "" && String.eqb end_ ""); [discriminate|].
  destruct (String.eqb start "").
  { intros H. inversion H; subst. split; [apply Int64_wrap_bounds|].
    split; [lia | now left]. }
  destruct (String.eqb end_ "").
  { intros H. inversion H; subst. split; [assumption|].
    split; [lia | now left]. }
  destruct (Z.ltb_spec starti 0); [discriminate|].
  destruct (Z.gtb_spec starti endi); [discriminate|].
  intros Hrun. inversion Hrun; subst. clear Hrun. split; [assumption|].
  unfold Int64.in_range, Int64.min_int, Int64.max_int in *.
  unfold Int64.add, Int64.sub.
  rewrite (Int64_wrap_in_range (endi - offset))
    by (unfold Int64.in_range, Int64.min_int, Int64.max_int; lia).
  destruct (Z.eq_dec (endi - offset + 1) (2 ^ 63)) as [Emax|Emax].
  - rewrite Emax. change (Int64.wrap (2 ^ 63)) with (- 2 ^ 63).
    split; [lia|]. right. right. split; lia.
  - rewrite Int64_wrap_in_range
      by (unfold Int64.in_range, Int64.min_int, Int64.max_int; lia).
    split; [lia|]. right. left. lia.
Qed.

Lemma parseRange_success_shape_witness :
  Int64.in_range 10
  /\ 11 <> 0
  /\ (11 = -1
      \/ (0 <= 10 /\ 1 <= 11 /\ 10 + 11 - 1 <= Int64.max_int)
      \/ (10 = 0 /\ 11 = Int64.min_int)).
Proof. apply (parseRange_success_shape "bytes=10-20"). reflexivity. Defined.

(** ** The start of a range is never negative *)

Lemma parseUintLoop_nonneg s : forall n, 0 <= n -> 0 <= fst (parseUintLoop s n).
Proof.
  induction s as [|c s IH]; intros n Hn; cbn [parseUintLoop fst]; [assumption|].
  destruct (isDigit c) eqn:Hc; cbn [negb fst]; [|lia].
  destruct (_ <=? n); cbn [fst]; [unfold Int64.max_uint; lia|].
  destruct (_ <? _); cbn [fst]; [unfold Int64.max_uint; lia|].
  apply IH. destruct (isDigit_facts c Hc) as (_ & _ & _ & _ & _ & Hd). lia.
Qed.

Lemma ParseInt_nonneg c0 rest v :
  ParseInt (String c0 rest) = (v, None) -> Ascii.eqb c0 "-" = false -> 0 <= v.
Proof.
  unfold ParseInt. intros H Hdash. rewrite Hdash in H.
  set (s1 := if Ascii.eqb c0 "+" then rest else String c0 rest) in *.
  assert (Hun : 0 <= fst (ParseUint s1)).
  { unfold ParseUint. destruct s1; [cbn; lia|]. apply parseUintLoop_nonneg. lia. }
  destruct (ParseUint s1) as [un [[|]|]]; cbn [fst negb andb] in *;
    try discriminate;
    destruct (Z.leb_spec (2 ^ 63) un); try discriminate;
    injection H as <-; rewrite Int64_wrap_in_range;
    unfold Int64.in_range, Int64.min_int, Int64.max_int; lia.
Qed.

Lemma TrimLeftSpace_chars n : forall s c,
  (String.length s <= n)%nat ->
  In c (list_ascii_of_string (TrimLeftSpace s)) -> In c (list_ascii_of_string s).
Proof.
  induction n as [|n IH]; intros s c Hlen Hin.
  - destruct s; [exact Hin | cbn in Hlen; lia].
  - destruct s as [|c1 s1]; [exact Hin|]. cbn [TrimLeftSpace] in Hin.
    cbn [String.length] in Hlen.
    destruct (asciiSpace c1).
    { right. apply (IH s1 c); [lia | exact Hin]. }
    destruct s1 as [|c2 s2]; [exact Hin|]. cbn [String.length] in Hlen.
    destruct (space2 _ _).
    { right. right. apply (IH s2 c); [lia | exact Hin]. }
    destruct s2 as [|c3 s3]; [exact Hin|]. cbn [String.length] in Hlen.
    destruct (space3 _ _ _); [|exact Hin].
    right. right. right. apply (IH s3 c); [lia | exact Hin].
Qed.

Lemma TrimLeftSpaceRev_chars n : forall l c,
  (List.length l <= n)%nat -> In c (TrimLeftSpaceRev l) -> In c l.
Proof.
  induction n as [|n IH]; intros l c Hlen Hin.
  - destruct l; [exact Hin | cbn in Hlen; lia].
  - destruct l as [|c1 l1]; [exact Hin|]. cbn [TrimLeftSpaceRev] in Hin.
    cbn [List.length] in Hlen.
    destruct (asciiSpace c1).
    { right. apply (IH l1 c); [lia | exact Hin]. }
    destruct l1 as [|c2 l2]; [exact Hin|]. cbn [List.length] in Hlen.
    destruct (space2 _ _).
    { right. right. apply (IH l2 c); [lia | exact Hin]. }
    destruct l2 as [|c3 l3]; [exact Hin|]. cbn [List.length] in Hlen.
    destruct (space3 _ _ _); [|exact Hin].
    right. right. right. apply (IH l3 c); [lia | exact Hin].
Qed.

(** Trimming only removes bytes. *)
Lemma TrimSpace_chars s c :
  In c (list_ascii_of_string (TrimSpace s)) -> In c (list_ascii_of_string s).
Proof.
  unfold TrimSpace, TrimRightSpace. rewrite list_ascii_of_string_of_list_ascii.
  intros Hin. apply in_rev in Hin.
  apply (TrimLeftSpaceRev_chars _ _ _ (le_n _)) in Hin. apply in_rev in Hin.
  exact (TrimLeftSpace_chars _ _ _ (le_n _) Hin).
Qed.

(** There is no dash before the first dash. *)
Lemma slice_before_dash s c :
  0 <= Index s "-" ->
  In c (list_ascii_of_string (slice s 0 (Index s "-"))) ->
  Ascii.eqb c "-" = false.
Proof.
  unfold slice. rewrite Z.sub_0_r. change (Z.to_nat 0) with 0%nat.
  induction s as [|c1 s IH]; cbn [Index HasPrefix].
  - cbn. lia.
  - destruct (Ascii.eqb c1 "-") eqn:E1; cbn [andb].
    + cbn. intros _ [].
    + destruct (Z.ltb_spec (Index s "-") 0) as [Hneg|Hpos]; [lia|].
      intros _. replace (Z.to_nat (Index s "-" + 1))
        with (S (Z.to_nat (Index s "-"))) by lia.
      cbn [substring list_ascii_of_string]. intros [<-|Hin]; [exact E1|].
      exact (IH Hpos Hin).
Qed.

(** X14.  No range string makes [parseRange] fail with its
    [negative start] error: the text before the first dash holds no dash,
    so that the start it denotes is never negative, and a range that starts
    with a dash is read as a suffix range instead. *)
Theorem parseRange_never_negative_start r offset length args :
  parseRange r
  <> (offset, length,
      Some (errs.New "invalid range: negative start: %q" args)).
Proof.
  unfold parseRange.
  destruct (String.eqb _ ""); [discriminate|].
  destruct (Contains _ ","); [discriminate|].
  destruct (Z.ltb_spec (Index (TrimPrefix (TrimSpace r) "bytes=") "-") 0)
    as [|Hidx]; [discriminate|].
  set (start := TrimSpace (slice _ 0 _)).
  assert (Hstart : forall c, In c (list_ascii_of_string start) ->
                             Ascii.eqb c "-" = false).
  { intros c Hc. apply TrimSpace_chars in Hc.
    exact (slice_before_dash _ c Hidx Hc). }
  destruct (String.eqb_spec start "") as [Es|Es]; cbn [negb].
  - cbv iota.
    repeat match goal with
      | |- context [if ?b then _ else _] => destruct b
      | |- context [let '(_, _) := ?p in _] => destruct p as [? [?|]]
      end; discriminate.
  - destruct (ParseInt start) as [starti [e1|]] eqn:E1; [discriminate|].
    assert (Hpos : 0 <= starti).
    { destruct start as [|c0 rest]; [congruence|].
      apply (ParseInt_nonneg c0 rest starti E1). apply Hstart. now left. }
    destruct (Z.ltb_spec starti 0); [lia|].
    repeat match goal with
      | |- context [if ?b then _ else _] => destruct b
      | |- context [let '(_, _) := ?p in _] => destruct p as [? [?|]]
      end; discriminate.
Qed.

(** ** Restricting an access grant *)

Lemma Time_eqb_eq a b : Time_eqb a b = true <-> a = b.
Proof.
  destruct a as [w1 e1 l1], b as [w2 e2 l2]. unfold Time_eqb. cbn. split.
  - intros H. apply andb_true_iff in H. destruct H as [H Hl].
    apply andb_true_iff in H. destruct H as [Hw He].
    apply Z.eqb_eq in Hw, He. subst.
    destruct l1, l2; try discriminate; [|reflexivity].
    apply Nat.eqb_eq in Hl. now subst.
  - intros H. injection H as -> -> ->. rewrite !Z.eqb_refl.
    destruct l2; [apply Nat.eqb_refl | reflexivity].
Qed.

(** X15.  [Apply] leaves the access alone, without calling [Share], exactly
    when nothing is restricted: [readonly], [writeonly] and the four
    [disallow] flags are all off, both dates are the zero time and there is
    no prefix.  In every other case it calls [Share] once, with the given
    prefixes and dates and with a permission that allows deleting and
    uploading only if neither their own flag nor [readonly] is set, and
    listing and downloading only if neither their own flag nor [writeonly]
    is set. *)
Theorem Apply_shares_unless_unrestricted {Access : Type}
    (Share : Access -> uplink.Permission -> list uplink.SharePrefix
             -> option Access * option error)
    (ap : accessPermissions) (access : Access) :
  (snd (Apply Share ap access) = [] <->
   readonly ap = false /\ writeonly ap = false
   /\ disallowDeletes ap = false /\ disallowLists ap = false
   /\ disallowReads ap = false /\ disallowWrites ap = false
   /\ notBefore ap = zeroTime /\ notAfter ap = zeroTime /\ prefixes ap = [])
  /\ (snd (Apply Share ap access) = [] ->
      fst (Apply Share ap access) = (Some access, None))
  /\ (snd (Apply Share ap access) <> [] ->
      exists perm,
        snd (Apply Share ap access) = [(perm, prefixes ap)]
        /\ uplink.AllowDelete perm = negb (disallowDeletes ap || readonly ap)
        /\ uplink.AllowUpload perm = negb (disallowWrites ap || readonly ap)
        /\ uplink.AllowList perm = negb (disallowLists ap || writeonly ap)
        /\ uplink.AllowDownload perm = negb (disallowReads ap || writeonly ap)
        /\ uplink.NotBefore perm = notBefore ap
        /\ uplink.NotAfter perm = notAfter ap).
Proof.
  unfold Apply, uplink.Permission_eqb, AllowDelete, AllowList, AllowDownload,
    AllowUpload.
  cbn [uplink.AllowDelete uplink.AllowList uplink.AllowDownload
       uplink.AllowUpload uplink.NotBefore uplink.NotAfter].
  destruct (Time_eqb (notBefore ap) zeroTime) eqn:Eb;
    [apply Time_eqb_eq in Eb|];
    (destruct (Time_eqb (notAfter ap) zeroTime) eqn:Ea;
       [apply Time_eqb_eq in Ea|]);
    destruct (prefixes ap) as [|pre pres] eqn:Ep;
    destruct (readonly ap), (writeonly ap), (disallowDeletes ap),
      (disallowLists ap), (disallowReads ap), (disallowWrites ap);
    cbn [negb andb orb Bool.eqb List.length Z.of_nat Z.eqb];
    try (destruct (Share access _ _) as [acc [err|]]);
    cbn [fst snd];
    (split; [split; [intros H; try discriminate H; repeat split; auto
                    | intros (H1 & H2 & H3 & H4 & H5 & H6 & H7 & H8 & H9);
                      try discriminate; try reflexivity;
                      try (rewrite H7 in Eb; discriminate Eb);
                      try (rewrite H8 in Ea; discriminate Ea)]
           | split; [intros H; try discriminate H; reflexivity
                    | intros H; try (exfalso; apply H; reflexivity);
                      eexists; repeat split]]).
Qed.

Lemma Apply_shares_unless_unrestricted_witness :
  exists perm,
    snd (Apply shareOk defaultPermissions 0%nat) = [(perm, [])]
    /\ uplink.AllowDownload perm = true /\ uplink.AllowList perm = true
    /\ uplink.AllowUpload perm = false /\ uplink.AllowDelete perm = false.
Proof.
  destruct (Apply_shares_unless_unrestricted shareOk defaultPermissions 0%nat)
    as (_ & _ & H).
  destruct H as (perm & Hc & Hd & Hu & Hl & Hr & _); [discriminate|].
  exists perm. repeat split; assumption.
Defined.

(** ** The prefix that [List] lists *)

Lemma LastIndexByte_spec s c :
  (ulfs.LastIndexByte s c = -1
   /\ forall x, In x (list_ascii_of_string s) -> Ascii.eqb x c = false)
  \/ (exists a b,
        s = a ++ String c b /\ ulfs.LastIndexByte s c = len a
        /\ forall x, In x (list_ascii_of_string b) -> Ascii.eqb x c = false).
Proof.
  induction s as [|x s IH]; [left; split; [reflexivity | intros ? []]|].
  cbn [ulfs.LastIndexByte].
  destruct IH as [(Hi & Hno)|(a & b & Hs & Hi & Hno)].
  - rewrite Hi. cbn [Z.leb]. change (0 <=? -1) with false. cbv iota.
    destruct (Ascii.eqb_spec x c) as [->|Hne].
    + right. exists "", s. repeat split; auto.
    + left. split; [reflexivity|]. intros y [<-|Hy]; [|now apply Hno].
      now apply Ascii.eqb_neq.
  - right. exists (String x a), b. rewrite Hi, Hs.
    pose proof (len_nonneg a).
    destruct (Z.leb_spec 0 (len a)); [|lia].
    repeat split; auto. rewrite len_String. lia.
Qed.

(** X16.  [List] asks the project for the directory that the prefix lies
    in: the prefix it passes on is the given prefix cut after its last
    slash, so that the given prefix is this parent followed by a tail
    without slash, and the parent is empty or ends with a slash.  The
    iterator filters on the whole given prefix, and trims by the parent
    unless the listing is recursive, in which case it trims nothing; system
    metadata is always asked for. *)
Theorem List_lists_parent_directory
    (bucket prefix : string) (optsRecursive isRecursive isPending : bool) :
  let it := ulfs.List bucket prefix optsRecursive isRecursive isPending in
  let parent := ulfs.listPrefix (ulfs.iter it) in
  (exists rest,
      prefix = parent ++ rest
      /\ forall x, In x (list_ascii_of_string rest) -> Ascii.eqb x "/" = false)
  /\ (parent = "" \/ exists d, parent = d ++ "/")
  /\ ulfs.filter it = (bucket, prefix)
  /\ ulfs.trim it = (bucket, if isRecursive then "" else parent)
  /\ ulfs.listBucket (ulfs.iter it) = bucket
  /\ ulfs.listUploads (ulfs.iter it) = isPending
  /\ ulfs.listRecursive (ulfs.iter it) = optsRecursive
  /\ ulfs.listSystem (ulfs.iter it) = true.
Proof.
  cbv zeta. unfold ulfs.List.
  cbn [ulfs.iter ulfs.listPrefix ulfs.filter ulfs.trim ulfs.listBucket
       ulfs.listUploads ulfs.listRecursive ulfs.listSystem].
  assert (Hparent :
    exists rest,
      prefix = (if 0 <=? ulfs.LastIndexByte prefix "/"
                then slice prefix 0 (ulfs.LastIndexByte prefix "/" + 1)
                else "") ++ rest
      /\ (forall x, In x (list_ascii_of_string rest) -> Ascii.eqb x "/" = false)
      /\ ((if 0 <=? ulfs.LastIndexByte prefix "/"
           then slice prefix 0 (ulfs.LastIndexByte prefix "/" + 1)
           else "") = ""
          \/ exists d,
               (if 0 <=? ulfs.LastIndexByte prefix "/"
                then slice prefix 0 (ulfs.LastIndexByte prefix "/" + 1)
                else "") = d ++ "/")).
  { destruct (LastIndexByte_spec prefix "/") as [(Hi & Hno)|(a & b & Hs & Hi & Hno)].
    - rewrite Hi. change (0 <=? -1) with false. cbv iota.
      exists prefix. repeat split; auto.
    - rewrite Hi. pose proof (len_nonneg a).
      destruct (Z.leb_spec 0 (len a)); [|lia].
      assert (Hsl : slice prefix 0 (len a + 1) = a ++ "/").
      { rewrite Hs.
        replace (a ++ String "/" b) with ((a ++ "/") ++ b)
          by (rewrite append_assoc; reflexivity).
        replace (len a + 1) with (len (a ++ "/"))
          by (rewrite len_append; reflexivity).
        apply slice_head. }
      rewrite Hsl. exists b. split; [|split; [exact Hno|]].
      + rewrite append_assoc. exact Hs.
      + right. now exists a. }
  destruct Hparent as (rest & H1 & H2 & H3).
  split; [now exists rest|]. split; [exact H3|].
  destruct isRecursive; repeat split.
Qed.

Lemma List_lists_parent_directory_witness :
  exists rest,
    "photos/2021/ja" = "photos/2021/" ++ rest
    /\ forall x, In x (list_ascii_of_string rest) -> Ascii.eqb x "/" = false.
Proof.
  destruct (List_lists_parent_directory "b" "photos/2021/ja" false false false)
    as (H & _).
  exact H.
Defined.

(** ** The version of a snapshot file *)

Lemma mapBytes_append f a b :
  migrate.mapBytes f (a ++ b) = migrate.mapBytes f a ++ migrate.mapBytes f b.
Proof. induction a as [|c a IH]; cbn; [reflexivity | now rewrite IH]. Qed.

Lemma isDigit_keeps c :
  isDigit c = true ->
  migrate.isASCII c = true /\ migrate.lowerByte c = c
  /\ Ascii.eqb c "\" = false.
Proof. ascii_cases c. Qed.

Lemma mapBytes_digits f s :
  (forall c, isDigit c = true -> f c = c) ->
  allb isDigit s = true -> migrate.mapBytes f s = s.
Proof.
  intros Hf. induction s as [|c s IH]; intros H; [reflexivity|].
  rewrite allb_String in H. apply andb_true_iff in H. destruct H as [Hc Hs].
  cbn. now rewrite (Hf c Hc), IH.
Qed.

Lemma TrimSuffix_append a suffix :
  migrate.TrimSuffix (a ++ suffix) suffix = a.
Proof.
  unfold migrate.TrimSuffix, migrate.HasSuffix. rewrite len_append.
  pose proof (len_nonneg a). pose proof (len_nonneg suffix).
  destruct (Z.leb_spec (len suffix) (len a + len suffix)); [|lia].
  replace (len a + len suffix - len suffix) with (len a) by lia.
  replace (len a + len suffix) with (len (a ++ suffix))
    by (rewrite len_append; reflexivity).
  rewrite slice_tail, String.eqb_refl. cbn [andb]. apply slice_head.
Qed.

(** The name of a snapshot, in any of its spellings, once lowered and with
    slashes. *)
Lemma snapshot_name_normal windows unicodeLower pre suf d :
  forallb migrate.isASCII (list_ascii_of_string pre) = true ->
  forallb migrate.isASCII (list_ascii_of_string suf) = true ->
  allb isDigit d = true ->
  migrate.ToSlash windows (migrate.mapBytes migrate.lowerByte pre)
  = "testdata/postgres.v" ->
  migrate.ToSlash windows (migrate.mapBytes migrate.lowerByte suf) = ".sql" ->
  migrate.ToSlash windows (migrate.ToLower unicodeLower (pre ++ d ++ suf))
  = "testdata/postgres.v" ++ d ++ ".sql".
Proof.
  intros Hpre Hsuf Hd Epre Esuf. unfold migrate.ToLower.
  assert (HdA : forallb migrate.isASCII (list_ascii_of_string d) = true).
  { unfold allb in Hd. rewrite forallb_forall in *. intros c Hc.
    apply (isDigit_keeps c (Hd c Hc)). }
  rewrite !chars_append, !forallb_app, Hpre, HdA, Hsuf. cbn [andb].
  rewrite !mapBytes_append.
  rewrite (mapBytes_digits migrate.lowerByte d)
    by (auto; intros c Hc; apply (isDigit_keeps c Hc)).
  unfold migrate.ToSlash in *.
  destruct (Ascii.eqb (migrate.Separator windows) "/").
  - now rewrite Epre, Esuf.
  - rewrite !mapBytes_append, Epre, Esuf.
    rewrite mapBytes_digits; auto.
    intros c Hc. destruct windows; cbn [migrate.Separator].
    + now rewrite (proj2 (proj2 (isDigit_keeps c Hc))).
    + destruct (isDigit_facts c Hc) as (_ & _ & _ & _ & _ & _).
      destruct (Ascii.eqb c "/") eqn:E; [|reflexivity].
      apply Ascii.eqb_eq in E. now subst.
Qed.

Lemma parseTestdataVersion_normal windows unicodeLower path n :
  0 <= n <= Int64.max_int ->
  migrate.ToSlash windows (migrate.ToLower unicodeLower path)
  = "testdata/postgres.v" ++ FormatInt n ++ ".sql" ->
  migrate.parseTestdataVersion windows unicodeLower path = n.
Proof.
  intros Hn E. unfold migrate.parseTestdataVersion. rewrite E.
  assert (Hp : TrimPrefix ("testdata/postgres.v" ++ FormatInt n ++ ".sql")
                 "testdata/postgres.v" = FormatInt n ++ ".sql").
  { unfold TrimPrefix.
    change (HasPrefix ("testdata/postgres.v" ++ FormatInt n ++ ".sql")
              "testdata/postgres.v") with true.
    cbv iota. apply (slice_tail "testdata/postgres.v"). }
  rewrite Hp, TrimSuffix_append. unfold migrate.Atoi.
  now rewrite ParseInt_FormatInt.
Qed.

(** X17.  [parseTestdataVersion] gives back the version that a snapshot
    file is named after: for every version [0 <= n] that fits [int64],
    printed in decimal, the names [testdata/postgres.v<n>.sql], the same in
    capital letters, and on Windows the same with a backslash, all yield
    [n].  A name whose version is no number yields -1. *)
Theorem parseTestdataVersion_round_trip (windows : bool)
    (unicodeLower : string -> string) (n : Z) :
  0 <= n <= Int64.max_int ->
  migrate.parseTestdataVersion windows unicodeLower
    ("testdata/postgres.v" ++ FormatInt n ++ ".sql") = n
  /\ migrate.parseTestdataVersion windows unicodeLower
       ("TESTDATA/POSTGRES.V" ++ FormatInt n ++ ".SQL") = n
  /\ migrate.parseTestdataVersion true unicodeLower
       ("testdata\postgres.v" ++ FormatInt n ++ ".sql") = n
  /\ migrate.parseTestdataVersion windows unicodeLower
       "testdata/postgres.vnext.sql" = -1.
Proof.
  intros Hn. destruct (FormatInt_digits n ltac:(lia)) as [Hd _].
  repeat split.
  - apply parseTestdataVersion_normal; [assumption|].
    apply snapshot_name_normal; auto; destruct windows; reflexivity.
  - apply parseTestdataVersion_normal; [assumption|].
    apply snapshot_name_normal; auto; destruct windows; reflexivity.
  - apply parseTestdataVersion_normal; [assumption|].
    apply snapshot_name_normal; auto; reflexivity.
  - destruct windows; reflexivity.
Qed.

Lemma parseTestdataVersion_round_trip_witness :
  migrate.parseTestdataVersion false (fun s => s)
    ("testdata/postgres.v" ++ FormatInt 142 ++ ".sql") = 142.
Proof.
  apply (parseTestdataVersion_round_trip false (fun s => s) 142).
  unfold Int64.max_int. lia.
Defined.

(** ** A byte range, from the flag to the parts *)

Section RangeCopy.

Context {Location : Type} {U : Ulloc Location}.

Implicit Types (c : @cmdCp Location) (fs : @FsEnv Location).

(** X18.  A copy with the range [bytes=N-M] transfers the bytes [N] to [M]
    and no more: when the file can be opened and created, the seek succeeds
    and every part is granted, [copyFile] seeks to [N] (unless [N] is 0),
    then asks the source and the destination for parts whose sizes are full
    chunks followed by the remainder and add up to [M - N + 1], commits the
    destination, and releases both handles. *)
Theorem copyFile_range_transfers_exactly fuel c fs (src dst : Location)
    (progress : bool) (N M : Z) :
  dryrun c = false ->
  byteRange c = "bytes=" ++ FormatInt N ++ "-" ++ FormatInt M ->
  0 <= N <= M -> M <= Int64.max_int -> M - N + 1 <= Int64.max_int ->
  1 <= parallelismChunkSize c <= Int64.max_int ->
  (Z.to_nat (M - N + 1) <= fuel)%nat ->
  fsOpen fs src = None -> fsCreate fs dst = None ->
  SetOffset (handles fs src dst) N = None ->
  allGranted (handles fs src dst) ->
  exists r parts,
    copyFile fuel c fs src dst progress
    = Some (r,
            [EvOpen src; EvCreate dst]
              ++ (if progress && negb (Std (dest c)) then [EvBarNew] else [])
              ++ map (EvHandle src dst)
                   (seekCalls N ++ parts
                      ++ [HDstCommit; HCancel; HDstAbort; HSrcClose])
              ++ (if progress && negb (Std (dest c)) then [EvBarFinish] else [])
              ++ [EvWriteAbort dst; EvReadClose src])%list
    /\ forallb isPartCall parts = true
    /\ srcSizes parts = partSizes (parallelismChunkSize c) (M - N + 1)
    /\ dstSizes parts = partSizes (parallelismChunkSize c) (M - N + 1)
    /\ sumZ (srcSizes parts) = M - N + 1.
Proof.
  intros Hdry Hrange HN HM HL Hc Hf Hopen Hcreate Hseek G.
  destruct (FormatInt_digits N ltac:(lia)) as [HdN HneN].
  destruct (FormatInt_digits M ltac:(lia)) as [HdM HneM].
  pose proof (decVal_FormatInt N ltac:(lia)) as EN.
  pose proof (decVal_FormatInt M ltac:(lia)) as EM.
  assert (Hparse : parseRange (byteRange c) = (N, M - N + 1, None)).
  { rewrite Hrange.
    change (FormatInt N ++ "-" ++ FormatInt M)
      with (FormatInt N ++ String "-" (FormatInt M)).
    rewrite parseRange_digits; auto; try lia. rewrite EN, EM.
    destruct (String.eqb_spec (FormatInt N) ""); [contradiction|].
    destruct (String.eqb_spec (FormatInt M) ""); [contradiction|].
    destruct (Z.gtb_spec N M); [lia|].
    unfold Int64.add, Int64.sub.
    assert (Hin : forall z, Int64.min_int <= z <= Int64.max_int ->
                            Int64.wrap z = z)
      by (intros; now apply Int64_wrap_in_range).
    assert (Hmin : Int64.min_int = - Int64.max_int - 1) by reflexivity.
    rewrite (Hin (M - N)) by lia. rewrite Hin by lia. reflexivity. }
  set (h := handles fs src dst) in *.
  destruct (parallelCopyLoop_bounded h (progress && negb (Std (dest c)))
              (parallelismChunkSize c) Hc fuel 0%nat (M - N + 1) []
              ltac:(lia) Hf)
    as (ex & rem & es & parts & Hrun & _ & _ & Hsum & Hex & Hall).
  destruct (Hall G) as (-> & H1 & H2). rewrite (Hex eq_refl) in Hrun, Hsum.
  destruct (parallelCopyLoop_calls _ _ _ _ _ _ _ _ _ _ _ Hrun) as (Hp & _).
  exists (errs.Wrap (errs.Err (errs.Add es (dstCommit h)))), parts.
  split; [|split; [exact Hp|split; [|split; [|lia]]]].
  - unfold copyFile. rewrite Hdry, Hparse, Hopen, Hcreate. fold h.
    unfold parallelCopy, seekCalls.
    destruct (Z.eqb_spec N 0) as [E0|E0]; cbn [negb].
    + rewrite Hrun. reflexivity.
    + rewrite Hseek, Hrun. reflexivity.
  - rewrite H1. apply specChunks_partSizes; lia.
  - rewrite H2, H1. apply specChunks_partSizes; lia.
Qed.

End RangeCopy.

Lemma copyFile_range_transfers_exactly_witness :
  exists r parts,
    copyFile 10 (set_byteRange downloadTree "bytes=10-19") grantingFs
      (UllocModel.RemoteObject "b" "a/1") (UllocModel.LocalPath "d/1") false
    = Some (r,
            [EvOpen (UllocModel.RemoteObject "b" "a/1");
             EvCreate (UllocModel.LocalPath "d/1")]
              ++ map (EvHandle (UllocModel.RemoteObject "b" "a/1")
                               (UllocModel.LocalPath "d/1"))
                   (seekCalls 10 ++ parts
                      ++ [HDstCommit; HCancel; HDstAbort; HSrcClose])
              ++ [EvWriteAbort (UllocModel.LocalPath "d/1");
                  EvReadClose (UllocModel.RemoteObject "b" "a/1")])%list
    /\ sumZ (srcSizes parts) = 10.
Proof.
  assert (HN : 0 <= 10 <= 19) by lia.
  assert (HM : 19 <= Int64.max_int) by (unfold Int64.max_int; lia).
  assert (HL : 19 - 10 + 1 <= Int64.max_int) by (unfold Int64.max_int; lia).
  assert (Hc : 1 <= parallelismChunkSize (set_byteRange downloadTree "bytes=10-19")
               <= Int64.max_int) by (unfold Int64.max_int; cbn; lia).
  assert (Hf : (Z.to_nat (19 - 10 + 1) <= 10)%nat) by (vm_compute; lia).
  assert (G : allGranted (handles grantingFs (UllocModel.RemoteObject "b" "a/1")
                            (UllocModel.LocalPath "d/1")))
    by (intros i size; repeat split).
  destruct (copyFile_range_transfers_exactly 10
              (set_byteRange downloadTree "bytes=10-19") grantingFs
              (UllocModel.RemoteObject "b" "a/1") (UllocModel.LocalPath "d/1")
              false 10 19 eq_refl eq_refl HN HM HL Hc Hf eq_refl eq_refl eq_refl G)
    as (r & parts & Hrun & _ & _ & _ & Hsum).
  exists r, parts. split; [exact Hrun | exact Hsum].
Defined.

(** ** Blanks around a range *)

Lemma TrimLeftSpace_blanks ws x :
  allb asciiSpace ws = true -> TrimLeftSpace (ws ++ x) = TrimLeftSpace x.
Proof.
  induction ws as [|c ws IH]; intros H; [reflexivity|].
  rewrite allb_String in H. apply andb_true_iff in H. destruct H as [Hc Hws].
  cbn [append TrimLeftSpace]. rewrite Hc. now apply IH.
Qed.

Lemma TrimLeftSpaceRev_blanks ws l :
  forallb asciiSpace ws = true -> TrimLeftSpaceRev (ws ++ l) = TrimLeftSpaceRev l.
Proof.
  induction ws as [|c ws IH]; intros H; [reflexivity|].
  cbn [forallb] in H. apply andb_true_iff in H. destruct H as [Hc Hws].
  cbn [app TrimLeftSpaceRev]. rewrite Hc. now apply IH.
Qed.

Lemma append_nil_r (s : string) : s ++ "" = s.
Proof. induction s as [|c s IH]; cbn; [reflexivity | now rewrite IH]. Qed.

(** A blank is no second or third byte of a space rune. *)
Lemma asciiSpace_low c :
  asciiSpace c = true ->
  (forall b, space2 b (byte c) = false)
  /\ (forall b b', space3 b b' (byte c) = false)
  /\ (forall b b', space3 b (byte c) b' = false).
Proof.
  unfold asciiSpace, space2, space3. intros H.
  assert (Hb : byte c < 128).
  { repeat (apply orb_true_iff in H; destruct H as [H|H]);
      apply Z.eqb_eq in H; lia. }
  repeat split; intros;
    repeat match goal with
      | |- context [?a =? ?b] => destruct (Z.eqb_spec a b); try lia
      | |- context [?a <=? ?b] => destruct (Z.leb_spec a b); try lia
      end; cbn; auto;
    repeat rewrite ?andb_false_r, ?orb_false_r; auto.
Qed.

(** Blanks appended to a string are kept by the trimming on the left,
    unless the string itself is trimmed away. *)
Lemma TrimLeftSpace_append_blanks ws :
  allb asciiSpace ws = true ->
  forall n r, (String.length r <= n)%nat ->
    TrimLeftSpace (r ++ ws)
    = if String.eqb (TrimLeftSpace r) "" then "" else TrimLeftSpace r ++ ws.
Proof.
  intros Hws.
  assert (Hall : TrimLeftSpace ws = "").
  { rewrite <- (append_nil_r ws) at 1. rewrite TrimLeftSpace_blanks; auto. }
  induction n as [|n IH]; intros r Hlen.
  - destruct r; [exact Hall | cbn in Hlen; lia].
  - destruct r as [|c1 r1]; [exact Hall|]. cbn [String.length] in Hlen.
    cbn [append TrimLeftSpace]. destruct (asciiSpace c1) eqn:E1.
    { apply IH. lia. }
    destruct r1 as [|c2 r2].
    { cbn [append]. destruct ws as [|w ws']; [reflexivity|].
      rewrite allb_String in Hws. apply andb_true_iff in Hws.
      destruct Hws as [Hw _]. destruct (asciiSpace_low w Hw) as (W2 & W3 & W3').
      rewrite W2. destruct ws'; [reflexivity|]. now rewrite W3'. }
    cbn [String.length] in Hlen. cbn [append].
    destruct (space2 (byte c1) (byte c2)) eqn:E2.
    { apply IH. lia. }
    destruct r2 as [|c3 r3].
    { cbn [append]. destruct ws as [|w ws']; [reflexivity|].
      rewrite allb_String in Hws. apply andb_true_iff in Hws.
      destruct Hws as [Hw _]. destruct (asciiSpace_low w Hw) as (W2 & W3 & _).
      now rewrite W3. }
    cbn [String.length] in Hlen. cbn [append].
    destruct (space3 (byte c1) (byte c2) (byte c3)) eqn:E3.
    { apply IH. lia. }
    reflexivity.
Qed.

Lemma TrimRightSpace_blanks t ws :
  allb asciiSpace ws = true -> TrimRightSpace (t ++ ws) = TrimRightSpace t.
Proof.
  intros H. unfold TrimRightSpace. rewrite chars_append, rev_app_distr.
  rewrite TrimLeftSpaceRev_blanks; [reflexivity|].
  unfold allb in H. rewrite forallb_forall in *. intros c Hc.
  apply H. now apply in_rev.
Qed.

Lemma TrimSpace_blanks ws1 r ws2 :
  allb asciiSpace ws1 = true -> allb asciiSpace ws2 = true ->
  TrimSpace (ws1 ++ r ++ ws2) = TrimSpace r.
Proof.
  intros H1 H2. unfold TrimSpace.
  rewrite TrimLeftSpace_blanks by assumption.
  rewrite (TrimLeftSpace_append_blanks ws2 H2 _ r (le_n _)).
  destruct (String.eqb_spec (TrimLeftSpace r) "") as [E|E].
  - now rewrite E.
  - now apply TrimRightSpace_blanks.
Qed.

(** X19.  Blanks around a range do not matter: with any spaces, tabs, line
    feeds, vertical tabs, form feeds and carriage returns put before and
    after it, a range string gives the result that it gives without them,
    success or failure. *)
Theorem parseRange_ignores_surrounding_blanks (ws1 r ws2 : string) :
  allb asciiSpace ws1 = true -> allb asciiSpace ws2 = true ->
  parseRange (ws1 ++ r ++ ws2) = parseRange r.
Proof.
  intros H1 H2. unfold parseRange. now rewrite TrimSpace_blanks.
Qed.

Lemma parseRange_ignores_surrounding_blanks_witness :
  parseRange ("  " ++ "bytes=10-20" ++ " ") = parseRange "bytes=10-20".
Proof.
  apply parseRange_ignores_surrounding_blanks; reflexivity.
Defined.
